(** * vermLib / FollowUser: the voice-presence follow controller

    A shallow embedding of [plugins/followUser] (the FollowUser sub-plugin of
    vermLib) and the properties of its follow session, search loop, join
    orchestrator, preload cache and permission checks.

    The plugin is single-threaded JavaScript: every handler and every timer
    callback runs to completion, and the only suspension points are timers
    and awaited promises.  The embedding therefore has

    - a record [State] holding the module-level variables of the plugin,
      the host's table of pending timers and promise continuations, and the
      trace of calls made to the host collaborators;
    - a record [Env] giving, for one run-to-completion step, what every
      collaborator call answers, including the possibility that it throws;
    - a state-and-exception monad [M] in which each source function is
      written with the control flow (try/catch, early return, loops) it has
      in the source;
    - a function [step] that runs one handler or fires one pending task.

    Log lines ([console.log], [console.error], [debugLog]) and the React
    state of the menu checkbox are not modelled. *)

From stdpp Require Import gmap strings list pretty.
From Stdlib Require Import ZArith Lia.

Local Open Scope string_scope.
Local Open Scope list_scope.
Local Open Scope Z_scope.

(** ** Data *)

(** The two fields of a channel record the plugin reads.  [guild_id] is
    absent for DM channels. *)
Record Channel := mkChannel {
  channel_id : string;
  guild_id : option string
}.

Record User := mkUser {
  user_id : string;
  username : string
}.

(** One entry of a VOICE_STATE_UPDATES batch: [vs?.userId ?? vs?.user_id]
    and [vs?.channelId]. *)
Record VoiceState := mkVoiceState {
  vs_userId : option string;
  vs_channelId : option string
}.

Inductive Permission := VIEW_CHANNEL | CONNECT.

Inductive ToastType := MESSAGE | SUCCESS.

(** What a call to a collaborator does: it returns a value or it throws. *)
Inductive Attempt (A : Type) :=
| Returns (a : A)
| Throws.
Arguments Returns {A} a.
Arguments Throws {A}.

(** The collaborators, as seen during one run-to-completion step. *)
Record Env := mkEnv {
  (* ChannelStore.getChannel(id) *)
  getChannel : string -> Attempt (option Channel);
  (* channel.isPrivate() or channel.isDM?.() || channel.isGroupDM?.() *)
  isPrivate : Channel -> Attempt bool;
  (* PermissionStore.can(bit, channel) *)
  can : Permission -> Channel -> Attempt bool;
  (* GuildStore.getGuildIds?.() ?? Object.keys(GuildStore.getGuilds?.() ?? {}) *)
  getGuildIds : Attempt (list string);
  (* GuildStore.getGuild(guildId), as a truth value *)
  getGuild : string -> Attempt bool;
  (* GuildMemberStore.getMember(guildId, userId), as a truth value *)
  getMember : string -> string -> Attempt bool;
  (* VoiceStateStore.getVoiceStates(guildId), then voiceStates[userId] *)
  getVoiceStates : string -> string -> Attempt bool;
  (* VoiceStateStore.getVoiceStateForUser(userId)?.channelId *)
  getVoiceStateForUser : string -> Attempt (option string);
  (* GuildChannelStore.getDefaultChannel?.(guildId)?.id *)
  getDefaultChannel : string -> Attempt (option string);
  (* SelectedChannelStore.getVoiceChannelId?.() *)
  getVoiceChannelId : Attempt (option string);
  (* UserStore.getUser(id)?.username *)
  getUser : string -> Attempt (option string);
  (* whether ChannelActionCreators?.preload is present *)
  hasPreload : bool;
  (* ChannelActionCreators.preload(guildId, channelId): the call itself *)
  preload : string -> string -> Attempt unit;
  (* how the promise returned by an earlier preload call settles *)
  preloadSettles : string -> string -> Attempt unit;
  (* FluxDispatcher.dispatch({type: "REQUEST_CHANNEL_SUMMARIES", guildId}) *)
  dispatch : string -> Attempt unit;
  (* ChannelRouter.transitionToChannel(channelId) *)
  transitionToChannel : string -> Attempt unit;
  (* ChannelActions.selectVoiceChannel(channelId | null) *)
  selectVoiceChannel : option string -> Attempt unit;
  (* Toasts.show(Toasts.create(message, type, {duration})) *)
  toast : ToastType -> string -> Attempt unit;
  (* RestAPI.get({url: /users/<id>/profile, query: {with_mutual_guilds}}):
     the call itself *)
  restGet : string -> Attempt unit;
  (* how the promise of an earlier RestAPI.get settles:
     response.body?.mutual_guilds mapped to ids *)
  restResponse : string -> Attempt (option (list string))
}.

(** The calls recorded in the trace, named after the source. *)
Inductive Call :=
| ChannelStore_getChannel (id : string)
| Channel_isPrivate (ch : Channel)
| PermissionStore_can (p : Permission) (ch : Channel)
| GuildStore_getGuildIds
| GuildStore_getGuild (guildId : string)
| GuildMemberStore_getMember (guildId userId : string)
| VoiceStateStore_getVoiceStates (guildId : string)
| VoiceStateStore_getVoiceStateForUser (userId : string)
| GuildChannelStore_getDefaultChannel (guildId : string)
| SelectedChannelStore_getVoiceChannelId
| UserStore_getUser (userId : string)
| ChannelActionCreators_preload (guildId channelId : string)
| FluxDispatcher_dispatch (guildId : string)
| ChannelRouter_transitionToChannel (channelId : string)
| ChannelActions_selectVoiceChannel (channelId : option string)
| Toasts_show (type : ToastType) (message : string)
| RestAPI_get (userId : string).

(** The continuations of the two async functions at their [await]s. *)
Inductive Continuation :=
(* preloadGuildData after [await ChannelActionCreators.preload(...)] *)
| PreloadGuildDataResume (channelId guildId : string)
(* preloadMutualGuilds after [await RestAPI.get(...)] *)
| MutualGuildsResponse (userId : string)
(* preloadMutualGuilds after [await ChannelActionCreators.preload(...)] *)
| MutualGuildsPreloaded (guildId defaultChannelId : string)
    (rest : list string)
(* preloadMutualGuilds after the 100 ms pause *)
| MutualGuildsPause (guildId : string) (rest : list string).

(** Code waiting to run: such a continuation or a timer callback. *)
Inductive Task :=
| Resume (k : Continuation)
(* joinVoiceChannel: the callback of the outer setTimeout *)
| NavigateStage (channelId : string)
(* joinVoiceChannel: the callback of the inner setTimeout *)
| ConnectStage (channelId : string)
(* startSearching: the setInterval callback *)
| SearchTick (userId uname : string).

Inductive TimerKind :=
| Timeout (ms : Z)
| Interval (ms : Z)
| Awaited.

Record Timer := mkTimer {
  timer_id : nat;
  timer_kind : TimerKind;
  timer_task : Task
}.

(** The module-level variables of the plugin, then the host's pending
    work and the trace (newest call first). *)
Record State := mkState {
  disconnectFollow : bool;
  preloadDelay : Z;
  enableDebugLogs : bool;
  followedUserId : option string;
  lastFollowedChannelId : option string;
  preloadedGuilds : gset string;
  searchInterval : option nat;
  isSearching : bool;
  timers : list Timer;
  nextTimerId : nat;
  trace : list Call
}.

Definition initial : State :=
  mkState false 300 false None None ∅ None false [] 1 [].

Definition set_followedUserId (v : option string) (s : State) : State :=
  mkState (disconnectFollow s) (preloadDelay s) (enableDebugLogs s) v
    (lastFollowedChannelId s) (preloadedGuilds s) (searchInterval s)
    (isSearching s) (timers s) (nextTimerId s) (trace s).

Definition set_lastFollowedChannelId (v : option string) (s : State) : State :=
  mkState (disconnectFollow s) (preloadDelay s) (enableDebugLogs s)
    (followedUserId s) v (preloadedGuilds s) (searchInterval s)
    (isSearching s) (timers s) (nextTimerId s) (trace s).

Definition set_preloadedGuilds (v : gset string) (s : State) : State :=
  mkState (disconnectFollow s) (preloadDelay s) (enableDebugLogs s)
    (followedUserId s) (lastFollowedChannelId s) v (searchInterval s)
    (isSearching s) (timers s) (nextTimerId s) (trace s).

Definition set_searchInterval (v : option nat) (s : State) : State :=
  mkState (disconnectFollow s) (preloadDelay s) (enableDebugLogs s)
    (followedUserId s) (lastFollowedChannelId s) (preloadedGuilds s) v
    (isSearching s) (timers s) (nextTimerId s) (trace s).

Definition set_isSearching (v : bool) (s : State) : State :=
  mkState (disconnectFollow s) (preloadDelay s) (enableDebugLogs s)
    (followedUserId s) (lastFollowedChannelId s) (preloadedGuilds s)
    (searchInterval s) v (timers s) (nextTimerId s) (trace s).

Definition set_settings (d : bool) (p : Z) (e : bool) (s : State) : State :=
  mkState d p e
    (followedUserId s) (lastFollowedChannelId s) (preloadedGuilds s)
    (searchInterval s) (isSearching s) (timers s) (nextTimerId s) (trace s).

Definition set_timers (v : list Timer) (s : State) : State :=
  mkState (disconnectFollow s) (preloadDelay s) (enableDebugLogs s)
    (followedUserId s) (lastFollowedChannelId s) (preloadedGuilds s)
    (searchInterval s) (isSearching s) v (nextTimerId s) (trace s).

Definition add_timer (k : TimerKind) (t : Task) (s : State) : State :=
  mkState (disconnectFollow s) (preloadDelay s) (enableDebugLogs s)
    (followedUserId s) (lastFollowedChannelId s) (preloadedGuilds s)
    (searchInterval s) (isSearching s)
    (mkTimer (nextTimerId s) k t :: timers s) (S (nextTimerId s)) (trace s).

Definition removeTimer (h : nat) (s : State) : State :=
  set_timers (filter (fun t => timer_id t ≠ h) (timers s)) s.

Definition record (c : Call) (s : State) : State :=
  mkState (disconnectFollow s) (preloadDelay s) (enableDebugLogs s)
    (followedUserId s) (lastFollowedChannelId s) (preloadedGuilds s)
    (searchInterval s) (isSearching s) (timers s) (nextTimerId s)
    (c :: trace s).

(** ** The monad: state, plus an exception that unwinds to the nearest
    [try]. *)

Inductive Res (A : Type) :=
| Ok (a : A) (s : State)
| Exn (s : State).
Arguments Ok {A} a s.
Arguments Exn {A} s.

Definition M (A : Type) : Type := State -> Res A.

Definition ret {A} (a : A) : M A := fun s => Ok a s.

Definition bind {A B} (m : M A) (k : A -> M B) : M B :=
  fun s => match m s with
           | Ok a s' => k a s'
           | Exn s' => Exn s'
           end.

Definition try_catch {A} (body handler : M A) : M A :=
  fun s => match body s with
           | Ok a s' => Ok a s'
           | Exn s' => handler s'
           end.

Definition get : M State := fun s => Ok s s.

Definition modify (f : State -> State) : M unit := fun s => Ok tt (f s).

(** A call to a collaborator: it is recorded, then returns or throws. *)
Definition external {A} (c : Call) (r : Attempt A) : M A :=
  fun s => match r with
           | Returns a => Ok a (record c s)
           | Throws => Exn (record c s)
           end.

Notation "x <- m ;; k" := (bind m (fun x => k))
  (at level 100, m at next level, right associativity).
Notation "m ;;; k" := (bind m (fun _ => k))
  (at level 100, right associativity).

(** The state a step leaves behind, whether or not an exception escaped. *)
Definition after {A} (r : Res A) : State :=
  match r with Ok _ s => s | Exn s => s end.

Definition escapes {A} (r : Res A) : bool :=
  match r with Ok _ _ => false | Exn _ => true end.

(** JavaScript truthiness of [string | null | undefined]: the empty string
    is falsy like [null]. *)
Definition truthy (o : option string) : option string :=
  match o with
  | Some s => if String.eqb s "" then None else Some s
  | None => None
  end.

Definition same (a : string) (o : option string) : bool :=
  match o with
  | Some b => String.eqb a b
  | None => false
  end.

(** What an async function call hands back to its caller. *)
Inductive Promise :=
| Fulfilled
| Rejected
| Suspended (kind : TimerKind) (k : Continuation).

(** ** The plugin *)

Section Controller.

Variable env : Env.

(** [for (const x of xs) body(x)] where the body neither breaks nor
    returns. *)
Fixpoint for_each {A} (xs : list A) (body : A -> M unit) : M unit :=
  match xs with
  | [] => ret tt
  | x :: rest => body x ;;; for_each rest body
  end.

(** [try { call } catch { }] *)
Definition attempt (m : M unit) : M unit := try_catch m (ret tt).

Definition setTimeout (ms : Z) (t : Task) : M unit :=
  modify (add_timer (Timeout ms) t).

Definition setInterval (ms : Z) (t : Task) : M nat :=
  s <- get ;;
  modify (add_timer (Interval ms) t) ;;;
  ret (nextTimerId s).

Definition clearInterval (h : nat) : M unit :=
  modify (removeTimer h).

(** Registers the continuation of a suspended async call. *)
Definition settle (p : Promise) (onSettled : M unit) : M unit :=
  match p with
  | Suspended kind k => modify (add_timer kind (Resume k))
  | Fulfilled | Rejected => onSettled
  end.

Definition getPreloadDelay : M Z :=
  s <- get ;; ret (preloadDelay s).

(** The [isPrivate] expression shared by both permission checks. *)
Definition channelIsPrivate (channel : Channel) : M bool :=
  external (Channel_isPrivate channel) (isPrivate env channel).

Definition permissionCan (p : Permission) (channel : Channel) : M bool :=
  external (PermissionStore_can p channel) (can env p channel).

Definition canViewChannel (channelId : option string) : M bool :=
  match truthy channelId with
  | None => ret false
  | Some id =>
      channel <- external (ChannelStore_getChannel id) (getChannel env id) ;;
      match channel with
      | None => ret true (* not loaded yet: assume viewable *)
      | Some channel =>
          try_catch
            (private <- channelIsPrivate channel ;;
             if (private : bool) then ret true
             else permissionCan VIEW_CHANNEL channel)
            (ret false)
      end
  end.

Definition canJoinChannel (channelId : option string) : M bool :=
  match truthy channelId with
  | None => ret false
  | Some id =>
      channel <- external (ChannelStore_getChannel id) (getChannel env id) ;;
      match channel with
      | None => ret false (* not found in store *)
      | Some channel =>
          try_catch
            (private <- channelIsPrivate channel ;;
             if (private : bool) then ret true
             else
               canView <- permissionCan VIEW_CHANNEL channel ;;
               canConnect <- permissionCan CONNECT channel ;;
               ret (canView && canConnect))
            (ret false)
      end
  end.

Definition requestChannelSummaries (guildId : string) : M unit :=
  external (FluxDispatcher_dispatch guildId) (dispatch env guildId).

(** preloadGuildData, from the second inner [try] on: what runs once the
    awaited preload has settled (or was skipped). *)
Definition preloadGuildData_summaries (guildId : string) : M Promise :=
  attempt (requestChannelSummaries guildId) ;;;
  ret Fulfilled.

(** preloadGuildData up to its [await].  The outer [catch] only logs, so
    the promise is fulfilled on that path too. *)
Definition preloadGuildData (channelId : string) : M Promise :=
  try_catch
    (channel <- external (ChannelStore_getChannel channelId)
                  (getChannel env channelId) ;;
     match channel with
     | None =>
         guildIds <- external GuildStore_getGuildIds (getGuildIds env) ;;
         for_each guildIds (fun guildId =>
           attempt (requestChannelSummaries guildId)) ;;;
         ret Fulfilled
     | Some channel =>
         match truthy (guild_id channel) with
         | None => ret Fulfilled
         | Some guildId =>
             awaiting <-
               try_catch
                 (defaultChannel <-
                    external (GuildChannelStore_getDefaultChannel guildId)
                      (getDefaultChannel env guildId) ;;
                  match truthy defaultChannel with
                  | Some dc =>
                      if hasPreload env then
                        external (ChannelActionCreators_preload guildId dc)
                          (preload env guildId dc) ;;;
                        ret true
                      else ret false
                  | None => ret false
                  end)
                 (ret false) ;;
             if (awaiting : bool) then
               ret (Suspended Awaited
                      (PreloadGuildDataResume channelId guildId))
             else preloadGuildData_summaries guildId
         end
     end)
    (ret Fulfilled).

Definition stopSearching : M unit :=
  s <- get ;;
  match searchInterval s with
  | Some h => clearInterval h ;;; modify (set_searchInterval None)
  | None => ret tt
  end ;;;
  modify (set_isSearching false).

Definition checkUserInVoiceChannel (userId : string) : M (option string) :=
  currentChannelId <-
    external (VoiceStateStore_getVoiceStateForUser userId)
      (getVoiceStateForUser env userId) ;;
  ret (truthy currentChannelId).

Definition searchingMessage (uname : string) : string :=
  String.append "Searching for "
    (String.append uname " in voice channels...").

Definition followedMessage (uname : string) : string :=
  String.append "Successfully followed " (String.append uname "!").

Definition showToast (t : ToastType) (message : string) : M unit :=
  external (Toasts_show t message) (toast env t message).

(** joinVoiceChannel up to the end of the synchronous part of
    preloadGuildData.  When that promise is already settled, the [then]
    callback runs as a microtask right after the current handler and
    only arms the outer timer, so it is run in place: the timer is in
    the table, and has its handle, before whatever the rest of the
    handler arms, where the host arms it after.  The [catch] callback
    arms the same two stages; the two differ in log text. *)
Definition joinVoiceChannel (channelId : string) : M unit :=
  modify (set_lastFollowedChannelId (Some channelId)) ;;;
  p <- preloadGuildData channelId ;;
  settle p (ms <- getPreloadDelay ;; setTimeout ms (NavigateStage channelId)).

(** The callback of the outer setTimeout in joinVoiceChannel. *)
Definition navigateStage (channelId : string) : M unit :=
  canView <- canViewChannel (Some channelId) ;;
  (if (canView : bool) then
     attempt (external (ChannelRouter_transitionToChannel channelId)
                (transitionToChannel env channelId))
   else ret tt) ;;;
  setTimeout 100 (ConnectStage channelId).

(** The callback of the inner setTimeout in joinVoiceChannel. *)
Definition connectStage (channelId : string) : M unit :=
  canJoin <- canJoinChannel (Some channelId) ;;
  if (canJoin : bool) then
    external (ChannelActions_selectVoiceChannel (Some channelId))
      (selectVoiceChannel env (Some channelId))
  else ret tt.

(** preloadGuildData resumed after its [await], then the [then] callback
    of joinVoiceChannel.  A rejected preload is caught by the inner
    [catch], which only logs, so both outcomes continue alike. *)
Definition preloadGuildDataResume (channelId guildId : string) : M unit :=
  p <- try_catch (preloadGuildData_summaries guildId) (ret Fulfilled) ;;
  settle p (ms <- getPreloadDelay ;; setTimeout ms (NavigateStage channelId)).

(** The setInterval callback of startSearching. *)
Definition searchTick (userId uname : string) : M unit :=
  s <- get ;;
  match truthy (followedUserId s) with
  | None => stopSearching
  | Some followed =>
      if negb (String.eqb followed userId) then stopSearching
      else
        channelId <- checkUserInVoiceChannel userId ;;
        match channelId with
        | Some channelId =>
            s <- get ;;
            if negb (same channelId (lastFollowedChannelId s)) then
              stopSearching ;;;
              showToast SUCCESS (followedMessage uname) ;;;
              joinVoiceChannel channelId
            else ret tt
        | None => ret tt
        end
  end.

Definition startSearching (userId uname : string) : M unit :=
  stopSearching ;;;
  showToast MESSAGE (searchingMessage uname) ;;;
  modify (set_isSearching true) ;;;
  h <- setInterval 2000 (SearchTick userId uname) ;;
  modify (set_searchInterval (Some h)).

(** preloadMutualGuilds: the local fallback detection, one guild per
    iteration, pushing onto [mutualGuildIds]. *)
Fixpoint localDetection (userId : string) (allGuildIds : list string)
    (mutualGuildIds : list string) : M (list string) :=
  match allGuildIds with
  | [] => ret mutualGuildIds
  | guildId :: rest =>
      guild <- external (GuildStore_getGuild guildId) (getGuild env guildId) ;;
      if negb guild then localDetection userId rest mutualGuildIds
      else
        isMutual <-
          try_catch
            (external (GuildMemberStore_getMember guildId userId)
               (getMember env guildId userId))
            (ret false) ;;
        isMutual <-
          (if (isMutual : bool) then ret true
           else
             try_catch
               (external (VoiceStateStore_getVoiceStates guildId)
                  (getVoiceStates env guildId userId))
               (ret false)) ;;
        localDetection userId rest
          (if (isMutual : bool) then mutualGuildIds ++ [guildId]
           else mutualGuildIds)
  end.

(** preloadMutualGuilds: the final [for] loop, up to its next [await]. *)
Fixpoint mutualGuildsLoop (mutualGuildIds : list string) : M Promise :=
  match mutualGuildIds with
  | [] => ret Fulfilled
  | guildId :: rest =>
      s <- get ;;
      if bool_decide (guildId ∈ preloadedGuilds s) then mutualGuildsLoop rest
      else
        awaiting <-
          try_catch
            (defaultChannel <-
               external (GuildChannelStore_getDefaultChannel guildId)
                 (getDefaultChannel env guildId) ;;
             match truthy defaultChannel, hasPreload env with
             | Some dc, true =>
                 external (ChannelActionCreators_preload guildId dc)
                   (preload env guildId dc) ;;;
                 ret (Some dc)
             | _, _ =>
                 requestChannelSummaries guildId ;;;
                 ret None
             end)
            (ret None) ;;
        match awaiting with
        | Some dc =>
            ret (Suspended Awaited (MutualGuildsPreloaded guildId dc rest))
        | None => mutualGuildsLoop rest
        end
  end.

(** preloadMutualGuilds from the fallback test on.  The outer [catch] only
    logs. *)
Definition mutualGuildsContinue (userId : string)
    (mutualGuildIds : list string) : M Promise :=
  try_catch
    (mutualGuildIds <-
       match mutualGuildIds with
       | [] =>
           allGuildIds <- external GuildStore_getGuildIds (getGuildIds env) ;;
           localDetection userId allGuildIds []
       | _ => ret mutualGuildIds
       end ;;
     mutualGuildsLoop mutualGuildIds)
    (ret Fulfilled).

(** preloadMutualGuilds up to [await RestAPI.get(...)]. *)
Definition preloadMutualGuilds (userId : string) : M Promise :=
  requested <-
    try_catch
      (external (RestAPI_get userId) (restGet env userId) ;;; ret true)
      (ret false) ;;
  if (requested : bool) then ret (Suspended Awaited (MutualGuildsResponse userId))
  else mutualGuildsContinue userId [].

(** preloadMutualGuilds resumed once the profile request has settled. *)
Definition mutualGuildsResponse (userId : string) : M Promise :=
  mutualGuildsContinue userId
    match restResponse env userId with
    | Returns (Some mutual_guilds) => mutual_guilds
    | Returns None => []
    | Throws => []
    end.

(** preloadMutualGuilds resumed once a guild's preload has settled: on
    success the guild is marked and the 100 ms pause starts; a rejection
    goes to the [catch] of that iteration. *)
Definition mutualGuildsPreloaded (guildId defaultChannelId : string)
    (rest : list string) : M Promise :=
  match preloadSettles env guildId defaultChannelId with
  | Returns _ =>
      modify (fun s =>
        set_preloadedGuilds ({[guildId]} ∪ preloadedGuilds s) s) ;;;
      ret (Suspended (Timeout 100) (MutualGuildsPause guildId rest))
  | Throws => try_catch (mutualGuildsLoop rest) (ret Fulfilled)
  end.

(** preloadMutualGuilds resumed after the pause: the channel summaries of
    the guild just preloaded, then the rest of the loop. *)
Definition mutualGuildsPause (guildId : string) (rest : list string)
    : M Promise :=
  try_catch
    (attempt (requestChannelSummaries guildId) ;;;
     mutualGuildsLoop rest)
    (ret Fulfilled).

(** The [action] of the "Follow user" checkbox in the user context menu.
    The menu entry is only offered for a user other than the current one. *)
Definition followAction (user : User) : M unit :=
  (* Preload mutual guilds when starting to follow *)
  p <- try_catch (preloadMutualGuilds (user_id user)) (ret Rejected) ;;
  settle p (ret tt) ;;;
  (* Check if the user is already in a VC *)
  chanId <-
    external (VoiceStateStore_getVoiceStateForUser (user_id user))
      (getVoiceStateForUser env (user_id user)) ;;
  match truthy chanId with
  | Some chanId =>
      joinVoiceChannel chanId ;;;
      showToast SUCCESS (followedMessage (username user))
  | None => startSearching (user_id user) (username user)
  end.

Definition contextAction (user : User) : M unit :=
  s <- get ;;
  if same (user_id user) (followedUserId s) then
    modify (set_followedUserId None) ;;;
    modify (set_lastFollowedChannelId None)
  else
    modify (set_followedUserId (Some (user_id user))) ;;;
    modify (set_lastFollowedChannelId None) ;;;
    followAction user.

Definition updateSettings (newDisconnectFollow : option bool)
    (newPreloadDelay : option Z) (newEnableDebugLogs : option bool) : M unit :=
  modify (fun s =>
    set_settings
      (default (disconnectFollow s) newDisconnectFollow)
      (default (preloadDelay s) newPreloadDelay)
      (default (enableDebugLogs s) newEnableDebugLogs) s).

Definition start : M unit :=
  modify (set_followedUserId None) ;;;
  modify (set_lastFollowedChannelId None) ;;;
  modify (set_preloadedGuilds ∅) ;;;
  stopSearching.

Definition stop : M unit :=
  modify (set_followedUserId None) ;;;
  modify (set_lastFollowedChannelId None) ;;;
  modify (set_preloadedGuilds ∅) ;;;
  stopSearching.

(** The body of the [for] loop of flux.VOICE_STATE_UPDATES for an update
    of the followed user.  The result is [true] when the body executes
    [return], which leaves the handler. *)
Definition voiceStateUpdate (followed : string) (vs : VoiceState) : M bool :=
  match truthy (vs_channelId vs) with
  | Some newChannelId =>
      s <- get ;;
      if negb (same newChannelId (lastFollowedChannelId s)) then
        (* Stop searching since we found them *)
        stopSearching ;;;
        joinVoiceChannel newChannelId ;;;
        uname <- external (UserStore_getUser followed) (getUser env followed) ;;
        showToast SUCCESS
          (followedMessage (default "user" (truthy uname))) ;;;
        ret false
      else ret false
  | None =>
      (* User left VC, start searching for them *)
      uname <- external (UserStore_getUser followed) (getUser env followed) ;;
      startSearching followed (default "user" (truthy uname)) ;;;
      s <- get ;;
      if negb (disconnectFollow s) then ret true
      else
        myChanId <-
          external SelectedChannelStore_getVoiceChannelId
            (getVoiceChannelId env) ;;
        s <- get ;;
        match truthy myChanId with
        | Some myChanId =>
            if same myChanId (lastFollowedChannelId s) then
              external (ChannelActions_selectVoiceChannel None)
                (selectVoiceChannel env None) ;;;
              modify (set_lastFollowedChannelId None) ;;;
              ret false
            else ret false
        | None => ret false
        end
  end.

Fixpoint voiceStateUpdatesLoop (updates : list VoiceState) : M unit :=
  match updates with
  | [] => ret tt
  | vs :: rest =>
      s <- get ;;
      match followedUserId s, vs_userId vs with
      | Some followed, Some userId =>
          if String.eqb userId followed then
            returned <- voiceStateUpdate followed vs ;;
            if (returned : bool) then ret tt else voiceStateUpdatesLoop rest
          else voiceStateUpdatesLoop rest
      | _, _ => voiceStateUpdatesLoop rest
      end
  end.

(** flux.VOICE_STATE_UPDATES.  [updates] is
    [payload?.voiceStates ?? payload?.voice_states ?? []]; a payload whose
    field is not an array returns at once, like the empty batch. *)
Definition VOICE_STATE_UPDATES (updates : list VoiceState) : M unit :=
  s <- get ;;
  match truthy (followedUserId s) with
  | None => ret tt
  | Some _ => voiceStateUpdatesLoop updates
  end.

(** ** The host: running pending work *)

Definition resume (k : Continuation) : M unit :=
  match k with
  | PreloadGuildDataResume channelId guildId =>
      preloadGuildDataResume channelId guildId
  | MutualGuildsResponse userId =>
      p <- mutualGuildsResponse userId ;; settle p (ret tt)
  | MutualGuildsPreloaded guildId dc rest =>
      p <- mutualGuildsPreloaded guildId dc rest ;; settle p (ret tt)
  | MutualGuildsPause guildId rest =>
      p <- mutualGuildsPause guildId rest ;; settle p (ret tt)
  end.

Definition runTask (t : Task) : M unit :=
  match t with
  | Resume k => resume k
  | NavigateStage channelId => navigateStage channelId
  | ConnectStage channelId => connectStage channelId
  | SearchTick userId uname => searchTick userId uname
  end.

Definition is_interval (t : Timer) : bool :=
  match timer_kind t with Interval _ => true | _ => false end.

(** Fires the pending entry with the given id, if there is one.  A
    timeout or a continuation runs once; an interval stays armed until
    it is cleared. *)
Definition fire (id : nat) : M unit :=
  s <- get ;;
  match find (fun t => Nat.eqb (timer_id t) id) (timers s) with
  | None => ret tt
  | Some t =>
      (if is_interval t then ret tt else modify (removeTimer id)) ;;;
      runTask (timer_task t)
  end.

Inductive Input :=
| Start
| Stop
| UpdateSettings (newDisconnectFollow : option bool)
    (newPreloadDelay : option Z) (newEnableDebugLogs : option bool)
| ContextAction (user : User)
| VoiceStateUpdates (updates : list VoiceState)
| Fire (id : nat).

Definition step (i : Input) : M unit :=
  match i with
  | Start => start
  | Stop => stop
  | UpdateSettings d p e => updateSettings d p e
  | ContextAction user => contextAction user
  | VoiceStateUpdates updates => VOICE_STATE_UPDATES updates
  | Fire id => fire id
  end.

End Controller.

(** A run: each input comes with the collaborators' behaviour during it.
    An exception that escapes a handler ends that handler only. *)
Fixpoint run (inputs : list (Env * Input)) (s : State) : State :=
  match inputs with
  | [] => s
  | (env, i) :: rest => run rest (after (step env i s))
  end.

Inductive reachable : State -> Prop :=
| reachable_initial : reachable initial
| reachable_step s env i :
    reachable s -> reachable (after (step env i s)).

(** ** Reasoning about [M]

    Three compositional predicates cover the code:
    - [oblivious m]: [m] neither reads nor writes the plugin variables;
      it only makes collaborator calls, the same ones in every state;
    - [within R m]: every run of [m] relates its start and end state by
      the preorder [R], also when an exception escapes;
    - [safe m]: no exception escapes [m]. *)

(** [records calls s] extends the trace by [calls] (newest first). *)
Definition records (calls : list Call) (s : State) : State :=
  foldr record s calls.

(** The calls made between state [s] and a later state [s']. *)
Definition since (s s' : State) : list Call :=
  take (length (trace s') - length (trace s)) (trace s').

Definition finish {A} (o : option A) (s : State) : Res A :=
  match o with
  | Some a => Ok a s
  | None => Exn s
  end.

Definition oblivious {A} (m : M A) : Prop :=
  ∃ calls o, ∀ s, m s = finish o (records calls s).

Definition within (R : relation State) {A} (m : M A) : Prop :=
  ∀ s, R s (after (m s)).

Definition safe {A} (m : M A) : Prop :=
  ∀ s, escapes (m s) = false.

Definition returns {A} (r : Attempt A) : Prop :=
  match r with
  | Returns _ => True
  | Throws => False
  end.

Lemma trace_records calls s : trace (records calls s) = calls ++ trace s.
Proof. induction calls as [|c calls IH]; simpl; [done | by rewrite IH]. Qed.

Lemma records_app c1 c2 s : records (c1 ++ c2) s = records c1 (records c2 s).
Proof. unfold records. by rewrite foldr_app. Qed.

Lemma since_records calls s : since s (records calls s) = calls.
Proof.
  unfold since. rewrite trace_records, length_app.
  replace (length calls + length (trace s) - length (trace s))%nat
    with (length calls) by lia.
  by rewrite take_app_length.
Qed.

Lemma since_extend calls s s' :
  trace s' = calls ++ trace s -> since s s' = calls.
Proof.
  intros H. unfold since. rewrite H, length_app.
  replace (length calls + length (trace s) - length (trace s))%nat
    with (length calls) by lia.
  by rewrite take_app_length.
Qed.

Section Oblivious.

Context {A B : Type}.

Lemma oblivious_ret (a : A) : oblivious (ret a).
Proof. exists [], (Some a). done. Qed.

Lemma oblivious_external (c : Call) (r : Attempt A) : oblivious (external c r).
Proof.
  destruct r as [a|].
  - exists [c], (Some a). done.
  - exists [c], None. done.
Qed.

Lemma oblivious_bind (m : M A) (k : A -> M B) :
  oblivious m -> (∀ a, oblivious (k a)) -> oblivious (bind m k).
Proof.
  intros (c1 & [a|] & Hm) Hk.
  - destruct (Hk a) as (c2 & o2 & Hka).
    exists (c2 ++ c1), o2. intros s. unfold bind.
    rewrite Hm. simpl. rewrite Hka. by rewrite records_app.
  - exists c1, None. intros s. unfold bind. by rewrite Hm.
Qed.

Lemma oblivious_try_catch (body handler : M A) :
  oblivious body -> oblivious handler -> oblivious (try_catch body handler).
Proof.
  intros (c1 & [a|] & Hm) (c2 & o2 & Hh).
  - exists c1, (Some a). intros s. unfold try_catch. by rewrite Hm.
  - exists (c2 ++ c1), o2. intros s. unfold try_catch.
    rewrite Hm. simpl. rewrite Hh. by rewrite records_app.
Qed.

End Oblivious.

Lemma oblivious_for_each {A} (xs : list A) (body : A -> M unit) :
  (∀ x, oblivious (body x)) -> oblivious (for_each xs body).
Proof.
  intros Hbody. induction xs as [|x xs IH]; simpl.
  - apply oblivious_ret.
  - apply oblivious_bind; [apply Hbody | intros _; apply IH].
Qed.

Section Within.

Context (R : relation State) `{!PreOrder R}.

Lemma within_ret {A} (a : A) : within R (ret a).
Proof. intros s. simpl. reflexivity. Qed.

Lemma within_get : within R get.
Proof. intros s. simpl. reflexivity. Qed.

Lemma within_bind {A B} (m : M A) (k : A -> M B) :
  within R m -> (∀ a, within R (k a)) -> within R (bind m k).
Proof.
  intros Hm Hk s. unfold bind. specialize (Hm s).
  destruct (m s) as [a s'|s']; simpl in *; [|done].
  etransitivity; [exact Hm | apply Hk].
Qed.

Lemma within_try_catch {A} (body handler : M A) :
  within R body -> within R handler -> within R (try_catch body handler).
Proof.
  intros Hm Hh s. unfold try_catch. specialize (Hm s).
  destruct (body s) as [a s'|s']; simpl in *; [done|].
  etransitivity; [exact Hm | apply Hh].
Qed.

Lemma within_modify (f : State -> State) :
  (∀ s, R s (f s)) -> within R (modify f).
Proof. intros Hf s. apply Hf. Qed.

Lemma within_oblivious {A} (m : M A) :
  (∀ c s, R s (record c s)) -> oblivious m -> within R m.
Proof.
  intros Hrec (calls & o & Hm) s. rewrite Hm.
  assert (R s (records calls s)) as H.
  { clear Hm. induction calls as [|c calls IH]; simpl; [reflexivity|].
    etransitivity; [exact IH | apply Hrec]. }
  by destruct o.
Qed.

Lemma within_for_each {A} (xs : list A) (body : A -> M unit) :
  (∀ x, within R (body x)) -> within R (for_each xs body).
Proof.
  intros Hbody. induction xs as [|x xs IH]; simpl.
  - apply within_ret.
  - apply within_bind; [apply Hbody | intros _; apply IH].
Qed.

End Within.

Section Safe.

Context {A B : Type}.

Lemma safe_ret (a : A) : safe (ret a).
Proof. done. Qed.

Lemma safe_get : safe get.
Proof. done. Qed.

Lemma safe_modify f : safe (modify f).
Proof. done. Qed.

Lemma safe_external (c : Call) (r : Attempt A) :
  returns r -> safe (external c r).
Proof. intros Hr s. unfold external. by destruct r. Qed.

Lemma safe_bind (m : M A) (k : A -> M B) :
  safe m -> (∀ a, safe (k a)) -> safe (bind m k).
Proof.
  intros Hm Hk s. unfold bind. specialize (Hm s).
  destruct (m s) as [a s'|s']; simpl in *; [apply Hk | done].
Qed.

Lemma safe_try_catch (body handler : M A) :
  safe handler -> safe (try_catch body handler).
Proof.
  intros Hh s. unfold try_catch.
  destruct (body s) as [a s'|s']; simpl; [done | apply Hh].
Qed.

End Safe.

Lemma safe_for_each {A} (xs : list A) (body : A -> M unit) :
  (∀ x, safe (body x)) -> safe (for_each xs body).
Proof.
  intros Hbody. induction xs as [|x xs IH]; simpl.
  - apply safe_ret.
  - apply safe_bind; [apply Hbody | intros _; apply IH].
Qed.

(** One step of the syntax-directed proofs below: split a bind, a
    try/catch or a loop, or case on the scrutinee of a branch. *)
Ltac branch :=
  match goal with
  | |- context [match ?e with _ => _ end] =>
      first [is_var e; destruct e | destruct e eqn:?]
  end.

Ltac oblivious_step :=
  first
    [ apply oblivious_ret
    | apply oblivious_external
    | apply oblivious_bind; [|intros ?]
    | apply oblivious_try_catch
    | apply oblivious_for_each; intros ?
    | progress unfold attempt ].

Ltac oblivious_auto :=
  repeat first [oblivious_step | assumption | branch].

(** ** The functions that only talk to the collaborators *)

Section ObliviousFunctions.

Variable env : Env.

Lemma oblivious_canViewChannel channelId :
  oblivious (canViewChannel env channelId).
Proof. unfold canViewChannel, channelIsPrivate, permissionCan. oblivious_auto. Qed.

Lemma oblivious_canJoinChannel channelId :
  oblivious (canJoinChannel env channelId).
Proof. unfold canJoinChannel, channelIsPrivate, permissionCan. oblivious_auto. Qed.

Lemma oblivious_requestChannelSummaries guildId :
  oblivious (requestChannelSummaries env guildId).
Proof. unfold requestChannelSummaries. oblivious_auto. Qed.

Lemma oblivious_preloadGuildData_summaries guildId :
  oblivious (preloadGuildData_summaries env guildId).
Proof.
  unfold preloadGuildData_summaries, requestChannelSummaries. oblivious_auto.
Qed.

Lemma oblivious_preloadGuildData channelId :
  oblivious (preloadGuildData env channelId).
Proof.
  unfold preloadGuildData, preloadGuildData_summaries, requestChannelSummaries.
  oblivious_auto.
Qed.

Lemma oblivious_checkUserInVoiceChannel userId :
  oblivious (checkUserInVoiceChannel env userId).
Proof. unfold checkUserInVoiceChannel. oblivious_auto. Qed.

Lemma oblivious_showToast t message : oblivious (showToast env t message).
Proof. unfold showToast. oblivious_auto. Qed.

Lemma oblivious_localDetection userId allGuildIds mutualGuildIds :
  oblivious (localDetection env userId allGuildIds mutualGuildIds).
Proof.
  revert mutualGuildIds.
  induction allGuildIds as [|guildId rest IH]; intros mutualGuildIds; simpl.
  - apply oblivious_ret.
  - oblivious_auto; apply IH.
Qed.

End ObliviousFunctions.

Create HintDb oblivious.
#[export] Hint Resolve oblivious_canViewChannel oblivious_canJoinChannel
  oblivious_requestChannelSummaries oblivious_preloadGuildData_summaries
  oblivious_preloadGuildData oblivious_checkUserInVoiceChannel
  oblivious_showToast oblivious_localDetection : oblivious.
#[export] Hint Resolve oblivious_external : oblivious.

(** ** The search loop, in closed form *)

Definition is_searchTick (t : Task) : bool :=
  match t with
  | SearchTick _ _ => true
  | _ => false
  end.

(** The state stopSearching leaves. *)
Definition stopped (s : State) : State :=
  set_isSearching false
    match searchInterval s with
    | Some h => set_searchInterval None (removeTimer h s)
    | None => s
    end.

(** The state the tail of startSearching leaves, from the toast on. *)
Definition searching (userId uname : string) (s : State) : State :=
  set_searchInterval (Some (nextTimerId s))
    (add_timer (Interval 2000) (SearchTick userId uname)
       (set_isSearching true s)).

Lemma stopSearching_eq s : stopSearching s = Ok tt (stopped s).
Proof.
  unfold stopSearching, stopped, bind, get, clearInterval, modify, ret.
  by destruct (searchInterval s).
Qed.

Lemma startSearching_eq env userId uname s :
  startSearching env userId uname s =
  let s1 := record (Toasts_show MESSAGE (searchingMessage uname)) (stopped s) in
  match toast env MESSAGE (searchingMessage uname) with
  | Returns _ => Ok tt (searching userId uname s1)
  | Throws => Exn s1
  end.
Proof.
  unfold startSearching, bind. rewrite stopSearching_eq.
  unfold showToast, external.
  by destruct (toast env MESSAGE (searchingMessage uname)).
Qed.

(** ** Frames: what the handlers leave alone

    For a preorder [R] closed under the elementary state changes listed
    as hypotheses, every function built from those changes runs within
    [R]. *)

Ltac within_step :=
  lazymatch goal with
  | |- within ?R _ =>
      first
        [ apply (within_ret R)
        | apply (within_get R)
        | apply (within_modify R); solve [auto with frame]
        | apply (within_oblivious R);
            [solve [auto with frame] | solve [eauto with oblivious]]
        | solve [eauto 2 with within]
        | apply (within_bind R); [|intros ?]
        | apply (within_try_catch R)
        | apply (within_for_each R); intros ? ]
  end.

Ltac within_auto := repeat first [within_step | branch].

Create HintDb within.
Create HintDb frame.

Section Frames.

Variable env : Env.
Context (R : relation State) `{!PreOrder R}.

Hypothesis Hrecord : ∀ c s, R s (record c s).
Hypothesis Htimer :
  ∀ kind t s, is_searchTick t = false -> R s (add_timer kind t s).
Hypothesis Hchannel : ∀ v s, R s (set_lastFollowedChannelId v s).
Hypothesis Hcache : ∀ v s, R s (set_preloadedGuilds v s).
Hypothesis Hstopped : ∀ s, R s (stopped s).
Hypothesis Hstart : ∀ userId uname, within R (startSearching env userId uname).

Lemma within_settle p (onSettled : M unit) :
  within R onSettled -> within R (settle p onSettled).
Proof. intros H. unfold settle. within_auto. Qed.

Lemma within_armNavigate channelId :
  within R (ms <- getPreloadDelay ;; setTimeout ms (NavigateStage channelId)).
Proof. unfold getPreloadDelay, setTimeout. within_auto. Qed.

(** joinVoiceChannel after it has recorded the channel. *)
Lemma within_joinVoiceChannel_stages channelId :
  within R
    (p <- preloadGuildData env channelId ;;
     settle p (ms <- getPreloadDelay ;; setTimeout ms (NavigateStage channelId))).
Proof. within_auto. apply within_settle. apply within_armNavigate. Qed.

Lemma within_joinVoiceChannel channelId :
  within R (joinVoiceChannel env channelId).
Proof.
  unfold joinVoiceChannel.
  apply (within_bind R); [within_auto|].
  intros _. apply within_joinVoiceChannel_stages.
Qed.

Lemma within_navigateStage channelId : within R (navigateStage env channelId).
Proof. unfold navigateStage, attempt, setTimeout. within_auto. Qed.

Lemma within_connectStage channelId : within R (connectStage env channelId).
Proof. unfold connectStage. within_auto. Qed.

Lemma within_preloadGuildDataResume channelId guildId :
  within R (preloadGuildDataResume env channelId guildId).
Proof.
  unfold preloadGuildDataResume. within_auto.
  apply within_settle. apply within_armNavigate.
Qed.

Lemma within_stopSearching : within R stopSearching.
Proof. intros s. rewrite stopSearching_eq. apply Hstopped. Qed.

Local Hint Resolve within_joinVoiceChannel within_stopSearching : within.

Lemma within_searchTick userId uname : within R (searchTick env userId uname).
Proof. unfold searchTick. within_auto. Qed.

Lemma within_mutualGuildsLoop mutualGuildIds :
  within R (mutualGuildsLoop env mutualGuildIds).
Proof.
  induction mutualGuildIds as [|guildId rest IH]; simpl; within_auto.
Qed.

Local Hint Resolve within_mutualGuildsLoop : within.

Lemma within_mutualGuildsContinue userId mutualGuildIds :
  within R (mutualGuildsContinue env userId mutualGuildIds).
Proof. unfold mutualGuildsContinue. within_auto. Qed.

Local Hint Resolve within_mutualGuildsContinue : within.

Lemma within_preloadMutualGuilds userId :
  within R (preloadMutualGuilds env userId).
Proof. unfold preloadMutualGuilds. within_auto. Qed.

Lemma within_mutualGuildsResponse userId :
  within R (mutualGuildsResponse env userId).
Proof. unfold mutualGuildsResponse. within_auto. Qed.

Lemma within_mutualGuildsPreloaded guildId dc rest :
  within R (mutualGuildsPreloaded env guildId dc rest).
Proof. unfold mutualGuildsPreloaded. within_auto. Qed.

Lemma within_mutualGuildsPause guildId rest :
  within R (mutualGuildsPause env guildId rest).
Proof. unfold mutualGuildsPause, attempt. within_auto. Qed.

Local Hint Resolve within_preloadMutualGuilds within_mutualGuildsResponse
  within_mutualGuildsPreloaded within_mutualGuildsPause
  within_preloadGuildDataResume within_navigateStage within_connectStage
  within_searchTick : within.

Lemma within_resume k : within R (resume env k).
Proof.
  destruct k; simpl; within_auto; apply within_settle; within_auto.
Qed.

Lemma within_runTask t : within R (runTask env t).
Proof. destruct t; simpl; auto using within_resume with within. Qed.

Lemma within_followAction user : within R (followAction env user).
Proof.
  unfold followAction. within_auto; try apply within_settle; within_auto.
Qed.

Lemma within_voiceStateUpdate followed vs :
  within R (voiceStateUpdate env followed vs).
Proof. unfold voiceStateUpdate. within_auto. Qed.

Local Hint Resolve within_voiceStateUpdate : within.

Lemma within_voiceStateUpdatesLoop updates :
  within R (voiceStateUpdatesLoop env updates).
Proof. induction updates as [|vs rest IH]; simpl; within_auto. Qed.

Lemma within_VOICE_STATE_UPDATES updates :
  within R (VOICE_STATE_UPDATES env updates).
Proof.
  unfold VOICE_STATE_UPDATES. within_auto. apply within_voiceStateUpdatesLoop.
Qed.

Hypothesis Htarget : ∀ v s, R s (set_followedUserId v s).
Hypothesis Hsettings : ∀ d p e s, R s (set_settings d p e s).
Hypothesis Hfired :
  ∀ id t s,
    find (fun t => Nat.eqb (timer_id t) id) (timers s) = Some t ->
    is_interval t = false ->
    R s (removeTimer id s).

Local Hint Resolve within_followAction : within.

Lemma within_contextAction user : within R (contextAction env user).
Proof. unfold contextAction. within_auto. Qed.

Lemma within_start : within R start.
Proof. unfold start. within_auto. Qed.

Lemma within_stop : within R stop.
Proof. unfold stop. within_auto. Qed.

Lemma within_updateSettings d p e : within R (updateSettings d p e).
Proof. unfold updateSettings. within_auto. Qed.

Lemma within_fire id : within R (fire env id).
Proof.
  intros s. unfold fire, bind, get.
  destruct (find _ (timers s)) as [t|] eqn:Hfind; [|simpl; reflexivity].
  destruct (is_interval t) eqn:Hkind; simpl.
  - apply within_runTask.
  - etransitivity; [eapply Hfired; eassumption | apply within_runTask].
Qed.

Lemma within_step i : within R (step env i).
Proof.
  destruct i; simpl;
    auto using within_start, within_stop, within_updateSettings,
      within_contextAction, within_VOICE_STATE_UPDATES, within_fire.
Qed.

End Frames.

(** ** Well-formed timer tables

    The search loop owns exactly the interval whose handle is in
    [searchInterval]; every other pending entry is a one-shot. *)

Definition wf (s : State) : Prop :=
  NoDup (timer_id <$> timers s) ∧
  (∀ t, t ∈ timers s -> (timer_id t < nextTimerId s)%nat) ∧
  (∀ t, t ∈ timers s ->
     is_searchTick (timer_task t) = true <->
     searchInterval s = Some (timer_id t)) ∧
  (∀ t, t ∈ timers s ->
     is_searchTick (timer_task t) = true -> is_interval t = true) ∧
  (∀ h, searchInterval s = Some h -> ∃ t, t ∈ timers s ∧ timer_id t = h) ∧
  (isSearching s = true <-> searchInterval s ≠ None).

Definition keeps (I : State -> Prop) : relation State :=
  fun s s' => I s -> I s'.

#[export] Instance keeps_preorder I : PreOrder (keeps I).
Proof. split; unfold keeps; [intros s; auto | intros s1 s2 s3; auto]. Qed.

Ltac wf_split := split; [|split; [|split; [|split; [|split]]]].

Lemma wf_initial : wf initial.
Proof.
  unfold wf, initial; simpl. wf_split; try done.
  - constructor.
  - intros t Ht; by apply elem_of_nil in Ht.
  - intros t Ht; by apply elem_of_nil in Ht.
  - intros t Ht; by apply elem_of_nil in Ht.
Qed.

Lemma wf_record c s : wf s -> wf (record c s).
Proof. done. Qed.

Lemma wf_set_lastFollowedChannelId v s :
  wf s -> wf (set_lastFollowedChannelId v s).
Proof. done. Qed.

Lemma wf_set_followedUserId v s : wf s -> wf (set_followedUserId v s).
Proof. done. Qed.

Lemma wf_set_preloadedGuilds v s : wf s -> wf (set_preloadedGuilds v s).
Proof. done. Qed.

Lemma wf_set_settings d p e s : wf s -> wf (set_settings d p e s).
Proof. done. Qed.

Lemma fresh_timer_id (ts : list Timer) (n : nat) :
  (∀ t, t ∈ ts -> (timer_id t < n)%nat) -> n ∉ timer_id <$> ts.
Proof.
  intros Hlt (t & -> & Hin)%list_elem_of_fmap. specialize (Hlt _ Hin). lia.
Qed.

Lemma NoDup_removeTimer (ts : list Timer) (h : nat) :
  NoDup (timer_id <$> ts) ->
  NoDup (timer_id <$> filter (fun t => timer_id t ≠ h) ts).
Proof.
  intros Hnd. eapply sublist_NoDup; [exact Hnd|].
  apply fmap_sublist. apply sublist_filter.
Qed.

Lemma wf_add_timer kind t s :
  is_searchTick t = false -> wf s -> wf (add_timer kind t s).
Proof.
  intros Ht (Hnd & Hlt & Htick & Hint & Hex & Hflag).
  unfold wf; simpl. wf_split.
  - apply NoDup_cons. split; [|done]. by apply fresh_timer_id.
  - intros t' [->|Hin]%elem_of_cons; simpl; [lia|].
    specialize (Hlt _ Hin). lia.
  - intros t' [->|Hin]%elem_of_cons; simpl; [|by apply Htick].
    split; [congruence|]. intros Hs.
    destruct (Hex _ Hs) as (t' & Hin' & Hid).
    specialize (Hlt _ Hin'). lia.
  - intros t' [->|Hin]%elem_of_cons; simpl; [congruence|]. by apply Hint.
  - intros h Hh. destruct (Hex _ Hh) as (t' & Hin & Hid).
    exists t'. split; [|done]. apply elem_of_cons. by right.
  - done.
Qed.

Lemma wf_stopped s : wf s -> wf (stopped s).
Proof.
  intros (Hnd & Hlt & Htick & Hint & Hex & Hflag).
  unfold wf, stopped. destruct (searchInterval s) as [h|] eqn:Hh; simpl.
  - wf_split; try done.
    + by apply NoDup_removeTimer.
    + intros t [_ Hin]%list_elem_of_filter. by apply Hlt.
    + intros t [Hne Hin]%list_elem_of_filter. split; [|done].
      intros Ht. apply Htick in Ht; [|done]. congruence.
    + intros t [_ Hin]%list_elem_of_filter. by apply Hint.
  - rewrite Hh. wf_split; try done.
Qed.

Lemma wf_searching userId uname s :
  wf s -> searchInterval s = None -> wf (searching userId uname s).
Proof.
  intros (Hnd & Hlt & Htick & Hint & Hex & Hflag) Hnone.
  unfold wf, searching; simpl. wf_split; try done.
  - apply NoDup_cons. split; [|done]. by apply fresh_timer_id.
  - intros t [->|Hin]%elem_of_cons; simpl; [lia|].
    specialize (Hlt _ Hin). lia.
  - intros t [->|Hin]%elem_of_cons; simpl; [done|]. split.
    + intros Ht. apply Htick in Ht; [|done]. congruence.
    + intros [= Ht]. specialize (Hlt _ Hin). lia.
  - intros t [->|Hin]%elem_of_cons; simpl; [done|]. by apply Hint.
  - intros h [= <-].
    exists (mkTimer (nextTimerId s) (Interval 2000) (SearchTick userId uname)).
    split; [apply list_elem_of_here | reflexivity].
Qed.

Lemma searchInterval_stopped s : searchInterval (stopped s) = None.
Proof. unfold stopped. by destruct (searchInterval s) eqn:H. Qed.

Lemma wf_fired id t s :
  find (fun t => Nat.eqb (timer_id t) id) (timers s) = Some t ->
  is_interval t = false ->
  wf s -> wf (removeTimer id s).
Proof.
  intros Hfind Hkind (Hnd & Hlt & Htick & Hint & Hex & Hflag).
  apply find_some in Hfind as [Hin Hid%Nat.eqb_eq].
  apply list_elem_of_In in Hin.
  assert (searchInterval s ≠ Some id) as Hne.
  { intros Hs. subst id. apply Htick in Hs; [|done].
    apply Hint in Hs; [|done]. congruence. }
  unfold wf, removeTimer; simpl. wf_split; try done.
  - by apply NoDup_removeTimer.
  - intros t' [_ Hin']%list_elem_of_filter. by apply Hlt.
  - intros t' [_ Hin']%list_elem_of_filter. by apply Htick.
  - intros t' [_ Hin']%list_elem_of_filter. by apply Hint.
  - intros h Hh. destruct (Hex _ Hh) as (t' & Hin' & Hid').
    exists t'. split; [|done]. apply list_elem_of_filter. split; [|done].
    congruence.
Qed.

(** With distinct ids, firing by id runs the entry itself. *)
Lemma find_timer (ts : list Timer) (t : Timer) :
  NoDup (timer_id <$> ts) -> t ∈ ts ->
  find (fun t' => Nat.eqb (timer_id t') (timer_id t)) ts = Some t.
Proof.
  induction ts as [|t0 ts IH]; intros Hnd Hin.
  - by apply elem_of_nil in Hin.
  - rewrite fmap_cons in Hnd. apply NoDup_cons in Hnd as [Hfresh Hnd].
    simpl. apply elem_of_cons in Hin as [->|Hin].
    + by rewrite Nat.eqb_refl.
    + destruct (Nat.eqb_spec (timer_id t0) (timer_id t)) as [Heq|Hne].
      * exfalso. apply Hfresh. rewrite Heq. by apply list_elem_of_fmap_2.
      * by apply IH.
Qed.

Lemma wf_startSearching env userId uname :
  within (keeps wf) (startSearching env userId uname).
Proof.
  intros s Hwf. rewrite startSearching_eq. simpl.
  pose proof (wf_stopped _ Hwf) as Hst.
  destruct (toast env MESSAGE (searchingMessage uname)); simpl.
  - apply wf_searching; [by apply wf_record|]. apply searchInterval_stopped.
  - by apply wf_record.
Qed.

Lemma wf_step env i : within (keeps wf) (step env i).
Proof.
  apply within_step; try apply _; unfold keeps.
  - auto using wf_record.
  - auto using wf_add_timer.
  - auto using wf_set_lastFollowedChannelId.
  - auto using wf_set_preloadedGuilds.
  - auto using wf_stopped.
  - apply wf_startSearching.
  - auto using wf_set_followedUserId.
  - auto using wf_set_settings.
  - eauto using wf_fired.
Qed.

Lemma reachable_wf s : reachable s -> wf s.
Proof.
  induction 1 as [|s env i _ IH]; [apply wf_initial|].
  by apply wf_step.
Qed.

(** ** Sample collaborators, used to run the code on concrete inputs *)

(** Nothing throws.  [voice] is the voice channel of each user, [chan]
    the channel store; no channel is private and both permissions are
    granted; the local user is in [mine]. *)
Definition calmEnv (voice : string -> option string)
    (chan : string -> option Channel) (mine : option string) : Env :=
  {| getChannel := fun id => Returns (chan id);
     isPrivate := fun _ => Returns false;
     can := fun _ _ => Returns true;
     getGuildIds := Returns ["g1"; "g2"];
     getGuild := fun _ => Returns true;
     getMember := fun _ _ => Returns true;
     getVoiceStates := fun _ _ => Returns false;
     getVoiceStateForUser := fun u => Returns (voice u);
     getDefaultChannel := fun g => Returns (Some (String.append g "-general"));
     getVoiceChannelId := Returns mine;
     getUser := fun u => Returns (Some (String.append "user-" u));
     hasPreload := true;
     preload := fun _ _ => Returns tt;
     preloadSettles := fun _ _ => Returns tt;
     dispatch := fun _ => Returns tt;
     transitionToChannel := fun _ => Returns tt;
     selectVoiceChannel := fun _ => Returns tt;
     toast := fun _ _ => Returns tt;
     restGet := fun _ => Returns tt;
     restResponse := fun _ => Returns (Some ["g1"]) |}.

(** Nobody is in voice and no channel record is loaded. *)
Definition emptyEnv : Env := calmEnv (fun _ => None) (fun _ => None) None.

(** Every channel is loaded and belongs to guild g1; the user "A" sits in
    [c]. *)
Definition inChannelEnv (c : string) : Env :=
  calmEnv (fun u => if String.eqb u "A" then Some c else None)
    (fun id => Some (mkChannel id (Some "g1"))) None.

Definition alice : User := mkUser "A" "alice".
Definition bob : User := mkUser "B" "bob".

Lemma truthy_Some (x : string) : x ≠ "" -> truthy (Some x) = Some x.
Proof.
  intros Hx. unfold truthy. destruct (String.eqb_spec x ""); [done | done].
Qed.

Lemma truthy_Some_inv o (x : string) : truthy o = Some x -> o = Some x.
Proof.
  unfold truthy. destruct o as [y|]; [|done].
  by destruct (String.eqb y "").
Qed.

Lemma same_true a o : same a o = true <-> o = Some a.
Proof.
  unfold same. destruct o as [b|]; [|done].
  destruct (String.eqb_spec a b); split; congruence.
Qed.

(** Rewrites [since s s'] to the calls that [s'] added to the trace. *)
Ltac prefix_of l tl :=
  lazymatch l with
  | tl => constr:(@nil Call)
  | ?c :: ?l' => let r := prefix_of l' tl in constr:(c :: r)
  end.

Ltac since_simpl :=
  repeat match goal with
  | |- context [since ?s ?s'] =>
      let t := eval simpl in (trace s') in
      let t0 := eval simpl in (trace s) in
      let p := prefix_of t t0 in
      rewrite (since_extend p s s' eq_refl)
  end.

(** ** C4: the two permission checks *)

(** C4.  When the channel record is not loaded, canViewChannel answers
    true and the navigate stage switches the view, while canJoinChannel
    answers false and the connect stage makes no voice-connect call; and
    whenever the connect stage does call selectVoiceChannel, the channel
    record was loaded and either the channel is private or both the view
    and the connect permission were confirmed. *)
Theorem C4_view_optimistic_connect_conservative env channelId s :
  channelId ≠ "" ->
  (getChannel env channelId = Returns None ->
     canViewChannel env (Some channelId) s
       = Ok true (record (ChannelStore_getChannel channelId) s) ∧
     canJoinChannel env (Some channelId) s
       = Ok false (record (ChannelStore_getChannel channelId) s) ∧
     since s (after (navigateStage env channelId s))
       = [ChannelRouter_transitionToChannel channelId;
          ChannelStore_getChannel channelId] ∧
     since s (after (connectStage env channelId s))
       = [ChannelStore_getChannel channelId]) ∧
  (∀ x, ChannelActions_selectVoiceChannel x
          ∈ since s (after (connectStage env channelId s)) ->
     ∃ channel,
       getChannel env channelId = Returns (Some channel) ∧
       (isPrivate env channel = Returns true ∨
        (isPrivate env channel = Returns false ∧
         can env VIEW_CHANNEL channel = Returns true ∧
         can env CONNECT channel = Returns true))).
Proof.
  intros Hid. split.
  - intros Hnone.
    unfold navigateStage, connectStage, canViewChannel, canJoinChannel.
    rewrite (truthy_Some _ Hid).
    unfold bind, external, attempt, try_catch, setTimeout, modify, ret.
    rewrite Hnone.
    destruct (transitionToChannel env channelId); simpl;
      repeat split; by since_simpl.
  - intros x.
    unfold connectStage, canJoinChannel, channelIsPrivate, permissionCan.
    rewrite (truthy_Some _ Hid).
    unfold bind, external, try_catch, ret.
    destruct (getChannel env channelId) as [[channel|]|] eqn:Hch; simpl.
    + destruct (isPrivate env channel) as [[]|] eqn:Hp; simpl.
      * intros _. eauto.
      * destruct (can env VIEW_CHANNEL channel) as [[]|] eqn:Hv;
          destruct (can env CONNECT channel) as [[]|] eqn:Hc; simpl;
          try (intros _; exists channel; by auto);
          since_simpl; intros Hin;
          repeat (apply elem_of_cons in Hin as [Hin|Hin]; [done|]);
          by apply elem_of_nil in Hin.
      * since_simpl. intros Hin.
        repeat (apply elem_of_cons in Hin as [Hin|Hin]; [done|]).
        by apply elem_of_nil in Hin.
    + since_simpl. intros Hin.
      repeat (apply elem_of_cons in Hin as [Hin|Hin]; [done|]).
      by apply elem_of_nil in Hin.
    + since_simpl. intros Hin.
      repeat (apply elem_of_cons in Hin as [Hin|Hin]; [done|]).
      by apply elem_of_nil in Hin.
Qed.

Lemma C4_witness :
  since initial (after (connectStage emptyEnv "c1" initial))
    = [ChannelStore_getChannel "c1"].
Proof.
  assert ("c1" ≠ "") as Hid by done.
  destruct (C4_view_optimistic_connect_conservative emptyEnv "c1" initial Hid)
    as [H _].
  apply H. reflexivity.
Defined.

(** ** C3: a repeated location event *)

(** The followed identity and the recorded channel survive everything
    but an assignment to them. *)
Definition session_kept : relation State :=
  fun s s' =>
    followedUserId s' = followedUserId s ∧
    lastFollowedChannelId s' = lastFollowedChannelId s.

#[export] Instance session_kept_preorder : PreOrder session_kept.
Proof.
  split.
  - by intros s.
  - intros s1 s2 s3 [H1 H2] [H3 H4]. split; congruence.
Qed.

Lemma after_bind {A B} (I : State -> Prop) (m : M A) (k : A -> M B) s :
  I (after (m s)) ->
  (∀ a, within (keeps I) (k a)) ->
  I (after (bind m k s)).
Proof.
  intros Hm Hk. unfold bind. destruct (m s) as [a s'|s']; simpl in *.
  - by apply Hk.
  - done.
Qed.

Lemma keeps_session_kept (I : State -> Prop) {A} (m : M A) :
  (∀ s s', session_kept s s' -> I s -> I s') ->
  within session_kept m -> within (keeps I) m.
Proof. intros HI Hm s Hs. eapply HI; [apply Hm | done]. Qed.

Lemma session_kept_record c s : session_kept s (record c s).
Proof. done. Qed.

Lemma session_kept_add_timer kind t s : session_kept s (add_timer kind t s).
Proof. done. Qed.

Lemma session_kept_stopped s : session_kept s (stopped s).
Proof. unfold stopped. by destruct (searchInterval s). Qed.

#[export] Hint Resolve session_kept_record session_kept_add_timer
  session_kept_stopped : frame.

Lemma session_kept_startSearching env userId uname :
  within session_kept (startSearching env userId uname).
Proof.
  intros s. rewrite startSearching_eq. simpl.
  destruct (toast env MESSAGE (searchingMessage uname)); simpl;
    unfold stopped; by destruct (searchInterval s).
Qed.

(** joinVoiceChannel records its channel at once, and nothing it starts
    changes the followed identity. *)
Lemma joinVoiceChannel_records env channelId s :
  lastFollowedChannelId (after (joinVoiceChannel env channelId s))
    = Some channelId ∧
  followedUserId (after (joinVoiceChannel env channelId s))
    = followedUserId s.
Proof.
  unfold joinVoiceChannel.
  apply (after_bind
    (fun s' => lastFollowedChannelId s' = Some channelId ∧
               followedUserId s' = followedUserId s)); [done|].
  intros _. apply keeps_session_kept.
  - intros s1 s2 [H1 H2] [H3 H4]. split; congruence.
  - apply within_joinVoiceChannel_stages; auto with frame. apply _.
Qed.

Lemma voiceStateUpdate_same env followed vs channelId s :
  truthy (vs_channelId vs) = Some channelId ->
  lastFollowedChannelId s = Some channelId ->
  voiceStateUpdate env followed vs s = Ok false s.
Proof.
  intros Hvs Hlast. unfold voiceStateUpdate, bind, get. rewrite Hvs, Hlast.
  simpl. by rewrite String.eqb_refl.
Qed.


Lemma VOICE_STATE_UPDATES_single env followed vs s :
  truthy (followedUserId s) = Some followed ->
  vs_userId vs = Some followed ->
  VOICE_STATE_UPDATES env [vs] s =
  match voiceStateUpdate env followed vs s with
  | Ok _ s' => Ok tt s'
  | Exn s' => Exn s'
  end.
Proof.
  intros Hf Hu. unfold VOICE_STATE_UPDATES, bind, get. rewrite Hf. simpl.
  unfold bind, get. rewrite (truthy_Some_inv _ _ Hf), Hu, String.eqb_refl.
  destruct (voiceStateUpdate env followed vs s) as [[] s'|s']; done.
Qed.

Lemma voiceStateUpdate_new env followed vs channelId s :
  truthy (vs_channelId vs) = Some channelId ->
  same channelId (lastFollowedChannelId s) = false ->
  voiceStateUpdate env followed vs s =
  (joinVoiceChannel env channelId ;;;
   uname <- external (UserStore_getUser followed) (getUser env followed) ;;
   showToast env SUCCESS (followedMessage (default "user" (truthy uname))) ;;;
   ret false) (stopped s).
Proof.
  intros Hc Hsame. unfold voiceStateUpdate. rewrite Hc.
  unfold bind at 1, get. rewrite Hsame. simpl.
  unfold bind at 1. by rewrite stopSearching_eq.
Qed.
(** C3.  A batch in which every update of the followed identity reports
    the channel already recorded leaves the state as it is: no variable
    changes, no timer is armed and no collaborator is called.  In
    particular, right after a first event for a channel, an identical
    second event does nothing. *)
Theorem C3_repeated_channel_event_is_noop env env' followed channelId s :
  truthy (followedUserId s) = Some followed ->
  (∀ updates,
     lastFollowedChannelId s = Some channelId ->
     (∀ vs, vs ∈ updates -> vs_userId vs = Some followed ->
            truthy (vs_channelId vs) = Some channelId) ->
     VOICE_STATE_UPDATES env updates s = Ok tt s) ∧
  (∀ vs,
     vs_userId vs = Some followed ->
     truthy (vs_channelId vs) = Some channelId ->
     let s1 := after (VOICE_STATE_UPDATES env [vs] s) in
     VOICE_STATE_UPDATES env' [vs] s1 = Ok tt s1).
Proof.
  intros Hfollowed.
  assert (∀ e s0 updates,
    truthy (followedUserId s0) = Some followed ->
    lastFollowedChannelId s0 = Some channelId ->
    (∀ vs, vs ∈ updates -> vs_userId vs = Some followed ->
           truthy (vs_channelId vs) = Some channelId) ->
    VOICE_STATE_UPDATES e updates s0 = Ok tt s0) as Hnoop.
  { intros e s0 updates Hf Hlast Hall.
    unfold VOICE_STATE_UPDATES, bind, get. rewrite Hf.
    apply truthy_Some_inv in Hf.
    induction updates as [|vs rest IH]; simpl; [done|].
    unfold bind, get. rewrite Hf.
    destruct (vs_userId vs) as [userId|] eqn:Hu.
    - destruct (String.eqb_spec userId followed) as [->|Hne].
      + rewrite (voiceStateUpdate_same e followed vs channelId s0); auto.
        * apply IH. intros vs' Hin. apply Hall. by apply list_elem_of_further.
        * apply Hall; [apply list_elem_of_here | done].
      + apply IH. intros vs' Hin. apply Hall. by apply list_elem_of_further.
    - apply IH. intros vs' Hin. apply Hall. by apply list_elem_of_further. }
  split; [by auto|].
  intros vs Hu Hc s1.
  assert (followedUserId s1 = followedUserId s ∧
          lastFollowedChannelId s1 = Some channelId) as [Hf1 Hl1].
  { subst s1. rewrite (VOICE_STATE_UPDATES_single _ followed) by done.
    assert (∀ r : Res bool,
      after (match r with Ok _ s' => Ok tt s' | Exn s' => Exn s' end)
        = after r) as -> by (by intros []).
    destruct (same channelId (lastFollowedChannelId s)) eqn:Hsame.
    - apply same_true in Hsame.
      by rewrite (voiceStateUpdate_same _ _ _ channelId).
    - rewrite (voiceStateUpdate_new _ _ _ channelId) by done.
      apply (after_bind (fun s' =>
        followedUserId s' = followedUserId s ∧
        lastFollowedChannelId s' = Some channelId)).
      + destruct (joinVoiceChannel_records env channelId (stopped s))
          as [H1 H2].
        split; [|done]. rewrite H2. apply session_kept_stopped.
      + intros _. apply keeps_session_kept.
        * intros s2 s3 [H1 H2] [H3 H4]. split; congruence.
        * within_auto. }
  apply Hnoop; [by rewrite Hf1 | done|].
  intros vs' ->%list_elem_of_singleton _. done.
Qed.

Lemma C3_witness :
  let s := after (step (inChannelEnv "c1") (ContextAction alice) initial) in
  VOICE_STATE_UPDATES emptyEnv
    [mkVoiceState (Some "A") (Some "c1"); mkVoiceState (Some "B") (Some "c2")]
    s = Ok tt s.
Proof.
  intros s.
  assert (truthy (followedUserId s) = Some "A") as Hf by reflexivity.
  destruct (C3_repeated_channel_event_is_noop emptyEnv emptyEnv "A" "c1" s Hf)
    as [H _].
  apply H; [reflexivity|].
  intros vs Hin Hu.
  apply elem_of_cons in Hin as [->|Hin]; [reflexivity|].
  apply list_elem_of_singleton in Hin as ->. discriminate Hu.
Defined.

(** ** C2: the followed identity leaves voice *)

(** The local user sits in the channel the controller last joined. *)
Definition inFollowedChannel (myChanId lastFollowed : option string) : Prop :=
  ∃ c, truthy myChanId = Some c ∧ lastFollowed = Some c.

Lemma voiceStateUpdate_left env followed vs s :
  truthy (vs_channelId vs) = None ->
  voiceStateUpdate env followed vs s =
  (uname <- external (UserStore_getUser followed) (getUser env followed) ;;
   startSearching env followed (default "user" (truthy uname)) ;;;
   s <- get ;;
   if negb (disconnectFollow s) then ret true
   else
     myChanId <-
       external SelectedChannelStore_getVoiceChannelId
         (getVoiceChannelId env) ;;
     s <- get ;;
     match truthy myChanId with
     | Some myChanId =>
         if same myChanId (lastFollowedChannelId s) then
           external (ChannelActions_selectVoiceChannel None)
             (selectVoiceChannel env None) ;;;
           modify (set_lastFollowedChannelId None) ;;;
           ret false
         else ret false
     | None => ret false
     end) s.
Proof. intros Hc. unfold voiceStateUpdate. by rewrite Hc. Qed.

(** Closes a hypothesis placing a call in an explicit list that does
    not hold it. *)
Ltac absent Hin :=
  repeat (apply elem_of_cons in Hin as [Hin|Hin]; [discriminate Hin|]);
  by apply elem_of_nil in Hin.


(** The local user sits in [mine]; every channel is loaded; nobody else
    is in voice. *)
Definition leftEnv (mine : string) : Env :=
  calmEnv (fun _ => None) (fun id => Some (mkChannel id (Some "g1")))
    (Some mine).

(** Following "A" into c1, with disconnect-on-leave switched on. *)
Definition followingA : State :=
  run [(emptyEnv, UpdateSettings (Some true) None None);
       (inChannelEnv "c1", ContextAction alice)] initial.


(** ** The search loop's tick *)

Lemma reachable_run inputs s : reachable s -> reachable (run inputs s).
Proof.
  revert s. induction inputs as [|[env i] rest IH]; intros s Hs; simpl.
  - done.
  - apply IH. by constructor.
Qed.

Lemma fire_searchTick env t userId uname s :
  wf s -> t ∈ timers s -> timer_task t = SearchTick userId uname ->
  fire env (timer_id t) s = searchTick env userId uname s.
Proof.
  intros (Hnd & _ & _ & Hint & _) Hin Htask.
  unfold fire, bind, get. rewrite (find_timer _ _ Hnd Hin).
  rewrite (Hint t Hin) by (by rewrite Htask). simpl. by rewrite Htask.
Qed.

(** A tick whose identity is no longer the followed one stops the loop
    and does nothing else. *)
Lemma searchTick_stale env userId uname s :
  truthy (followedUserId s) ≠ Some userId ->
  searchTick env userId uname s = Ok tt (stopped s).
Proof.
  intros Hne. unfold searchTick, bind, get.
  destruct (truthy (followedUserId s)) as [followed|];
    [|apply stopSearching_eq].
  destruct (String.eqb_spec followed userId) as [->|_]; [done|].
  apply stopSearching_eq.
Qed.

Lemma stopped_no_ticks s t :
  wf s -> t ∈ timers (stopped s) -> is_searchTick (timer_task t) = false.
Proof.
  intros Hwf Hin. pose proof (wf_stopped _ Hwf) as (_ & _ & Htick & _).
  destruct (is_searchTick (timer_task t)) eqn:Ht; [|done].
  apply Htick in Ht; [|done]. by rewrite searchInterval_stopped in Ht.
Qed.

Lemma stopped_fields s :
  followedUserId (stopped s) = followedUserId s ∧
  lastFollowedChannelId (stopped s) = lastFollowedChannelId s ∧
  preloadedGuilds (stopped s) = preloadedGuilds s ∧
  trace (stopped s) = trace s ∧
  isSearching (stopped s) = false.
Proof. unfold stopped. by destruct (searchInterval s). Qed.

(** The state start and stop leave. *)
Definition cleared (s : State) : State :=
  set_preloadedGuilds ∅
    (set_lastFollowedChannelId None (set_followedUserId None s)).

Lemma start_eq s : start s = Ok tt (stopped (cleared s)).
Proof. unfold start, bind, modify. by rewrite stopSearching_eq. Qed.

Lemma stop_eq s : stop s = Ok tt (stopped (cleared s)).
Proof. unfold stop, bind, modify. by rewrite stopSearching_eq. Qed.

(** ** C6: unfollowing *)

(** C6.  Clicking the entry for the identity being followed clears the
    followed identity and the recorded channel and calls no collaborator
    (so it does nothing to the local user's voice connection) and arms no
    timer.  A search loop that was running is stopped at its next tick:
    that tick makes no call at all (no directory query), clears the
    interval and the searching flag, and leaves no tick pending. *)
Theorem C6_unfollow_clears_session_and_ends_search env user s :
  reachable s ->
  followedUserId s = Some (user_id user) ->
  let s' := after (contextAction env user s) in
  escapes (contextAction env user s) = false ∧
  followedUserId s' = None ∧
  lastFollowedChannelId s' = None ∧
  trace s' = trace s ∧
  timers s' = timers s ∧
  (∀ env' t,
     t ∈ timers s' -> is_searchTick (timer_task t) = true ->
     let s'' := after (fire env' (timer_id t) s') in
     trace s'' = trace s' ∧
     isSearching s'' = false ∧
     searchInterval s'' = None ∧
     followedUserId s'' = None ∧
     ∀ t', t' ∈ timers s'' -> is_searchTick (timer_task t') = false).
Proof.
  intros Hreach Hfollowed s'.
  assert (contextAction env user s =
          Ok tt (set_lastFollowedChannelId None (set_followedUserId None s)))
    as Heq.
  { unfold contextAction, bind, get. rewrite Hfollowed. simpl.
    by rewrite String.eqb_refl. }
  subst s'. rewrite Heq. cbn [after escapes].
  set (s' := set_lastFollowedChannelId None (set_followedUserId None s)).
  repeat (split; [done|]).
  intros env' t Hin Htick.
  assert (wf s') as Hwf.
  { apply wf_set_lastFollowedChannelId, wf_set_followedUserId.
    by apply reachable_wf. }
  destruct (timer_task t) as [| | |userId uname] eqn:Htask; try done.
  rewrite (fire_searchTick env' t userId uname s' Hwf Hin Htask).
  rewrite searchTick_stale by done. cbn [after].
  destruct (stopped_fields s') as (Hf & _ & _ & Htr & Hs).
  split; [done|]. split; [done|].
  split; [apply searchInterval_stopped|].
  split; [by rewrite Hf|].
  intros t' Hin'. by apply (stopped_no_ticks s').
Qed.

(** "A" was followed while in no voice channel, so the search loop runs. *)
Definition searchingForA : State :=
  run [(emptyEnv, ContextAction alice)] initial.

Lemma C6_witness :
  let s' := after (contextAction emptyEnv alice searchingForA) in
  followedUserId s' = None ∧ trace s' = trace searchingForA.
Proof.
  intros s'.
  assert (reachable searchingForA) as Hr
    by apply reachable_run, reachable_initial.
  destruct (C6_unfollow_clears_session_and_ends_search
              emptyEnv alice searchingForA Hr eq_refl)
    as (_ & H1 & _ & H2 & _).
  split; [exact H1 | exact H2].
Defined.

(** ** C7: searching implies a followed identity *)

Definition searching_has_target (s : State) : Prop :=
  isSearching s = true -> followedUserId s ≠ None.

(** The input is the click that unfollows in state [s]. *)
Definition is_unfollow (i : Input) (s : State) : Prop :=
  ∃ user, i = ContextAction user ∧ followedUserId s = Some (user_id user).

Definition target_kept : relation State :=
  fun s s' => followedUserId s' = followedUserId s.

(** The followed identity stays and the search flag is at most dropped. *)
Definition search_dropped : relation State :=
  fun s s' =>
    followedUserId s' = followedUserId s ∧
    (isSearching s' = true -> isSearching s = true).

#[export] Instance target_kept_preorder : PreOrder target_kept.
Proof.
  split; unfold target_kept; [done | intros s1 s2 s3; congruence].
Qed.

#[export] Instance search_dropped_preorder : PreOrder search_dropped.
Proof.
  split; unfold search_dropped.
  - done.
  - intros s1 s2 s3 [H1 H2] [H3 H4]. split; [congruence | auto].
Qed.

Lemma target_kept_record c s : target_kept s (record c s).
Proof. done. Qed.
Lemma target_kept_add_timer kind t s : target_kept s (add_timer kind t s).
Proof. done. Qed.
Lemma target_kept_channel v s : target_kept s (set_lastFollowedChannelId v s).
Proof. done. Qed.
Lemma target_kept_cache v s : target_kept s (set_preloadedGuilds v s).
Proof. done. Qed.
Lemma target_kept_stopped s : target_kept s (stopped s).
Proof. unfold stopped. by destruct (searchInterval s). Qed.
Lemma target_kept_startSearching env userId uname :
  within target_kept (startSearching env userId uname).
Proof.
  intros s. rewrite startSearching_eq. simpl.
  destruct (toast env MESSAGE (searchingMessage uname)); simpl;
    unfold stopped; by destruct (searchInterval s).
Qed.

Lemma search_dropped_record c s : search_dropped s (record c s).
Proof. done. Qed.
Lemma search_dropped_add_timer kind t s :
  search_dropped s (add_timer kind t s).
Proof. done. Qed.
Lemma search_dropped_channel v s :
  search_dropped s (set_lastFollowedChannelId v s).
Proof. done. Qed.
Lemma search_dropped_cache v s : search_dropped s (set_preloadedGuilds v s).
Proof. done. Qed.
Lemma search_dropped_stopped s : search_dropped s (stopped s).
Proof. unfold stopped. by destruct (searchInterval s). Qed.
Lemma search_dropped_removeTimer h s : search_dropped s (removeTimer h s).
Proof. done. Qed.

#[export] Hint Resolve target_kept_record target_kept_add_timer
  target_kept_channel target_kept_cache target_kept_stopped
  search_dropped_record search_dropped_add_timer search_dropped_channel
  search_dropped_cache search_dropped_stopped : frame.

Lemma target_kept_followAction env user :
  within target_kept (followAction env user).
Proof.
  apply within_followAction; auto with frame; try apply _.
  apply target_kept_startSearching.
Qed.

Lemma target_kept_VOICE_STATE_UPDATES env updates :
  within target_kept (VOICE_STATE_UPDATES env updates).
Proof.
  apply within_VOICE_STATE_UPDATES; auto with frame; try apply _.
  apply target_kept_startSearching.
Qed.

Lemma target_kept_searchTick env userId uname :
  within target_kept (searchTick env userId uname).
Proof. apply within_searchTick; auto with frame; apply _. Qed.

Lemma search_dropped_fire env id : within search_dropped (fire env id).
Proof.
  intros s. unfold fire, bind, get.
  destruct (find _ (timers s)) as [t|]; [|simpl; reflexivity].
  assert (within search_dropped (runTask env (timer_task t))) as Hrun
    by (apply within_runTask; auto with frame; apply _).
  destruct (is_interval t); simpl; [apply Hrun|].
  etransitivity; [apply search_dropped_removeTimer | apply Hrun].
Qed.

(** Unfollowing while the search loop runs: the flag stays set although
    no identity is followed. *)
Definition unfollowedWhileSearching : State :=
  run [(emptyEnv, ContextAction alice); (emptyEnv, ContextAction alice)]
    initial.

(** C7, as stated, fails: after follow and unfollow of an identity that
    is in no voice channel, the controller is searching with no followed
    identity. *)
Lemma C7_counterexample :
  reachable unfollowedWhileSearching ∧
  isSearching unfollowedWhileSearching = true ∧
  followedUserId unfollowedWhileSearching = None.
Proof.
  split; [apply reachable_run, reachable_initial|].
  split; reflexivity.
Qed.

(** C7, amended.  The invariant holds initially and is preserved by every
    handler and every pending task except the click that unfollows; and
    in any reachable state, also one where an unfollow has broken it, the
    next tick of the search loop establishes it. *)
Theorem C7_invariant_kept_except_by_unfollow :
  searching_has_target initial ∧
  (∀ env i s,
     ¬ is_unfollow i s ->
     searching_has_target s ->
     searching_has_target (after (step env i s))) ∧
  (∀ env t s,
     reachable s ->
     t ∈ timers s -> is_searchTick (timer_task t) = true ->
     searching_has_target (after (fire env (timer_id t) s))).
Proof.
  split; [done|]. split.
  - intros env i s Hnot Hinv. destruct i as [| |d p e|user|updates|id]; simpl.
    + rewrite start_eq. cbn [after]. intros Hs.
      destruct (stopped_fields (cleared s)) as (_ & _ & _ & _ & Hfalse).
      congruence.
    + rewrite stop_eq. cbn [after]. intros Hs.
      destruct (stopped_fields (cleared s)) as (_ & _ & _ & _ & Hfalse).
      congruence.
    + exact Hinv.
    + unfold contextAction, bind, get.
      destruct (same (user_id user) (followedUserId s)) eqn:Hsame.
      * exfalso. apply Hnot. exists user. split; [done|].
        by apply same_true.
      * simpl. intros _.
        rewrite (target_kept_followAction env user). done.
    + destruct (followedUserId s) as [u|] eqn:Hu.
      * intros _.
        rewrite (target_kept_VOICE_STATE_UPDATES env updates s).
        by rewrite Hu.
      * assert (VOICE_STATE_UPDATES env updates s = Ok tt s) as ->
          by (unfold VOICE_STATE_UPDATES, bind, get; by rewrite Hu).
        exact Hinv.
    + destruct (search_dropped_fire env id s) as [Hf Hs].
      intros Hsearch. rewrite Hf. auto.
  - intros env t s Hreach Hin Htick.
    destruct (timer_task t) as [| | |userId uname] eqn:Htask; try done.
    rewrite (fire_searchTick env t userId uname s) by
      (auto using reachable_wf).
    destruct (decide (truthy (followedUserId s) = Some userId)) as [Heq|Hne].
    + intros _. rewrite (target_kept_searchTick env userId uname s).
      apply truthy_Some_inv in Heq. by rewrite Heq.
    + rewrite searchTick_stale by done. simpl. intros Hs.
      destruct (stopped_fields s) as (_ & _ & _ & _ & Hfalse). congruence.
Qed.

Lemma C7_witness :
  searching_has_target
    (after (step emptyEnv (ContextAction alice) initial)) ∧
  searching_has_target
    (after (fire emptyEnv 2 unfollowedWhileSearching)).
Proof.
  destruct C7_invariant_kept_except_by_unfollow as (H0 & Hstep & Htick).
  split.
  - apply Hstep; [|exact H0]. intros (user & _ & Hf). discriminate Hf.
  - apply (Htick emptyEnv (mkTimer 2 (Interval 2000) (SearchTick "A" "alice"))).
    + apply reachable_run, reachable_initial.
    + apply list_elem_of_here.
    + reflexivity.
Defined.

(** ** C9: which failures are caught *)

Create HintDb safe.

Ltac safe_step :=
  first
    [ apply safe_ret
    | apply safe_get
    | apply safe_modify
    | apply safe_external; solve [auto]
    | solve [eauto 2 with safe]
    | apply safe_bind; [|intros ?]
    | apply safe_try_catch
    | apply safe_for_each; intros ? ].

Ltac safe_auto := repeat first [safe_step | branch].

Section CaughtEverywhere.

Variable env : Env.

(** These functions catch whatever their collaborators throw. *)

Lemma safe_stopSearching : safe stopSearching.
Proof. intros s. by rewrite stopSearching_eq. Qed.

Lemma safe_settle p (onSettled : M unit) :
  safe onSettled -> safe (settle p onSettled).
Proof. intros H. unfold settle. safe_auto; done. Qed.

Lemma safe_preloadGuildData channelId : safe (preloadGuildData env channelId).
Proof. unfold preloadGuildData. safe_auto. Qed.

Lemma safe_joinVoiceChannel channelId : safe (joinVoiceChannel env channelId).
Proof.
  unfold joinVoiceChannel.
  apply safe_bind; [apply safe_modify|]. intros _.
  apply safe_bind; [apply safe_preloadGuildData|]. intros p.
  apply safe_settle. unfold getPreloadDelay, setTimeout. safe_auto.
Qed.

Lemma safe_preloadGuildDataResume channelId guildId :
  safe (preloadGuildDataResume env channelId guildId).
Proof.
  unfold preloadGuildDataResume.
  apply safe_bind; [safe_auto|]. intros p.
  apply safe_settle. unfold getPreloadDelay, setTimeout. safe_auto.
Qed.

Lemma safe_mutualGuildsContinue userId mutualGuildIds :
  safe (mutualGuildsContinue env userId mutualGuildIds).
Proof. unfold mutualGuildsContinue. safe_auto. Qed.

Lemma safe_preloadMutualGuilds userId : safe (preloadMutualGuilds env userId).
Proof.
  unfold preloadMutualGuilds.
  apply safe_bind; [safe_auto|]. intros [|]; [apply safe_ret|].
  apply safe_mutualGuildsContinue.
Qed.

Lemma safe_mutualGuildsResponse userId :
  safe (mutualGuildsResponse env userId).
Proof. apply safe_mutualGuildsContinue. Qed.

Lemma safe_mutualGuildsPreloaded guildId dc rest :
  safe (mutualGuildsPreloaded env guildId dc rest).
Proof. unfold mutualGuildsPreloaded. safe_auto. Qed.

Lemma safe_mutualGuildsPause guildId rest :
  safe (mutualGuildsPause env guildId rest).
Proof. unfold mutualGuildsPause. safe_auto. Qed.

Lemma safe_resume k : safe (resume env k).
Proof.
  destruct k; simpl.
  - apply safe_preloadGuildDataResume.
  - apply safe_bind; [apply safe_mutualGuildsResponse|].
    intros p. apply safe_settle, safe_ret.
  - apply safe_bind; [apply safe_mutualGuildsPreloaded|].
    intros p. apply safe_settle, safe_ret.
  - apply safe_bind; [apply safe_mutualGuildsPause|].
    intros p. apply safe_settle, safe_ret.
Qed.

(** The calls made outside every [try]. *)
Hypothesis HgetChannel : ∀ id, returns (getChannel env id).
Hypothesis HgetVoiceStateForUser : ∀ u, returns (getVoiceStateForUser env u).
Hypothesis HgetUser : ∀ u, returns (getUser env u).
Hypothesis HgetVoiceChannelId : returns (getVoiceChannelId env).
Hypothesis Htoast : ∀ t message, returns (toast env t message).
Hypothesis HselectVoiceChannel : ∀ c, returns (selectVoiceChannel env c).

Local Hint Resolve safe_stopSearching safe_joinVoiceChannel
  safe_preloadMutualGuilds safe_resume : safe.

Lemma safe_canViewChannel channelId : safe (canViewChannel env channelId).
Proof. unfold canViewChannel. safe_auto. Qed.

Lemma safe_canJoinChannel channelId : safe (canJoinChannel env channelId).
Proof. unfold canJoinChannel. safe_auto. Qed.

Local Hint Resolve safe_canViewChannel safe_canJoinChannel : safe.

Lemma safe_navigateStage channelId : safe (navigateStage env channelId).
Proof. unfold navigateStage, attempt, setTimeout. safe_auto. Qed.

Lemma safe_connectStage channelId : safe (connectStage env channelId).
Proof. unfold connectStage. safe_auto. Qed.

Lemma safe_showToast t message : safe (showToast env t message).
Proof. unfold showToast. safe_auto. Qed.

Lemma safe_startSearching userId uname :
  safe (startSearching env userId uname).
Proof.
  intros s. rewrite startSearching_eq. simpl.
  specialize (Htoast MESSAGE (searchingMessage uname)).
  by destruct (toast env MESSAGE (searchingMessage uname)).
Qed.

Local Hint Resolve safe_showToast safe_startSearching safe_navigateStage
  safe_connectStage : safe.

Lemma safe_searchTick userId uname : safe (searchTick env userId uname).
Proof. unfold searchTick, checkUserInVoiceChannel. safe_auto. Qed.

Lemma safe_followAction user : safe (followAction env user).
Proof.
  unfold followAction.
  apply safe_bind; [safe_auto|]. intros p.
  apply safe_bind; [apply safe_settle, safe_ret|]. intros _.
  safe_auto.
Qed.

Lemma safe_voiceStateUpdate followed vs :
  safe (voiceStateUpdate env followed vs).
Proof. unfold voiceStateUpdate. safe_auto. Qed.

Local Hint Resolve safe_searchTick safe_followAction safe_voiceStateUpdate
  : safe.

Lemma safe_voiceStateUpdatesLoop updates :
  safe (voiceStateUpdatesLoop env updates).
Proof. induction updates as [|vs rest IH]; simpl; safe_auto. Qed.

Lemma safe_runTask t : safe (runTask env t).
Proof. destruct t; simpl; auto with safe. Qed.

Lemma safe_step_all i : safe (step env i).
Proof.
  destruct i as [| |d p e|user|updates|id]; simpl.
  - unfold start. safe_auto.
  - unfold stop. safe_auto.
  - unfold updateSettings. safe_auto.
  - unfold contextAction. safe_auto.
  - unfold VOICE_STATE_UPDATES. safe_auto. apply safe_voiceStateUpdatesLoop.
  - unfold fire. safe_auto; apply safe_runTask.
Qed.

End CaughtEverywhere.

(** The collaborator calls that the plugin makes outside every [try]. *)
Definition unguarded_calls_return (env : Env) : Prop :=
  (∀ id, returns (getChannel env id)) ∧
  (∀ u, returns (getVoiceStateForUser env u)) ∧
  (∀ u, returns (getUser env u)) ∧
  returns (getVoiceChannelId env) ∧
  (∀ t message, returns (toast env t message)) ∧
  (∀ c, returns (selectVoiceChannel env c)).

(** Like [inChannelEnv c], but the voice-connect call throws. *)
Definition connectThrowsEnv (c : string) : Env :=
  {| getChannel := getChannel (inChannelEnv c);
     isPrivate := isPrivate (inChannelEnv c);
     can := can (inChannelEnv c);
     getGuildIds := getGuildIds (inChannelEnv c);
     getGuild := getGuild (inChannelEnv c);
     getMember := getMember (inChannelEnv c);
     getVoiceStates := getVoiceStates (inChannelEnv c);
     getVoiceStateForUser := getVoiceStateForUser (inChannelEnv c);
     getDefaultChannel := getDefaultChannel (inChannelEnv c);
     getVoiceChannelId := getVoiceChannelId (inChannelEnv c);
     getUser := getUser (inChannelEnv c);
     hasPreload := true;
     preload := preload (inChannelEnv c);
     preloadSettles := preloadSettles (inChannelEnv c);
     dispatch := dispatch (inChannelEnv c);
     transitionToChannel := transitionToChannel (inChannelEnv c);
     selectVoiceChannel := fun _ => Throws;
     toast := toast (inChannelEnv c);
     restGet := restGet (inChannelEnv c);
     restResponse := restResponse (inChannelEnv c) |}.

(** Every call made inside a [try] throws; the others answer as in
    [inChannelEnv c]. *)
Definition guardedThrowEnv (c : string) : Env :=
  {| getChannel := getChannel (inChannelEnv c);
     isPrivate := fun _ => Throws;
     can := fun _ _ => Throws;
     getGuildIds := Throws;
     getGuild := fun _ => Throws;
     getMember := fun _ _ => Throws;
     getVoiceStates := fun _ _ => Throws;
     getVoiceStateForUser := getVoiceStateForUser (inChannelEnv c);
     getDefaultChannel := fun _ => Throws;
     getVoiceChannelId := getVoiceChannelId (inChannelEnv c);
     getUser := getUser (inChannelEnv c);
     hasPreload := true;
     preload := fun _ _ => Throws;
     preloadSettles := fun _ _ => Throws;
     dispatch := fun _ => Throws;
     transitionToChannel := fun _ => Throws;
     selectVoiceChannel := selectVoiceChannel (inChannelEnv c);
     toast := toast (inChannelEnv c);
     restGet := fun _ => Throws;
     restResponse := fun _ => Throws |}.

(** "A" was followed into c1 and the join attempt has reached its connect
    stage: the entry with id 4 is the inner timer of joinVoiceChannel. *)
Definition connectPending : State :=
  run [(inChannelEnv "c1", ContextAction alice);
       (inChannelEnv "c1", Fire 2);
       (inChannelEnv "c1", Fire 3)] initial.

(** C9, as stated, fails: when selectVoiceChannel throws, the exception
    leaves the timer callback of the connect stage. *)
Lemma C9_counterexample :
  find (fun t => Nat.eqb (timer_id t) 4) (timers connectPending)
    = Some (mkTimer 4 (Timeout 100) (ConnectStage "c1")) ∧
  escapes (step (connectThrowsEnv "c1") (Fire 4) connectPending) = true.
Proof. split; reflexivity. Qed.

(** C9, amended.  Whatever the calls made inside a [try] do (the preload
    call and its promise, the channel-summaries dispatch, the navigate
    call, the permission checks on a loaded channel, the default-channel
    and guild lookups, the profile request), no exception escapes a
    handler or a pending task, provided the calls made outside every
    [try] return: the channel lookup, the two voice-state queries, the
    user lookup, the toast and the voice-connect call. *)
Theorem C9_guarded_failures_are_caught env :
  unguarded_calls_return env ->
  ∀ i s, escapes (step env i s) = false.
Proof.
  intros (H1 & H2 & H3 & H4 & H5 & H6) i s.
  by apply safe_step_all.
Qed.

Lemma C9_witness :
  escapes (step (guardedThrowEnv "c1") (ContextAction alice) initial) = false.
Proof.
  apply C9_guarded_failures_are_caught.
  repeat split; intros; exact I.
Defined.

(** ** C5: following another identity *)

Lemma same_false a b : a ≠ b -> same a (Some b) = false.
Proof. intros Hne. simpl. by destruct (String.eqb_spec a b). Qed.

(** followAction up to its probe: the bulk preload is started, which
    cannot fail and leaves the session and the search loop alone. *)
Lemma followAction_probe env user s :
  wf s ->
  ∃ s1,
    wf s1 ∧ session_kept s s1 ∧
    followAction env user s =
    (chanId <-
       external (VoiceStateStore_getVoiceStateForUser (user_id user))
         (getVoiceStateForUser env (user_id user)) ;;
     match truthy chanId with
     | Some chanId =>
         joinVoiceChannel env chanId ;;;
         showToast env SUCCESS (followedMessage (username user))
     | None => startSearching env (user_id user) (username user)
     end) s1.
Proof.
  intros Hwf. unfold followAction.
  set (m := try_catch (preloadMutualGuilds env (user_id user)) (ret Rejected)).
  assert (safe m) as Hsafe by (apply safe_try_catch, safe_ret).
  assert (within (keeps wf) m) as Hkeep.
  { apply within_try_catch; [apply _| |apply within_ret; apply _].
    apply within_preloadMutualGuilds; try apply _; unfold keeps;
      auto using wf_record, wf_add_timer, wf_set_preloadedGuilds. }
  assert (within session_kept m) as Hsess.
  { apply within_try_catch; [apply _| |apply within_ret; apply _].
    apply within_preloadMutualGuilds; try apply _; auto with frame. }
  specialize (Hsafe s). specialize (Hkeep s Hwf). specialize (Hsess s).
  unfold bind at 1. destruct (m s) as [p sa|sa]; [|done]. simpl in *.
  unfold bind at 1.
  destruct p as [| |kind k]; simpl.
  - by exists sa.
  - by exists sa.
  - exists (add_timer kind (Resume k) sa). split; [by apply wf_add_timer|].
    split; [|done]. etransitivity; [exact Hsess | done].
Qed.

(** "B" sits in c2; every channel is loaded. *)
Definition bobInChannelEnv : Env :=
  calmEnv (fun u => if String.eqb u "B" then Some "c2" else None)
    (fun id => Some (mkChannel id (Some "g1"))) None.

(** While the loop searches for "A", "B" is followed. *)
Definition followedBobWhileSearchingForA : State :=
  after (step bobInChannelEnv (ContextAction bob) searchingForA).

(** C5, as stated, fails: after follow(B) has probed B's location and
    started the join into B's channel, the search loop started for A is
    still armed and the searching flag is still set. *)
Lemma C5_counterexample :
  searchInterval searchingForA = Some 2%nat ∧
  followedUserId followedBobWhileSearchingForA = Some "B" ∧
  lastFollowedChannelId followedBobWhileSearchingForA = Some "c2" ∧
  VoiceStateStore_getVoiceStateForUser "B"
    ∈ since searchingForA followedBobWhileSearchingForA ∧
  ChannelActionCreators_preload "g1" "g1-general"
    ∈ since searchingForA followedBobWhileSearchingForA ∧
  isSearching followedBobWhileSearchingForA = true ∧
  searchInterval followedBobWhileSearchingForA = Some 2%nat ∧
  mkTimer 2 (Interval 2000) (SearchTick "A" "alice")
    ∈ timers followedBobWhileSearchingForA.
Proof.
  repeat (split; [reflexivity|]).
  split; [vm_compute; repeat constructor|].
  split; [vm_compute; repeat constructor|].
  repeat (split; [reflexivity|]).
  vm_compute. repeat constructor.
Qed.

(** C5, amended.  follow(B) while following another identity sets the
    followed identity to B and resets the recorded channel before
    anything is done on behalf of B.  The search loop of the previous
    identity is not stopped at that point.  When B's probe finds no
    channel, startSearching replaces it, so every pending tick is B's.
    Otherwise it stays armed, and a pending tick of an identity other
    than B ends the loop the next time it fires, without any collaborator
    call. *)
Theorem C5_follow_other_resets_then_loop_ends_at_tick env user target s :
  reachable s ->
  followedUserId s = Some target ->
  target ≠ user_id user ->
  let s0 :=
    set_lastFollowedChannelId None
      (set_followedUserId (Some (user_id user)) s) in
  let s' := after (contextAction env user s) in
  contextAction env user s = followAction env user s0 ∧
  followedUserId s' = Some (user_id user) ∧
  (∀ chanId,
     getVoiceStateForUser env (user_id user) = Returns chanId ->
     truthy chanId = None ->
     ∀ t, t ∈ timers s' -> is_searchTick (timer_task t) = true ->
          timer_task t = SearchTick (user_id user) (username user)) ∧
  (∀ env' t userId uname,
     t ∈ timers s' -> timer_task t = SearchTick userId uname ->
     userId ≠ user_id user ->
     let s'' := after (fire env' (timer_id t) s') in
     since s' s'' = [] ∧
     isSearching s'' = false ∧
     searchInterval s'' = None ∧
     ∀ t', t' ∈ timers s'' -> is_searchTick (timer_task t') = false).
Proof.
  intros Hreach Hfollowed Hne s0 s'.
  assert (contextAction env user s = followAction env user s0) as Heq.
  { unfold contextAction, bind, get. rewrite Hfollowed.
    rewrite same_false by congruence. done. }
  assert (wf s0) as Hwf0.
  { apply wf_set_lastFollowedChannelId, wf_set_followedUserId.
    by apply reachable_wf. }
  assert (followedUserId s' = Some (user_id user)) as Hf'.
  { subst s'. rewrite Heq. by rewrite (target_kept_followAction env user s0). }
  assert (wf s') as Hwf'.
  { apply (wf_step env (ContextAction user) s). by apply reachable_wf. }
  split; [exact Heq|]. split; [exact Hf'|]. split.
  - intros chanId Hprobe Hnone t Hin Htick. subst s'. rewrite Heq in Hin.
    destruct (followAction_probe env user s0 Hwf0) as (s1 & Hwf1 & _ & Hrun).
    rewrite Hrun in Hin. unfold bind at 1, external in Hin.
    rewrite Hprobe, Hnone in Hin. rewrite startSearching_eq in Hin.
    set (s2 := record (VoiceStateStore_getVoiceStateForUser (user_id user)) s1)
      in Hin.
    assert (wf s2) as Hwf2 by (by apply wf_record).
    simpl in Hin.
    destruct (toast env MESSAGE (searchingMessage (username user)));
      simpl in Hin.
    + apply elem_of_cons in Hin as [->|Hin]; [done|].
      by rewrite (stopped_no_ticks s2 t) in Htick.
    + by rewrite (stopped_no_ticks s2 t) in Htick.
  - intros env' t userId uname Hin Htask Hother s''. subst s''.
    rewrite (fire_searchTick env' t userId uname s' Hwf' Hin Htask).
    rewrite searchTick_stale.
    + cbn [after]. destruct (stopped_fields s') as (_ & _ & _ & Htr & Hs).
      split; [by apply since_extend|]. split; [done|].
      split; [apply searchInterval_stopped|].
      intros t' Hin'. by apply (stopped_no_ticks s').
    + rewrite Hf'. intros H%truthy_Some_inv. congruence.
Qed.

Lemma C5_witness :
  followedUserId followedBobWhileSearchingForA = Some "B" ∧
  since followedBobWhileSearchingForA
    (after (fire emptyEnv 2 followedBobWhileSearchingForA)) = [].
Proof.
  assert (reachable searchingForA) as Hr
    by apply reachable_run, reachable_initial.
  assert ("A" ≠ user_id bob) as Hne by done.
  destruct (C5_follow_other_resets_then_loop_ends_at_tick
              bobInChannelEnv bob "A" searchingForA Hr eq_refl Hne)
    as (_ & Hf & _ & Htick).
  split; [exact Hf|].
  refine (proj1 (Htick emptyEnv
    (mkTimer 2 (Interval 2000) (SearchTick "A" "alice")) "A" "alice" _ _ _)).
  - vm_compute. repeat constructor.
  - reflexivity.
  - done.
Defined.

(** ** C8: the preload cache *)

Definition cache_kept : relation State :=
  fun s s' => preloadedGuilds s' = preloadedGuilds s.

#[export] Instance cache_kept_preorder : PreOrder cache_kept.
Proof. split; unfold cache_kept; [done | intros s1 s2 s3; congruence]. Qed.

Lemma cache_kept_record c s : cache_kept s (record c s).
Proof. done. Qed.
Lemma cache_kept_add_timer kind t s : cache_kept s (add_timer kind t s).
Proof. done. Qed.
Lemma cache_kept_channel v s : cache_kept s (set_lastFollowedChannelId v s).
Proof. done. Qed.

#[export] Hint Resolve cache_kept_record cache_kept_add_timer
  cache_kept_channel : frame.

(** Like [inChannelEnv c], but the promise of every preload rejects. *)
Definition preloadRejectsEnv (c : string) : Env :=
  {| getChannel := getChannel (inChannelEnv c);
     isPrivate := isPrivate (inChannelEnv c);
     can := can (inChannelEnv c);
     getGuildIds := getGuildIds (inChannelEnv c);
     getGuild := getGuild (inChannelEnv c);
     getMember := getMember (inChannelEnv c);
     getVoiceStates := getVoiceStates (inChannelEnv c);
     getVoiceStateForUser := getVoiceStateForUser (inChannelEnv c);
     getDefaultChannel := getDefaultChannel (inChannelEnv c);
     getVoiceChannelId := getVoiceChannelId (inChannelEnv c);
     getUser := getUser (inChannelEnv c);
     hasPreload := true;
     preload := preload (inChannelEnv c);
     preloadSettles := fun _ _ => Throws;
     dispatch := dispatch (inChannelEnv c);
     transitionToChannel := transitionToChannel (inChannelEnv c);
     selectVoiceChannel := selectVoiceChannel (inChannelEnv c);
     toast := toast (inChannelEnv c);
     restGet := restGet (inChannelEnv c);
     restResponse := restResponse (inChannelEnv c) |}.

(** "A" was followed; the profile request has answered with the mutual
    guild g1, whose preload is awaited (pending entry 3). *)
Definition mutualPreloadPending : State :=
  run [(inChannelEnv "c1", ContextAction alice);
       (inChannelEnv "c1", Fire 1)] initial.

(** The same, after that preload has succeeded: g1 is in the cache. *)
Definition mutualPreloadDone : State :=
  run [(inChannelEnv "c1", Fire 3)] mutualPreloadPending.

(** C8, as stated, fails twice.  The preloading stage of a join preloads
    a guild that is already in the cache; and a guild whose bulk preload
    fails is not marked cached. *)
Lemma C8_counterexample :
  ("g1" ∈ preloadedGuilds mutualPreloadDone ∧
   ChannelActionCreators_preload "g1" "g1-general"
     ∈ since mutualPreloadDone
         (after (VOICE_STATE_UPDATES (inChannelEnv "c3")
                   [mkVoiceState (Some "A") (Some "c3")] mutualPreloadDone))) ∧
  (find (fun t => Nat.eqb (timer_id t) 3) (timers mutualPreloadPending)
     = Some (mkTimer 3 Awaited
               (Resume (MutualGuildsPreloaded "g1" "g1-general" []))) ∧
   ChannelActionCreators_preload "g1" "g1-general"
     ∈ trace mutualPreloadPending ∧
   "g1" ∉ preloadedGuilds
            (after (step (preloadRejectsEnv "c1") (Fire 3)
                      mutualPreloadPending))).
Proof.
  split; [split|split; [|split]].
  - apply (bool_decide_eq_true_1 _). by vm_compute.
  - vm_compute. repeat constructor.
  - reflexivity.
  - vm_compute. repeat constructor.
  - apply (bool_decide_eq_false_1 _). by vm_compute.
Qed.

Lemma cache_kept_mutualGuildsLoop env mutualGuildIds :
  within cache_kept (mutualGuildsLoop env mutualGuildIds).
Proof. apply within_mutualGuildsLoop; auto with frame; apply _. Qed.

(** C8, amended.  The preloading stage of a join neither consults nor
    updates the cache: preloadGuildData makes the same calls whatever the
    cache holds, and a join leaves the cache as it is.  The cache belongs
    to the bulk preload started by follow: its loop skips a guild that is
    already cached, marks a guild once its preload has succeeded, and
    leaves it unmarked when the preload fails.  Controller start and stop
    empty the cache. *)
Theorem C8_cache_used_by_bulk_preload_only env :
  (∀ channelId, oblivious (preloadGuildData env channelId)) ∧
  (∀ channelId s,
     preloadedGuilds (after (joinVoiceChannel env channelId s))
       = preloadedGuilds s) ∧
  (∀ guildId rest s,
     guildId ∈ preloadedGuilds s ->
     mutualGuildsLoop env (guildId :: rest) s = mutualGuildsLoop env rest s) ∧
  (∀ guildId dc rest s,
     let s' := after (mutualGuildsPreloaded env guildId dc rest s) in
     (preloadSettles env guildId dc = Returns tt ->
      preloadedGuilds s' = {[guildId]} ∪ preloadedGuilds s) ∧
     (preloadSettles env guildId dc = Throws ->
      preloadedGuilds s' = preloadedGuilds s)) ∧
  (∀ s, preloadedGuilds (after (step env Start s)) = ∅ ∧
        preloadedGuilds (after (step env Stop s)) = ∅).
Proof.
  split; [apply oblivious_preloadGuildData|]. split.
  { intros channelId s.
    apply (within_joinVoiceChannel env cache_kept); auto with frame. }
  split.
  { intros guildId rest s Hin. simpl. unfold bind at 1, get.
    by rewrite bool_decide_eq_true_2. }
  split.
  { intros guildId dc rest s s'. subst s'. unfold mutualGuildsPreloaded.
    split; intros ->.
    - done.
    - assert (within cache_kept
        (try_catch (mutualGuildsLoop env rest) (ret Fulfilled))) as H.
      { apply within_try_catch; [apply _| |apply within_ret; apply _].
        apply cache_kept_mutualGuildsLoop. }
      apply H. }
  intros s. cbn [step]. rewrite start_eq, stop_eq. cbn [after].
  by destruct (stopped_fields (cleared s)) as (_ & _ & -> & _).
Qed.

Lemma C8_witness :
  mutualGuildsLoop (inChannelEnv "c1") ["g1"] mutualPreloadDone
    = Ok Fulfilled mutualPreloadDone.
Proof.
  destruct (C8_cache_used_by_bulk_preload_only (inChannelEnv "c1"))
    as (_ & _ & H & _).
  rewrite (H "g1" [] mutualPreloadDone); [reflexivity|].
  apply (bool_decide_eq_true_1 _). by vm_compute.
Defined.

(** ** Properties of the trace *)

(** A property of the trace that further calls do not undo is kept by
    every handler. *)
Section TraceInvariant.

Variable P : list Call -> Prop.
Hypothesis Pcons : ∀ c l, P l -> P (c :: l).

Definition on_trace (s : State) : Prop := P (trace s).

Lemma on_trace_record c s : keeps on_trace s (record c s).
Proof. unfold keeps, on_trace. simpl. auto. Qed.

Lemma on_trace_same s s' : trace s' = trace s -> keeps on_trace s s'.
Proof. unfold keeps, on_trace. by intros ->. Qed.

Lemma on_trace_stopped s : keeps on_trace s (stopped s).
Proof. apply on_trace_same. by destruct (stopped_fields s) as (_&_&_&->&_). Qed.

Lemma on_trace_startSearching env userId uname :
  within (keeps on_trace) (startSearching env userId uname).
Proof.
  intros s. rewrite startSearching_eq. simpl.
  assert (keeps on_trace s
    (record (Toasts_show MESSAGE (searchingMessage uname)) (stopped s))) as H.
  { etransitivity; [apply on_trace_stopped | apply on_trace_record]. }
  destruct (toast env MESSAGE (searchingMessage uname)); simpl; [|done].
  etransitivity; [exact H | by apply on_trace_same].
Qed.

Lemma on_trace_followAction_rest env user p :
  within (keeps on_trace)
    (settle p (ret tt) ;;;
     chanId <-
       external (VoiceStateStore_getVoiceStateForUser (user_id user))
         (getVoiceStateForUser env (user_id user)) ;;
     match truthy chanId with
     | Some chanId =>
         joinVoiceChannel env chanId ;;;
         showToast env SUCCESS (followedMessage (username user))
     | None => startSearching env (user_id user) (username user)
     end).
Proof.
  assert (∀ c s, keeps on_trace s (record c s)) as Hrec
    by apply on_trace_record.
  assert (∀ kind t s, is_searchTick t = false ->
                      keeps on_trace s (add_timer kind t s)) as Htimer
    by (intros; by apply on_trace_same).
  assert (∀ v s, keeps on_trace s (set_lastFollowedChannelId v s)) as Hch
    by (intros; by apply on_trace_same).
  apply (within_bind (keeps on_trace)); [|intros _].
  { apply within_settle; [exact Htimer|].
    apply (within_ret (keeps on_trace)). }
  apply (within_bind (keeps on_trace)); [|intros chanId].
  { apply (within_oblivious (keeps on_trace)); [exact Hrec|].
    apply oblivious_external. }
  destruct (truthy chanId).
  - apply (within_bind (keeps on_trace)); [|intros _].
    + apply within_joinVoiceChannel; try apply _; assumption.
    + apply (within_oblivious (keeps on_trace)); [exact Hrec|].
      apply oblivious_showToast.
  - apply on_trace_startSearching.
Qed.

Lemma on_trace_mutualGuildsContinue env userId mutualGuildIds :
  within (keeps on_trace) (mutualGuildsContinue env userId mutualGuildIds).
Proof.
  apply within_mutualGuildsContinue; try apply _.
  apply on_trace_record.
Qed.

End TraceInvariant.

Lemma after_try_catch {A} (I : State -> Prop) (body handler : M A) s :
  I (after (body s)) ->
  within (keeps I) handler ->
  I (after (try_catch body handler s)).
Proof.
  intros Hb Hh. unfold try_catch. destruct (body s) as [a s'|s']; simpl in *.
  - done.
  - by apply Hh.
Qed.

(** ** C1: join attempts and their stages *)

(** [yields Q m]: every value [m] returns satisfies [Q]. *)
Definition yields {A} (Q : A -> Prop) (m : M A) : Prop :=
  ∀ s, match m s with Ok a _ => Q a | Exn _ => True end.

Lemma yields_ret {A} (Q : A -> Prop) a : Q a -> yields Q (ret a).
Proof. intros H s. exact H. Qed.

Lemma yields_bind {A B} (Q : B -> Prop) (m : M A) (k : A -> M B) :
  (∀ a, yields Q (k a)) -> yields Q (bind m k).
Proof.
  intros Hk s. unfold bind. destruct (m s) as [a s'|s']; [apply Hk | done].
Qed.

Lemma yields_try_catch {A} (Q : A -> Prop) (body handler : M A) :
  yields Q body -> yields Q handler -> yields Q (try_catch body handler).
Proof.
  intros Hb Hh s. unfold try_catch. specialize (Hb s).
  destruct (body s) as [a s'|s']; [done | apply Hh].
Qed.

(** A join attempt waits either for its preload or for its outer timer. *)
Definition preloadPromise (channelId : string) (p : Promise) : Prop :=
  p = Fulfilled ∨
  ∃ guildId, p = Suspended Awaited (PreloadGuildDataResume channelId guildId).

Lemma yields_preloadGuildData env channelId :
  yields (preloadPromise channelId) (preloadGuildData env channelId).
Proof.
  unfold preloadGuildData, preloadGuildData_summaries.
  repeat first
    [ apply yields_ret; solve [by left | right; by eexists]
    | apply yields_try_catch
    | apply yields_bind; intros ?
    | branch ].
Qed.

(** The channel of the join attempt a pending entry belongs to, while
    that attempt has not reached its navigate stage. *)
Definition attemptOf (t : Timer) : option string :=
  match timer_task t with
  | Resume (PreloadGuildDataResume channelId _) => Some channelId
  | NavigateStage channelId => Some channelId
  | _ => None
  end.

(** The join attempts started and not yet past their preload delay,
    newest first. *)
Definition attempts (s : State) : list string := omap attemptOf (timers s).

(** joinVoiceChannel in closed form: the channel is recorded, the calls
    of preloadGuildData are made, and one entry is left pending. *)
Lemma joinVoiceChannel_eq env channelId s :
  ∃ kind t calls,
    joinVoiceChannel env channelId s =
    Ok tt (add_timer kind t
             (records calls (set_lastFollowedChannelId (Some channelId) s))) ∧
    (t = NavigateStage channelId ∨
     ∃ guildId, t = Resume (PreloadGuildDataResume channelId guildId)).
Proof.
  unfold joinVoiceChannel, bind at 1, modify.
  set (s1 := set_lastFollowedChannelId (Some channelId) s).
  destruct (oblivious_preloadGuildData env channelId) as (calls & o & Hrun).
  pose proof (yields_preloadGuildData env channelId s1) as Hp.
  pose proof (safe_preloadGuildData env channelId s1) as Hsafe.
  unfold bind at 1. rewrite Hrun in *. destruct o as [p|]; [|done].
  cbn [finish] in *.
  destruct Hp as [->|[guildId ->]]; cbn [settle].
  - exists (Timeout (preloadDelay (records calls s1))),
      (NavigateStage channelId), calls.
    split; [done | by left].
  - exists Awaited, (Resume (PreloadGuildDataResume channelId guildId)), calls.
    split; [done | right; by exists guildId].
Qed.

Lemma wf_records calls s : wf s -> wf (records calls s).
Proof. intros H. induction calls; simpl; [done | by apply wf_record]. Qed.

Lemma timers_records calls s : timers (records calls s) = timers s.
Proof. by induction calls. Qed.

Lemma joinVoiceChannel_attempt env channelId s :
  wf s ->
  let s' := after (joinVoiceChannel env channelId s) in
  wf s' ∧
  attempts s' = channelId :: attempts s ∧
  lastFollowedChannelId s' = Some channelId.
Proof.
  intros Hwf s'. subst s'.
  destruct (joinVoiceChannel_eq env channelId s)
    as (kind & t & calls & -> & Ht).
  cbn [after].
  split; [|split].
  - apply wf_add_timer; [by destruct Ht as [->|[g ->]]|].
    by apply wf_records, wf_set_lastFollowedChannelId.
  - unfold attempts. cbn [timers add_timer]. rewrite timers_records.
    destruct Ht as [->|[g ->]]; done.
  - cbn. clear. by induction calls.
Qed.

(** What handling a location event leaves alone, apart from a join: the
    pending attempts stay, and the recorded channel stays or is cleared. *)
Definition quiet : relation State :=
  fun s s' =>
    wf s ->
    wf s' ∧
    attempts s' = attempts s ∧
    (lastFollowedChannelId s' = lastFollowedChannelId s ∨
     lastFollowedChannelId s' = None).

#[export] Instance quiet_preorder : PreOrder quiet.
Proof.
  split.
  - intros s Hwf. auto.
  - intros s1 s2 s3 H12 H23 Hwf.
    destruct (H12 Hwf) as (Hwf2 & Ha & Hl).
    destruct (H23 Hwf2) as (Hwf3 & Ha' & Hl').
    split; [done|]. split; [congruence|].
    destruct Hl' as [Hl'|Hl']; [|by right].
    rewrite Hl'. exact Hl.
Qed.

Lemma omap_filter_irrelevant {A B} (f : A -> option B) (P : A -> Prop)
    `{∀ x, Decision (P x)} (l : list A) :
  (∀ x, x ∈ l -> ¬ P x -> f x = None) ->
  omap f (filter P l) = omap f l.
Proof.
  induction l as [|x l IH]; intros Hl; [done|].
  assert (omap f (filter P l) = omap f l) as IH'.
  { apply IH. intros y Hy. apply Hl. by apply list_elem_of_further. }
  rewrite filter_cons. destruct (decide (P x)) as [HP|HP]; simpl.
  - destruct (f x); [f_equal|]; exact IH'.
  - rewrite (Hl x (list_elem_of_here _ _) HP). exact IH'.
Qed.

Lemma attempts_stopped s : wf s -> attempts (stopped s) = attempts s.
Proof.
  intros (_ & _ & Htick & _). unfold stopped, attempts.
  destruct (searchInterval s) as [h|] eqn:Hh; simpl; [|done].
  apply omap_filter_irrelevant. intros t Hin Hid.
  assert (timer_id t = h) as <- by (destruct (decide (timer_id t = h)); done).
  assert (is_searchTick (timer_task t) = true) as Ht
    by (by apply (Htick t Hin)).
  unfold attemptOf. by destruct (timer_task t).
Qed.

Lemma quiet_record c s : quiet s (record c s).
Proof. intros Hwf. split; [by apply wf_record | auto]. Qed.

Lemma quiet_stopped s : quiet s (stopped s).
Proof.
  intros Hwf. split; [by apply wf_stopped|].
  split; [by apply attempts_stopped|].
  left. by destruct (stopped_fields s) as (_ & -> & _).
Qed.

Lemma quiet_cleared s : quiet s (set_lastFollowedChannelId None s).
Proof. intros Hwf. split; [done|]. split; [done | by right]. Qed.

Lemma quiet_startSearching env userId uname :
  within quiet (startSearching env userId uname).
Proof.
  intros s. rewrite startSearching_eq. cbn zeta.
  assert (quiet s
    (record (Toasts_show MESSAGE (searchingMessage uname)) (stopped s))) as H.
  { etransitivity; [apply quiet_stopped | apply quiet_record]. }
  destruct (toast env MESSAGE (searchingMessage uname)); cbn [after]; [|done].
  etransitivity; [exact H|].
  intros Hwf. split; [|split; [done | by left]].
  apply wf_searching; [done|].
  cbn. apply searchInterval_stopped.
Qed.

#[export] Hint Resolve quiet_record quiet_stopped quiet_cleared : frame.
#[export] Hint Resolve quiet_startSearching : within.

(** One location event for the followed identity, delivered alone. *)
Definition locationEvent (followed : string) (channelId : option string)
    : Input :=
  VoiceStateUpdates [mkVoiceState (Some followed) channelId].

Lemma locationEvent_step env followed channelId s :
  wf s ->
  truthy (followedUserId s) = Some followed ->
  let s' := after (step env (locationEvent followed channelId) s) in
  wf s' ∧
  followedUserId s' = followedUserId s ∧
  match truthy channelId with
  | Some c =>
      if same c (lastFollowedChannelId s) then
        attempts s' = attempts s ∧
        lastFollowedChannelId s' = lastFollowedChannelId s
      else
        attempts s' = c :: attempts s ∧
        (lastFollowedChannelId s' = Some c ∨ lastFollowedChannelId s' = None)
  | None =>
      attempts s' = attempts s ∧
      (lastFollowedChannelId s' = lastFollowedChannelId s ∨
       lastFollowedChannelId s' = None)
  end.
Proof.
  intros Hwf Hf s'.
  split; [by apply (wf_step env (locationEvent followed channelId) s)|].
  split; [apply target_kept_VOICE_STATE_UPDATES|].
  subst s'. unfold locationEvent. cbn [step].
  rewrite (VOICE_STATE_UPDATES_single env followed) by done.
  assert (∀ r : Res bool,
    after (match r with Ok _ s' => Ok tt s' | Exn s' => Exn s' end)
      = after r) as -> by (by intros []).
  destruct (truthy channelId) as [c|] eqn:Hc.
  - destruct (same c (lastFollowedChannelId s)) eqn:Hsame.
    + apply same_true in Hsame.
      by rewrite (voiceStateUpdate_same env followed _ c).
    + rewrite (voiceStateUpdate_new env followed _ c) by done.
      destruct (joinVoiceChannel_attempt env c (stopped s))
        as (Hwf1 & Ha1 & Hl1); [by apply wf_stopped|].
      rewrite attempts_stopped in Ha1 by done.
      set (m := (uname <-
                   external (UserStore_getUser followed) (getUser env followed) ;;
                 showToast env SUCCESS
                   (followedMessage (default "user" (truthy uname))) ;;;
                 ret false)).
      assert (within quiet m) as Hm by (subst m; within_auto).
      assert ((joinVoiceChannel env c ;;; m) (stopped s) =
              match joinVoiceChannel env c (stopped s) with
              | Ok _ s1 => m s1
              | Exn s1 => Exn s1
              end) as -> by reflexivity.
      destruct (joinVoiceChannel env c (stopped s)) as [[] s1|s1];
        cbn [after] in *.
      * destruct (Hm s1 Hwf1) as (_ & Ha & Hl).
        split; [congruence|]. rewrite Hl1 in Hl. exact Hl.
      * split; [done | by left].
  - rewrite voiceStateUpdate_left by done.
    match goal with |- context [after (?m s)] =>
      assert (within quiet m) as Hm by within_auto end.
    destruct (Hm s Hwf) as (_ & Ha & Hl). by split.
Qed.

(** [oblivious_in P m]: as [oblivious m], and every call made is in [P]. *)
Definition oblivious_in (P : Call -> Prop) {A} (m : M A) : Prop :=
  ∃ calls o,
    (∀ s, m s = finish o (records calls s)) ∧ Forall P calls.

Section ObliviousIn.

Context (P : Call -> Prop) {A B : Type}.

Lemma oblivious_in_ret (a : A) : oblivious_in P (ret a).
Proof. exists [], (Some a). split; [done | constructor]. Qed.

Lemma oblivious_in_external (c : Call) (r : Attempt A) :
  P c -> oblivious_in P (external c r).
Proof.
  intros Hc. destruct r as [a|].
  - exists [c], (Some a). split; [done | by repeat constructor].
  - exists [c], None. split; [done | by repeat constructor].
Qed.

Lemma oblivious_in_bind (m : M A) (k : A -> M B) :
  oblivious_in P m -> (∀ a, oblivious_in P (k a)) ->
  oblivious_in P (bind m k).
Proof.
  intros (c1 & [a|] & Hm & H1) Hk.
  - destruct (Hk a) as (c2 & o2 & Hka & H2).
    exists (c2 ++ c1), o2. split; [|by apply Forall_app].
    intros s. unfold bind. rewrite Hm. simpl. rewrite Hka.
    by rewrite records_app.
  - exists c1, None. split; [|done]. intros s. unfold bind. by rewrite Hm.
Qed.

Lemma oblivious_in_try_catch (body handler : M A) :
  oblivious_in P body -> oblivious_in P handler ->
  oblivious_in P (try_catch body handler).
Proof.
  intros (c1 & [a|] & Hm & H1) (c2 & o2 & Hh & H2).
  - exists c1, (Some a). split; [|done].
    intros s. unfold try_catch. by rewrite Hm.
  - exists (c2 ++ c1), o2. split; [|by apply Forall_app].
    intros s. unfold try_catch. rewrite Hm. simpl. rewrite Hh.
    by rewrite records_app.
Qed.

End ObliviousIn.

Ltac oblivious_in_auto :=
  repeat first
    [ apply oblivious_in_ret
    | apply oblivious_in_external; exact I
    | apply oblivious_in_bind; [|intros ?]
    | apply oblivious_in_try_catch
    | branch ].

(** The calls of the two permission checks. *)
Definition permission_query (c : Call) : Prop :=
  match c with
  | ChannelStore_getChannel _ | Channel_isPrivate _ | PermissionStore_can _ _ =>
      True
  | _ => False
  end.

Lemma canViewChannel_queries env channelId :
  oblivious_in permission_query (canViewChannel env channelId).
Proof.
  unfold canViewChannel, channelIsPrivate, permissionCan. oblivious_in_auto.
Qed.

Lemma canJoinChannel_queries env channelId :
  oblivious_in permission_query (canJoinChannel env channelId).
Proof.
  unfold canJoinChannel, channelIsPrivate, permissionCan. oblivious_in_auto.
Qed.

(** The navigate stage makes the same calls in every state, and
    navigates nowhere but to the channel it was armed with. *)
Lemma navigateStage_calls env channelId :
  ∃ calls,
    (∀ s, since s (after (navigateStage env channelId s)) = calls) ∧
    (∀ x, ChannelRouter_transitionToChannel x ∈ calls -> x = channelId) ∧
    (∀ x, ChannelActions_selectVoiceChannel x ∉ calls) ∧
    (∀ s s1, canViewChannel env (Some channelId) s = Ok true s1 ->
             ChannelRouter_transitionToChannel channelId ∈ calls).
Proof.
  destruct (canViewChannel_queries env (Some channelId))
    as (calls & o & Hrun & Hq).
  assert (∀ c, c ∈ calls -> permission_query c) as Hq'
    by (by apply Forall_forall).
  unfold navigateStage, attempt, setTimeout.
  destruct o as [[|]|].
  - exists (ChannelRouter_transitionToChannel channelId :: calls).
    split; [|split; [|split]].
    + intros s. unfold bind, try_catch, external, modify, ret.
      rewrite Hrun. cbn [finish].
      apply since_extend.
      destruct (transitionToChannel env channelId); cbn;
        by rewrite trace_records.
    + intros x [[= ->]|Hin]%elem_of_cons; [done|].
      by apply Hq' in Hin.
    + intros x [[=]|Hin]%elem_of_cons. by apply Hq' in Hin.
    + intros _ _ _. apply list_elem_of_here.
  - exists calls. split; [|split; [|split]].
    + intros s. unfold bind, modify, ret. rewrite Hrun. cbn.
      apply since_extend. by rewrite trace_records.
    + intros x Hin. by apply Hq' in Hin.
    + intros x Hin. by apply Hq' in Hin.
    + intros s s1. rewrite Hrun. discriminate.
  - exists calls. split; [|split; [|split]].
    + intros s. unfold bind. rewrite Hrun. cbn.
      apply since_extend. by rewrite trace_records.
    + intros x Hin. by apply Hq' in Hin.
    + intros x Hin. by apply Hq' in Hin.
    + intros s s1. rewrite Hrun. discriminate.
Qed.

(** The connect stage makes the same calls in every state, and connects
    nowhere but to the channel it was armed with. *)
Lemma connectStage_calls env channelId :
  ∃ calls,
    (∀ s, since s (after (connectStage env channelId s)) = calls) ∧
    (∀ x, ChannelActions_selectVoiceChannel x ∈ calls ->
          x = Some channelId) ∧
    (∀ s s1, canJoinChannel env (Some channelId) s = Ok true s1 ->
             ChannelActions_selectVoiceChannel (Some channelId) ∈ calls).
Proof.
  destruct (canJoinChannel_queries env (Some channelId))
    as (calls & o & Hrun & Hq).
  assert (∀ c, c ∈ calls -> permission_query c) as Hq'
    by (by apply Forall_forall).
  unfold connectStage.
  destruct o as [[|]|].
  - exists (ChannelActions_selectVoiceChannel (Some channelId) :: calls).
    split; [|split].
    + intros s. unfold bind, external. rewrite Hrun. cbn [finish].
      apply since_extend.
      destruct (selectVoiceChannel env (Some channelId)); cbn;
        by rewrite trace_records.
    + intros x [[= ->]|Hin]%elem_of_cons; [done|].
      by apply Hq' in Hin.
    + intros _ _ _. apply list_elem_of_here.
  - exists calls. split; [|split].
    + intros s. unfold bind, ret. rewrite Hrun. cbn.
      apply since_extend. by rewrite trace_records.
    + intros x Hin. by apply Hq' in Hin.
    + intros s s1. rewrite Hrun. discriminate.
  - exists calls. split; [|split].
    + intros s. unfold bind. rewrite Hrun. cbn.
      apply since_extend. by rewrite trace_records.
    + intros x Hin. by apply Hq' in Hin.
    + intros s s1. rewrite Hrun. discriminate.
Qed.

(** ** Runs of location events and pending stages *)

Definition deliverAll (followed : string)
    (events : list (Env * option string)) : list (Env * Input) :=
  (fun ev => (ev.1, locationEvent followed ev.2)) <$> events.

(** The last channel id delivered by a sequence of location events. *)
Definition lastDelivered (events : list (Env * option string))
    : option string :=
  last (omap (fun ev => truthy ev.2) events).

(** The channel id an input delivers, if it is a location event. *)
Definition delivered (i : Input) : option string :=
  match i with
  | VoiceStateUpdates [vs] => truthy (vs_channelId vs)
  | _ => None
  end.

(** The last channel id delivered in a run. *)
Definition lastDeliveredIn (inputs : list (Env * Input)) : option string :=
  last (omap (fun x => delivered x.2) inputs).

Fixpoint remove1 (x : string) (l : list string) : list string :=
  match l with
  | [] => []
  | y :: l => if String.eqb x y then l else y :: remove1 x l
  end.

(** [l] without one occurrence of each element of [a]. *)
Definition minus (l a : list string) : list string :=
  foldl (fun acc x => remove1 x acc) l a.

(** The join attempts an input starts: the channels with more attempts
    pending after the input than before it. *)
Definition startedBy (env : Env) (i : Input) (s : State) : list string :=
  minus (attempts (after (step env i s))) (attempts s).

(** The join attempts started during a run, newest first. *)
Fixpoint starts (inputs : list (Env * Input)) (s : State) : list string :=
  match inputs with
  | [] => []
  | (env, i) :: rest => starts rest (after (step env i s)) ++ startedBy env i s
  end.

(** An input of the runs considered: one location event for the followed
    identity, or the firing of a pending one-shot entry (a continuation
    or a timeout; the search loop's interval is not one). *)
Definition eventOrStage (followed : string) (i : Input) (s : State) : bool :=
  match i with
  | VoiceStateUpdates [vs] => bool_decide (vs_userId vs = Some followed)
  | Fire id =>
      forallb (fun t => negb (Nat.eqb (timer_id t) id && is_interval t))
        (timers s)
  | _ => false
  end.

Fixpoint eventsAndStages (followed : string) (inputs : list (Env * Input))
    (s : State) : bool :=
  match inputs with
  | [] => true
  | (env, i) :: rest =>
      eventOrStage followed i s &&
      eventsAndStages followed rest (after (step env i s))
  end.

Lemma run_app l1 l2 s : run (l1 ++ l2) s = run l2 (run l1 s).
Proof.
  revert s. induction l1 as [|[env i] l1 IH]; intros s; simpl; [done|].
  apply IH.
Qed.

Lemma starts_app l1 l2 s :
  starts (l1 ++ l2) s = starts l2 (run l1 s) ++ starts l1 s.
Proof.
  revert s. induction l1 as [|[env i] l1 IH]; intros s; cbn [app starts run].
  - by rewrite app_nil_r.
  - by rewrite IH, app_assoc.
Qed.

Lemma eventsAndStages_app followed l1 l2 s :
  eventsAndStages followed (l1 ++ l2) s =
  eventsAndStages followed l1 s && eventsAndStages followed l2 (run l1 s).
Proof.
  revert s. induction l1 as [|[env i] l1 IH]; intros s;
    cbn [app eventsAndStages run]; [done|].
  by rewrite IH, andb_assoc.
Qed.

Lemma lastDeliveredIn_snoc inputs env i :
  lastDeliveredIn (inputs ++ [(env, i)]) =
  match delivered i with
  | Some c => Some c
  | None => lastDeliveredIn inputs
  end.
Proof.
  unfold lastDeliveredIn. rewrite omap_app.
  change (omap (fun x : Env * Input => delivered x.2) [(env, i)])
    with (match delivered i with Some c => [c] | None => [] end).
  destruct (delivered i) as [c|].
  - apply last_snoc.
  - by rewrite app_nil_r.
Qed.

Lemma lastDeliveredIn_deliverAll followed events :
  lastDeliveredIn (deliverAll followed events) = lastDelivered events.
Proof.
  unfold lastDeliveredIn, lastDelivered, deliverAll. f_equal.
  induction events as [|[env c] events IH]; [done|].
  cbn. destruct (truthy c); by rewrite IH.
Qed.

Lemma remove1_perm x l : x ∈ l -> l ≡ₚ x :: remove1 x l.
Proof.
  induction l as [|y l IH]; intros Hin; [by apply elem_of_nil in Hin|].
  cbn. destruct (String.eqb_spec x y) as [->|Hne]; [done|].
  apply elem_of_cons in Hin as [->|Hin]; [done|].
  rewrite (IH Hin) at 1. apply Permutation_swap.
Qed.

Lemma remove1_notin x l : x ∉ l -> remove1 x l = l.
Proof.
  induction l as [|y l IH]; intros Hnin; [done|].
  apply not_elem_of_cons in Hnin as [Hne Hnin]. cbn.
  destruct (String.eqb_spec x y) as [->|_]; [done|]. by rewrite IH.
Qed.

(** No channel has more attempts than before: nothing was started. *)
Lemma minus_submseteq a : ∀ l, l ⊆+ a -> minus l a = [].
Proof.
  induction a as [|x a IH]; intros l Hl.
  - by apply submseteq_nil_r in Hl as ->.
  - cbn. apply IH. destruct (decide (x ∈ l)) as [Hin|Hnin].
    + rewrite (remove1_perm x l Hin) in Hl.
      by apply (submseteq_app_inv_l _ _ [x]).
    + rewrite remove1_notin by done.
      apply submseteq_cons_r in Hl as [Hl|(k & Hk & _)]; [done|].
      exfalso. apply Hnin. rewrite Hk. apply list_elem_of_here.
Qed.

(** One more attempt for [c] than before: one was started, for [c]. *)
Lemma minus_one c a : ∀ l, l ≡ₚ c :: a -> minus l a = [c].
Proof.
  induction a as [|x a IH]; intros l Hl.
  - by apply Permutation_singleton_r in Hl as ->.
  - cbn. apply IH.
    assert (x ∈ l) as Hin
      by (rewrite Hl; apply list_elem_of_further, list_elem_of_here).
    rewrite (remove1_perm x l Hin) in Hl.
    rewrite (Permutation_swap x c a) in Hl.
    by apply Permutation_cons_inv in Hl.
Qed.

(** What the firing of a stage or of a bulk-preload continuation leaves
    alone: the session and the pending attempts. *)
Definition steady : relation State :=
  fun s s' =>
    followedUserId s' = followedUserId s ∧
    lastFollowedChannelId s' = lastFollowedChannelId s ∧
    attempts s' = attempts s.

#[export] Instance steady_preorder : PreOrder steady.
Proof.
  split.
  - by intros s.
  - intros s1 s2 s3 (H1 & H2 & H3) (H4 & H5 & H6).
    repeat split; congruence.
Qed.

Lemma steady_record c s : steady s (record c s).
Proof. done. Qed.

Lemma steady_cache v s : steady s (set_preloadedGuilds v s).
Proof. done. Qed.

Lemma steady_connect_timer kind c s :
  steady s (add_timer kind (ConnectStage c) s).
Proof. done. Qed.

#[export] Hint Resolve steady_record steady_cache steady_connect_timer : frame.

Lemma steady_navigateStage env c : within steady (navigateStage env c).
Proof. unfold navigateStage, attempt, setTimeout. within_auto. Qed.

Lemma steady_connectStage env c : within steady (connectStage env c).
Proof. unfold connectStage. within_auto. Qed.

(** A promise of the bulk preload: not one a join attempt waits for. *)
Definition bulkPromise (p : Promise) : Prop :=
  match p with
  | Suspended _ (PreloadGuildDataResume _ _) => False
  | _ => True
  end.

Lemma steady_settle_bulk (m : M Promise) :
  within steady m -> yields bulkPromise m ->
  within steady (p <- m ;; settle p (ret tt)).
Proof.
  intros Hm Hy s. unfold bind. specialize (Hm s). specialize (Hy s).
  destruct (m s) as [p s1|s1]; cbn [after] in *; [|done].
  etransitivity; [exact Hm|].
  destruct p as [| |kind k]; [reflexivity..|].
  cbn [settle]. unfold modify. cbn [after]. by destruct k.
Qed.

Ltac yields_bulk :=
  repeat first
    [ apply yields_ret; exact I
    | assumption
    | apply yields_try_catch
    | apply yields_bind; intros ?
    | branch ].

Lemma steady_mutualGuildsLoop env ids :
  within steady (mutualGuildsLoop env ids) ∧
  yields bulkPromise (mutualGuildsLoop env ids).
Proof.
  induction ids as [|g rest [IH1 IH2]]; cbn [mutualGuildsLoop].
  - split; [apply (within_ret steady) | by apply yields_ret].
  - split.
    + unfold requestChannelSummaries. within_auto.
    + yields_bulk.
Qed.

Lemma steady_resume env k :
  match k with PreloadGuildDataResume _ _ => False | _ => True end ->
  within steady (resume env k).
Proof.
  destruct k as [c g|userId|g dc rest|g rest]; intros Hk; [done|..];
    cbn [resume]; apply steady_settle_bulk.
  - unfold mutualGuildsResponse, mutualGuildsContinue.
    within_auto; apply steady_mutualGuildsLoop.
  - unfold mutualGuildsResponse, mutualGuildsContinue.
    yields_bulk; apply steady_mutualGuildsLoop.
  - unfold mutualGuildsPreloaded. within_auto; apply steady_mutualGuildsLoop.
  - unfold mutualGuildsPreloaded. yields_bulk; apply steady_mutualGuildsLoop.
  - unfold mutualGuildsPause, attempt, requestChannelSummaries.
    within_auto; apply steady_mutualGuildsLoop.
  - unfold mutualGuildsPause. yields_bulk; apply steady_mutualGuildsLoop.
Qed.

(** The task of a one-shot entry: the continuation of an awaited preload
    puts its attempt back as the outer timer, every other one leaves the
    pending attempts as they are. *)
Lemma runTask_oneshot env t s :
  is_searchTick t = false ->
  ∃ s', after (runTask env t s) = s' ∧
    followedUserId s' = followedUserId s ∧
    lastFollowedChannelId s' = lastFollowedChannelId s ∧
    attempts s' =
      match t with
      | Resume (PreloadGuildDataResume c _) => c :: attempts s
      | _ => attempts s
      end.
Proof.
  intros Ht. eexists. split; [reflexivity|].
  destruct t as [k|c|c|u n]; [|apply steady_navigateStage
                                |apply steady_connectStage|done].
  destruct k as [c g|userId|g dc rest|g rest];
    [|by apply (steady_resume env)..].
  cbn [runTask resume]. unfold preloadGuildDataResume,
    preloadGuildData_summaries, attempt, requestChannelSummaries,
    getPreloadDelay, setTimeout, bind, try_catch, external, get, modify, ret.
  by destruct (dispatch env g).
Qed.

Lemma attempts_removeTimer (ts : list Timer) (e : Timer) :
  NoDup (timer_id <$> ts) -> e ∈ ts ->
  omap attemptOf ts ≡ₚ
  from_option (fun c => [c]) [] (attemptOf e) ++
  omap attemptOf (filter (fun t => timer_id t ≠ timer_id e) ts).
Proof.
  induction ts as [|t ts IH]; intros Hnd Hin;
    [by apply elem_of_nil in Hin|].
  rewrite fmap_cons in Hnd. apply NoDup_cons in Hnd as [Hfresh Hnd].
  apply elem_of_cons in Hin as [->|Hin].
  - rewrite filter_cons_False by (intros H; by apply H).
    assert (filter (fun t' => timer_id t' ≠ timer_id t) ts = ts) as ->.
    { clear -Hfresh. induction ts as [|t' ts IH]; [done|].
      apply not_elem_of_cons in Hfresh as [Hne Hfresh].
      rewrite filter_cons_True by done. by rewrite IH. }
    change (omap attemptOf (t :: ?l))
      with (match attemptOf t with
            | Some c => c :: omap attemptOf l
            | None => omap attemptOf l
            end).
    by destruct (attemptOf t).
  - assert (timer_id t ≠ timer_id e) as Hne.
    { intros Heq. apply Hfresh. rewrite Heq.
      by apply list_elem_of_fmap_2. }
    rewrite filter_cons_True by done.
    pose proof (IH Hnd Hin) as IH'.
    change (omap attemptOf (t :: ?l))
      with (match attemptOf t with
            | Some c => c :: omap attemptOf l
            | None => omap attemptOf l
            end).
    destruct (attemptOf t) as [c|]; [|exact IH'].
    rewrite IH'. apply Permutation_middle.
Qed.

(** Firing a pending one-shot entry starts no attempt and leaves the
    session alone. *)
Lemma fire_oneshot env id s :
  wf s ->
  forallb (fun t => negb (Nat.eqb (timer_id t) id && is_interval t))
    (timers s) = true ->
  ∃ s', after (step env (Fire id) s) = s' ∧
    followedUserId s' = followedUserId s ∧
    lastFollowedChannelId s' = lastFollowedChannelId s ∧
    attempts s' ⊆+ attempts s.
Proof.
  intros Hwf Hall.
  destruct (find (fun t => Nat.eqb (timer_id t) id) (timers s))
    as [e|] eqn:Hfind.
  2: { exists s. split; [|done]. cbn [step]. unfold fire, bind, get.
       by rewrite Hfind. }
  assert (step env (Fire id) s =
          ((if is_interval e then ret tt else modify (removeTimer id)) ;;;
           runTask env (timer_task e)) s) as Hstep.
  { cbn [step]. unfold fire, bind at 1, get. by rewrite Hfind. }
  pose proof Hwf as (Hnd & _ & _ & Hint & _).
  apply find_some in Hfind as [Hin Hid].
  apply list_elem_of_In in Hin.
  assert (is_interval e = false) as Hone.
  { rewrite forallb_forall in Hall.
    specialize (Hall e (proj1 (list_elem_of_In _ _) Hin)).
    rewrite Hid in Hall. by destruct (is_interval e). }
  apply Nat.eqb_eq in Hid. subst id.
  assert (is_searchTick (timer_task e) = false) as Htick.
  { destruct (is_searchTick (timer_task e)) eqn:Ht; [|done].
    apply (Hint e Hin) in Ht. congruence. }
  rewrite Hone in Hstep. unfold bind, modify in Hstep.
  destruct (runTask_oneshot env (timer_task e)
              (removeTimer (timer_id e) s) Htick)
    as (s' & Hs' & Hf & Hl & Ha).
  exists s'. split; [by rewrite Hstep|].
  split; [exact Hf|]. split; [exact Hl|].
  pose proof (attempts_removeTimer (timers s) e Hnd Hin) as Hperm.
  fold (attempts s) in Hperm.
  change (omap attemptOf
            (filter (fun t => timer_id t ≠ timer_id e) (timers s)))
    with (attempts (removeTimer (timer_id e) s)) in Hperm.
  rewrite Ha, Hperm. unfold attemptOf.
  destruct (timer_task e) as [[c g|?|? ? ?|? ?]|c|c|u n]; cbn; try done.
  by apply submseteq_cons.
Qed.

(** A location event with a channel other than the recorded one records
    that channel. *)
Lemma locationEvent_new env followed channelId c s :
  truthy (followedUserId s) = Some followed ->
  truthy channelId = Some c ->
  same c (lastFollowedChannelId s) = false ->
  lastFollowedChannelId (after (step env (locationEvent followed channelId) s))
    = Some c.
Proof.
  intros Hf Hc Hsame. unfold locationEvent. cbn [step].
  rewrite (VOICE_STATE_UPDATES_single env followed) by done.
  assert (∀ r : Res bool,
    after (match r with Ok _ s' => Ok tt s' | Exn s' => Exn s' end)
      = after r) as -> by (by intros []).
  rewrite (voiceStateUpdate_new env followed _ c) by done.
  apply (after_bind (fun s' => lastFollowedChannelId s' = Some c)).
  - apply joinVoiceChannel_records.
  - intros _. apply keeps_session_kept.
    + intros s1 s2 [_ H2] H1. congruence.
    + within_auto.
Qed.

(** What one input of such a run does: whether it starts an attempt, and
    what it records. *)
Lemma eventOrStage_step env followed i s :
  wf s ->
  truthy (followedUserId s) = Some followed ->
  eventOrStage followed i s = true ->
  ∃ s', after (step env i s) = s' ∧
    wf s' ∧
    followedUserId s' = followedUserId s ∧
    match delivered i with
    | Some c =>
        if same c (lastFollowedChannelId s) then
          startedBy env i s = [] ∧
          lastFollowedChannelId s' = lastFollowedChannelId s
        else
          startedBy env i s = [c] ∧ lastFollowedChannelId s' = Some c
    | None =>
        startedBy env i s = [] ∧
        (lastFollowedChannelId s' = lastFollowedChannelId s ∨
         lastFollowedChannelId s' = None)
    end.
Proof.
  intros Hwf Hf Hi. eexists. split; [reflexivity|].
  split; [by apply (wf_step env i s)|].
  destruct i as [| | | |updates|id]; try done.
  - destruct updates as [|[u channelId] [|]]; try done.
    cbn [eventOrStage vs_userId] in Hi. apply bool_decide_eq_true_1 in Hi.
    subst u. change (VoiceStateUpdates [mkVoiceState (Some followed) channelId])
      with (locationEvent followed channelId).
    destruct (locationEvent_step env followed channelId s Hwf Hf)
      as (_ & Hf' & Hstep).
    split; [exact Hf'|].
    change (delivered (locationEvent followed channelId))
      with (truthy channelId).
    unfold startedBy.
    destruct (truthy channelId) as [c|] eqn:Hc.
    + destruct (same c (lastFollowedChannelId s)) eqn:Hsame.
      * destruct Hstep as [-> ->]. split; [|done].
        by apply minus_submseteq.
      * destruct Hstep as [-> _]. split; [by apply minus_one|].
        by apply (locationEvent_new env followed channelId).
    + destruct Hstep as [-> Hl]. split; [|exact Hl].
      by apply minus_submseteq.
  - cbn [eventOrStage] in Hi.
    destruct (fire_oneshot env id s Hwf Hi) as (s' & Hs' & Hf' & Hl & Ha).
    cbn [delivered]. unfold startedBy. rewrite Hs'.
    split; [exact Hf'|]. split; [by apply minus_submseteq | by left].
Qed.

(** Along a run of location events and firing one-shot entries, the
    attempt started last is for the channel delivered last; none is
    started only while the channel delivered is the recorded one. *)
Lemma run_startedLast followed s :
  wf s ->
  truthy (followedUserId s) = Some followed ->
  ∀ inputs,
    eventsAndStages followed inputs s = true ->
    ∃ s', run inputs s = s' ∧
      wf s' ∧
      followedUserId s' = followedUserId s ∧
      match lastDeliveredIn inputs with
      | Some c =>
          (head (starts inputs s) = Some c ∨
           (starts inputs s = [] ∧ lastFollowedChannelId s = Some c)) ∧
          (lastFollowedChannelId s' = Some c ∨
           lastFollowedChannelId s' = None)
      | None =>
          starts inputs s = [] ∧
          (lastFollowedChannelId s' = lastFollowedChannelId s ∨
           lastFollowedChannelId s' = None)
      end.
Proof.
  intros Hwf Hf inputs.
  induction inputs as [|[env i] inputs IH] using rev_ind; intros Hall.
  - exists s. cbn. split; [done|]. split; [exact Hwf|]. auto.
  - rewrite eventsAndStages_app in Hall.
    apply andb_true_iff in Hall as [Hall Hi].
    cbn [eventsAndStages] in Hi. rewrite andb_true_r in Hi.
    destruct (IH Hall) as (s1 & Hs1 & Hwf1 & Hf1 & Hlast).
    rewrite Hs1 in Hi.
    assert (truthy (followedUserId s1) = Some followed) as Hf1'
      by (by rewrite Hf1).
    destruct (eventOrStage_step env followed i s1 Hwf1 Hf1' Hi)
      as (s2 & Hs2 & Hwf2 & Hf2 & Hstep).
    exists s2. rewrite run_app, Hs1. cbn [run].
    split; [exact Hs2|]. split; [exact Hwf2|]. split; [congruence|].
    rewrite starts_app, Hs1. cbn [starts app].
    rewrite lastDeliveredIn_snoc.
    destruct (delivered i) as [d|].
    + destruct (same d (lastFollowedChannelId s1)) eqn:Hsame.
      * destruct Hstep as [-> Hl]. apply same_true in Hsame.
        cbn [app]. split; [|left; congruence].
        destruct (lastDeliveredIn inputs) as [c|].
        -- destruct Hlast as [Hhead [Hl1|Hl1]]; [|congruence].
           assert (c = d) as -> by congruence. exact Hhead.
        -- destruct Hlast as [Hnone [Hl1|Hl1]]; [|congruence].
           right. split; [done | congruence].
      * destruct Hstep as [-> Hl]. cbn [app head]. split; by left.
    + destruct Hstep as [-> Hl]. cbn [app].
      destruct (lastDeliveredIn inputs) as [c|].
      * destruct Hlast as [Hhead Hl1]. split; [exact Hhead|].
        destruct Hl as [Hl|Hl]; [rewrite Hl; exact Hl1 | by right].
      * destruct Hlast as [Hnone Hl1]. split; [exact Hnone|].
        destruct Hl as [Hl|Hl]; [rewrite Hl; exact Hl1 | by right].
Qed.

Lemma eventsAndStages_deliverAll followed events s :
  eventsAndStages followed (deliverAll followed events) s = true.
Proof.
  revert s. induction events as [|[env c] events IH]; intros s; [done|].
  cbn [deliverAll fmap list_fmap eventsAndStages fst snd].
  unfold locationEvent at 1. cbn [eventOrStage vs_userId].
  rewrite bool_decide_eq_true_2 by done. apply IH.
Qed.

(** Location events delivered back to back: the attempts they start are
    stacked on the pending ones. *)
Lemma events_stack followed s :
  wf s ->
  truthy (followedUserId s) = Some followed ->
  ∀ events,
    wf (run (deliverAll followed events) s) ∧
    followedUserId (run (deliverAll followed events) s) = followedUserId s ∧
    attempts (run (deliverAll followed events) s) =
    starts (deliverAll followed events) s ++ attempts s.
Proof.
  intros Hwf Hf events.
  induction events as [|[env channelId] events IH] using rev_ind; [done|].
  unfold deliverAll. rewrite fmap_app, run_app, starts_app.
  fold (deliverAll followed events). cbn [fmap list_fmap run starts fst snd].
  destruct IH as (Hwf1 & Hf1 & Ha1).
  set (s1 := run (deliverAll followed events) s) in *.
  assert (truthy (followedUserId s1) = Some followed) as Hf1'
    by (by rewrite Hf1).
  destruct (locationEvent_step env followed channelId s1 Hwf1 Hf1')
    as (Hwf2 & Hf2 & Hstep).
  split; [exact Hwf2|]. split; [congruence|].
  unfold startedBy. cbn [app].
  destruct (truthy channelId) as [c|].
  - destruct (same c (lastFollowedChannelId s1)).
    + destruct Hstep as [-> _]. by rewrite minus_submseteq.
    + destruct Hstep as [-> _].
      rewrite (minus_one c (attempts s1)) by done. by rewrite Ha1.
  - destruct Hstep as [-> _]. by rewrite minus_submseteq.
Qed.

(** Channel c1 lies in guild g1, every other channel in g2; "A" sits in
    c1. *)
Definition twoGuildsEnv : Env :=
  calmEnv (fun u => if String.eqb u "A" then Some "c1" else None)
    (fun id => Some (mkChannel id
                 (Some (if String.eqb id "c1" then "g1" else "g2"))))
    None.

(** "A" is followed into c1 and then moves to c2.  The preload of the
    second attempt settles first, so its stages run (entries 3, 4, 5);
    then the preload of the first attempt settles and its stages run
    (entries 2, 6, 7). *)
Definition staleAttemptResumes : State :=
  run [(twoGuildsEnv, ContextAction alice);
       (twoGuildsEnv, locationEvent "A" (Some "c2"));
       (twoGuildsEnv, Fire 3); (twoGuildsEnv, Fire 4); (twoGuildsEnv, Fire 5);
       (twoGuildsEnv, Fire 2); (twoGuildsEnv, Fire 6); (twoGuildsEnv, Fire 7)]
    initial.

(** "A" is followed into c1, the controller is stopped while the attempt
    waits for its outer timer (entry 3), and the stages run afterwards. *)
Definition attemptResumesAfterStop : State :=
  run [(twoGuildsEnv, ContextAction alice);
       (twoGuildsEnv, Fire 2);
       (twoGuildsEnv, Stop);
       (twoGuildsEnv, Fire 3); (twoGuildsEnv, Fire 4)]
    initial.

(** C1, as stated, fails: the stages of an attempt use the channel id
    the attempt was started with.  An attempt for c1 that resumes after
    c2 has been recorded still navigates and connects to c1, here after
    the attempt for c2 has connected; and an attempt that resumes after
    stop() does the same. *)
Lemma C1_counterexample :
  (lastFollowedChannelId staleAttemptResumes = Some "c2" ∧
   take 12 (trace staleAttemptResumes) =
     [ChannelActions_selectVoiceChannel (Some "c1");
      PermissionStore_can CONNECT (mkChannel "c1" (Some "g1"));
      PermissionStore_can VIEW_CHANNEL (mkChannel "c1" (Some "g1"));
      Channel_isPrivate (mkChannel "c1" (Some "g1"));
      ChannelStore_getChannel "c1";
      ChannelRouter_transitionToChannel "c1";
      PermissionStore_can VIEW_CHANNEL (mkChannel "c1" (Some "g1"));
      Channel_isPrivate (mkChannel "c1" (Some "g1"));
      ChannelStore_getChannel "c1";
      FluxDispatcher_dispatch "g1";
      ChannelActions_selectVoiceChannel (Some "c2");
      PermissionStore_can CONNECT (mkChannel "c2" (Some "g2"))]) ∧
  (followedUserId attemptResumesAfterStop = None ∧
   lastFollowedChannelId attemptResumesAfterStop = None ∧
   take 6 (trace attemptResumesAfterStop) =
     [ChannelActions_selectVoiceChannel (Some "c1");
      PermissionStore_can CONNECT (mkChannel "c1" (Some "g1"));
      PermissionStore_can VIEW_CHANNEL (mkChannel "c1" (Some "g1"));
      Channel_isPrivate (mkChannel "c1" (Some "g1"));
      ChannelStore_getChannel "c1";
      ChannelRouter_transitionToChannel "c1"]).
Proof. repeat split; reflexivity. Qed.

(** C1, amended.  joinVoiceChannel records its channel id at once.  The
    two stages of an attempt do not read the session: in every state
    they make the same collaborator calls, the navigate stage navigates
    only to the channel id the attempt was started with (and does so
    whenever canViewChannel answers true), and the connect stage
    connects only to that id (and does so whenever canJoinChannel
    answers true).  A location event for the followed identity starts
    exactly one attempt, for the channel it delivers, when that channel
    is not the recorded one, and none when it is or when the event
    delivers no channel.  In every run made of such events, each
    delivered alone, and of pending continuations and timeouts firing
    in between (the ticks of the search loop are left out: a poll
    starts attempts of its own), the attempt started last is for the
    last channel id delivered; none is started only if every channel
    delivered was the one recorded at the beginning.  When the events
    follow each other with nothing firing in between, the attempts they
    start are stacked on the pending ones, newest first. *)
Theorem C1_stages_use_captured_channel env channelId :
  (∀ s, lastFollowedChannelId (after (joinVoiceChannel env channelId s))
          = Some channelId) ∧
  (∃ navigateCalls connectCalls,
     (∀ s, since s (after (navigateStage env channelId s)) = navigateCalls) ∧
     (∀ s, since s (after (connectStage env channelId s)) = connectCalls) ∧
     (∀ x, ChannelRouter_transitionToChannel x ∈ navigateCalls ->
           x = channelId) ∧
     (∀ x, ChannelActions_selectVoiceChannel x ∉ navigateCalls) ∧
     (∀ x, ChannelActions_selectVoiceChannel x ∈ connectCalls ->
           x = Some channelId) ∧
     (∀ s s1, canViewChannel env (Some channelId) s = Ok true s1 ->
              ChannelRouter_transitionToChannel channelId ∈ navigateCalls) ∧
     (∀ s s1, canJoinChannel env (Some channelId) s = Ok true s1 ->
              ChannelActions_selectVoiceChannel (Some channelId)
                ∈ connectCalls)) ∧
  (∀ followed s,
     reachable s ->
     truthy (followedUserId s) = Some followed ->
     startedBy env (locationEvent followed None) s = [] ∧
     (channelId ≠ "" ->
      let i := locationEvent followed (Some channelId) in
      let s' := after (step env i s) in
      if same channelId (lastFollowedChannelId s) then
        startedBy env i s = [] ∧
        attempts s' = attempts s ∧
        lastFollowedChannelId s' = lastFollowedChannelId s
      else
        startedBy env i s = [channelId] ∧
        attempts s' = channelId :: attempts s ∧
        lastFollowedChannelId s' = Some channelId)) ∧
  (∀ followed inputs s,
     reachable s ->
     truthy (followedUserId s) = Some followed ->
     eventsAndStages followed inputs s = true ->
     match lastDeliveredIn inputs with
     | Some c =>
         head (starts inputs s) = Some c ∨
         (starts inputs s = [] ∧ lastFollowedChannelId s = Some c)
     | None => starts inputs s = []
     end) ∧
  (∀ followed events s,
     reachable s ->
     truthy (followedUserId s) = Some followed ->
     attempts (run (deliverAll followed events) s) =
       starts (deliverAll followed events) s ++ attempts s ∧
     (starts (deliverAll followed events) s ≠ [] ->
      head (starts (deliverAll followed events) s) = lastDelivered events)).
Proof.
  split; [intros s; apply joinVoiceChannel_records|]. split.
  { destruct (navigateStage_calls env channelId) as (nav & Hn1 & Hn2 & Hn3 & Hn4).
    destruct (connectStage_calls env channelId) as (conn & Hc1 & Hc2 & Hc3).
    exists nav, conn. repeat (split; [done|]). done. }
  split.
  { intros followed s Hreach Hf.
    pose proof (reachable_wf _ Hreach) as Hwf.
    assert (∀ c, eventOrStage followed (locationEvent followed c) s = true)
      as Hev by (intros c; cbn; by apply bool_decide_eq_true_2).
    split.
    - destruct (eventOrStage_step env followed _ s Hwf Hf (Hev None))
        as (s' & _ & _ & _ & Hstep).
      by destruct Hstep.
    - intros Hne. cbn zeta.
      destruct (eventOrStage_step env followed _ s Hwf Hf
                  (Hev (Some channelId))) as (s' & Hs' & _ & _ & Hstep).
      destruct (locationEvent_step env followed (Some channelId) s Hwf Hf)
        as (_ & _ & Hatt).
      change (delivered (locationEvent followed (Some channelId)))
        with (truthy (Some channelId)) in Hstep.
      rewrite (truthy_Some _ Hne) in Hstep, Hatt. rewrite Hs'.
      cbn zeta in Hatt. rewrite Hs' in Hatt.
      destruct (same channelId (lastFollowedChannelId s)).
      + destruct Hstep as [H1 H2]. destruct Hatt as [H3 _]. done.
      + destruct Hstep as [H1 H2]. destruct Hatt as [H3 _]. done. }
  split.
  { intros followed inputs s Hreach Hf Hall.
    destruct (run_startedLast followed s (reachable_wf _ Hreach) Hf inputs Hall)
      as (s' & _ & _ & _ & Hlast).
    destruct (lastDeliveredIn inputs) as [c|]; by destruct Hlast. }
  intros followed events s Hreach Hf.
  pose proof (reachable_wf _ Hreach) as Hwf.
  split.
  { by destruct (events_stack followed s Hwf Hf events) as (_ & _ & H). }
  intros Hne.
  destruct (run_startedLast followed s Hwf Hf (deliverAll followed events)
              (eventsAndStages_deliverAll followed events s))
    as (s' & _ & _ & _ & Hlast).
  rewrite lastDeliveredIn_deliverAll in Hlast.
  destruct (lastDelivered events) as [c|].
  - by destruct Hlast as [[Hhead|[Hnone _]] _].
  - by destruct Hlast as [Hnone _].
Qed.

Lemma C1_witness :
  head
    (starts
       [(twoGuildsEnv, locationEvent "A" (Some "c2"));
        (twoGuildsEnv, Fire 2);
        (twoGuildsEnv, locationEvent "A" None);
        (twoGuildsEnv, Fire 3);
        (twoGuildsEnv, locationEvent "A" (Some "c3"));
        (twoGuildsEnv, Fire 4);
        (twoGuildsEnv, locationEvent "A" (Some "c3"))]
       (run [(twoGuildsEnv, ContextAction alice)] initial))
    = Some "c3".
Proof.
  destruct (C1_stages_use_captured_channel twoGuildsEnv "c1")
    as (_ & _ & _ & H & _).
  destruct (H "A"
    [(twoGuildsEnv, locationEvent "A" (Some "c2"));
     (twoGuildsEnv, Fire 2);
     (twoGuildsEnv, locationEvent "A" None);
     (twoGuildsEnv, Fire 3);
     (twoGuildsEnv, locationEvent "A" (Some "c3"));
     (twoGuildsEnv, Fire 4);
     (twoGuildsEnv, locationEvent "A" (Some "c3"))]
    (run [(twoGuildsEnv, ContextAction alice)] initial)) as [Hhead|[_ Hrec]].
  - apply reachable_run, reachable_initial.
  - reflexivity.
  - vm_compute. reflexivity.
  - exact Hhead.
  - discriminate Hrec.
Defined.

(** ** C10: the bulk preload started by follow *)

Definition isBulkTask (t : Task) : bool :=
  match t with
  | Resume (MutualGuildsResponse _) => true
  | Resume (MutualGuildsPreloaded _ _ _) => true
  | Resume (MutualGuildsPause _ _) => true
  | _ => false
  end.

(** The newest pending continuation of a bulk preload. *)
Definition bulkEntry (s : State) : option Timer :=
  find (fun t => isBulkTask (timer_task t)) (timers s).

(** The host settles what the newest bulk preload waits for (the profile
    request, a preload or the 100 ms timer) and runs its continuation. *)
Definition settleBulk (env : Env) (s : State) : State :=
  match bulkEntry s with
  | Some t => after (step env (Fire (timer_id t)) s)
  | None => s
  end.

Fixpoint settleBulkN (n : nat) (env : Env) (s : State) : State :=
  match n with
  | O => s
  | S n => settleBulkN n env (settleBulk env s)
  end.

(** What the bulk preload waits for before each of the next [n]
    continuations. *)
Fixpoint waits (n : nat) (env : Env) (s : State) : list TimerKind :=
  match n with
  | O => []
  | S n =>
      match bulkEntry s with
      | Some t => timer_kind t :: waits n env (settleBulk env s)
      | None => []
      end
  end.

(** The guilds of a list that are not cached when the loop reaches
    them. *)
Fixpoint todo (ids : list string) (cache : gset string) : list string :=
  match ids with
  | [] => []
  | g :: rest =>
      if bool_decide (g ∈ cache) then todo rest cache
      else g :: todo rest ({[g]} ∪ cache)
  end.

(** The calls of the loop for these guilds, oldest first. *)
Fixpoint bulkCalls (dc : string -> string) (work : list string)
    : list Call :=
  match work with
  | [] => []
  | g :: rest =>
      GuildChannelStore_getDefaultChannel g ::
      ChannelActionCreators_preload g (dc g) ::
      FluxDispatcher_dispatch g :: bulkCalls dc rest
  end.

(** For each of these guilds: the awaited preload, then the pause. *)
Fixpoint bulkWaits (work : list string) : list TimerKind :=
  match work with
  | [] => []
  | _ :: rest => Awaited :: Timeout 100 :: bulkWaits rest
  end.

(** The local fallback test of preloadMutualGuilds for one guild: the
    guild is known, and the identity is a member or has a voice state
    there.  A lookup that throws counts as "no". *)
Definition isMutualGuild (env : Env) (userId guildId : string) : bool :=
  match getGuild env guildId with
  | Returns true =>
      match getMember env guildId userId with
      | Returns true => true
      | _ =>
          match getVoiceStates env guildId userId with
          | Returns true => true
          | _ => false
          end
      end
  | _ => false
  end.

(** The calls of the local detection for one guild, oldest first. *)
Definition detectionCallsFor (env : Env) (userId guildId : string)
    : list Call :=
  GuildStore_getGuild guildId ::
  match getGuild env guildId with
  | Returns true =>
      GuildMemberStore_getMember guildId userId ::
      match getMember env guildId userId with
      | Returns true => []
      | _ => [VoiceStateStore_getVoiceStates guildId]
      end
  | _ => []
  end.

(** The guild has a default channel [dc g], and its preload succeeds. *)
Definition preloadable (env : Env) (dc : string -> string) (g : string)
    : Prop :=
  getDefaultChannel env g = Returns (Some (dc g)) ∧ dc g ≠ "" ∧
  preload env g (dc g) = Returns tt ∧
  preloadSettles env g (dc g) = Returns tt.

(** The list of guilds the bulk preload works on, and the calls made to
    find it (oldest first): the mutual guilds of the profile response,
    or, when that fails or has none, the guilds the local detection
    keeps. *)
Definition mutualGuildsFound (env : Env) (userId : string)
    (ids : list string) (detection : list Call) : Prop :=
  (restResponse env userId = Returns (Some ids) ∧ ids ≠ [] ∧
   detection = []) ∨
  ((restResponse env userId = Throws ∨
    restResponse env userId = Returns None ∨
    restResponse env userId = Returns (Some [])) ∧
   ∃ allGuildIds,
     getGuildIds env = Returns allGuildIds ∧
     (∀ g, g ∈ allGuildIds -> returns (getGuild env g)) ∧
     ids = List.filter (isMutualGuild env userId) allGuildIds ∧
     detection =
       GuildStore_getGuildIds ::
       (allGuildIds ≫= detectionCallsFor env userId)).

Lemma bulkEntry_timers s s' :
  timers s' = timers s -> bulkEntry s' = bulkEntry s.
Proof. unfold bulkEntry. by intros ->. Qed.

Lemma bulkEntry_add_timer kind t s :
  isBulkTask t = false -> bulkEntry (add_timer kind t s) = bulkEntry s.
Proof. intros Ht. unfold bulkEntry. cbn. by rewrite Ht. Qed.

Lemma find_filter_irrelevant {A} (f g : A -> bool) (l : list A) :
  (∀ x, x ∈ l -> g x = false -> f x = false) ->
  find f (List.filter g l) = find f l.
Proof.
  induction l as [|x l IH]; intros H; [done|].
  assert (find f (List.filter g l) = find f l) as IH'.
  { apply IH. intros y Hy. apply H. by apply list_elem_of_further. }
  cbn. destruct (g x) eqn:Hg; cbn.
  - by rewrite IH'.
  - by rewrite (H x (list_elem_of_here _ _) Hg).
Qed.

Lemma filter_bool {A} (P : A -> Prop) `{∀ x, Decision (P x)} (l : list A) :
  filter P l = List.filter (fun x => bool_decide (P x)) l.
Proof.
  induction l as [|x l IH]; [done|]. rewrite filter_cons. cbn.
  destruct (decide (P x)) as [HP|HP].
  - by rewrite bool_decide_eq_true_2, IH.
  - by rewrite bool_decide_eq_false_2, IH.
Qed.

Lemma bulkEntry_stopped s : wf s -> bulkEntry (stopped s) = bulkEntry s.
Proof.
  intros (_ & _ & Htick & _). unfold bulkEntry, stopped.
  destruct (searchInterval s) as [h|] eqn:Hh; cbn; [|done].
  rewrite filter_bool. apply find_filter_irrelevant.
  intros t Hin Hid. apply bool_decide_eq_false_1 in Hid.
  assert (timer_id t = h) as <- by (destruct (decide (timer_id t = h)); done).
  assert (is_searchTick (timer_task t) = true) as Ht by (by apply (Htick t Hin)).
  by destruct (timer_task t).
Qed.

Lemma bulkEntry_records calls s : bulkEntry (records calls s) = bulkEntry s.
Proof. apply bulkEntry_timers. by induction calls. Qed.

Lemma preloadedGuilds_records calls s :
  preloadedGuilds (records calls s) = preloadedGuilds s.
Proof. by induction calls. Qed.

(** followAction after the bulk preload has been started: the probe and
    what follows it leave the bulk preload's continuation and the cache
    alone. *)
Lemma followAction_tail_keeps_bulk env user s :
  wf s ->
  let s' :=
    after
      ((chanId <-
          external (VoiceStateStore_getVoiceStateForUser (user_id user))
            (getVoiceStateForUser env (user_id user)) ;;
        match truthy chanId with
        | Some chanId =>
            joinVoiceChannel env chanId ;;;
            showToast env SUCCESS (followedMessage (username user))
        | None => startSearching env (user_id user) (username user)
        end) s) in
  bulkEntry s' = bulkEntry s ∧ preloadedGuilds s' = preloadedGuilds s.
Proof.
  intros Hwf. cbn zeta.
  match goal with |- context [after ?r] => remember r as res eqn:Hr end.
  unfold bind at 1, external in Hr.
  destruct (getVoiceStateForUser env (user_id user)) as [chanId|];
    [|by subst res].
  set (sp := record _ s) in Hr. assert (wf sp) as Hwfp by done.
  assert (bulkEntry sp = bulkEntry s ∧ preloadedGuilds sp = preloadedGuilds s)
    as [<- <-] by done.
  clearbody sp. destruct (truthy chanId) as [c|].
  - unfold bind in Hr.
    destruct (joinVoiceChannel_eq env c sp) as (kind & t & calls & Hj & Ht).
    rewrite Hj in Hr.
    assert (isBulkTask t = false) as Hnb by (by destruct Ht as [->|[g ->]]).
    unfold showToast, external in Hr.
    destruct (toast env SUCCESS (followedMessage (username user)));
      subst res; cbn [after];
      (split;
       [ unfold bulkEntry; cbn; rewrite Hnb;
         exact (bulkEntry_records calls _)
       | exact (preloadedGuilds_records calls _) ]).
  - rewrite startSearching_eq in Hr. cbn zeta in Hr.
    destruct (stopped_fields sp) as (_ & _ & Hc & _).
    destruct (toast env MESSAGE (searchingMessage (username user)));
      subst res; cbn [after].
    + split; [|exact Hc]. unfold searching, bulkEntry. cbn.
      by apply bulkEntry_stopped.
    + split; [|exact Hc]. unfold bulkEntry. cbn.
      by apply bulkEntry_stopped.
Qed.

(** A click on "Follow user" for a new identity whose profile request
    can be sent leaves the continuation of that request pending. *)
Lemma follow_registers_bulk env user s :
  wf s ->
  same (user_id user) (followedUserId s) = false ->
  restGet env (user_id user) = Returns tt ->
  let s1 := after (contextAction env user s) in
  bulkEntry s1 =
    Some (mkTimer (nextTimerId s) Awaited
            (Resume (MutualGuildsResponse (user_id user)))) ∧
  preloadedGuilds s1 = preloadedGuilds s.
Proof.
  intros Hwf Hsame Hget. cbn zeta.
  set (s0 := set_lastFollowedChannelId None
               (set_followedUserId (Some (user_id user)) s)).
  assert (contextAction env user s = followAction env user s0) as ->.
  { unfold contextAction, bind, get, modify. by rewrite Hsame. }
  set (sa := add_timer Awaited (Resume (MutualGuildsResponse (user_id user)))
               (record (RestAPI_get (user_id user)) s0)).
  assert (followAction env user s0 =
    (chanId <-
       external (VoiceStateStore_getVoiceStateForUser (user_id user))
         (getVoiceStateForUser env (user_id user)) ;;
     match truthy chanId with
     | Some chanId =>
         joinVoiceChannel env chanId ;;;
         showToast env SUCCESS (followedMessage (username user))
     | None => startSearching env (user_id user) (username user)
     end) sa) as ->.
  { unfold followAction, preloadMutualGuilds.
    unfold bind at 1. unfold try_catch at 1. unfold bind at 1.
    unfold try_catch at 1. unfold bind at 1. unfold external at 1.
    rewrite Hget. cbn [ret]. reflexivity. }
  assert (wf sa) as Hwfa.
  { apply wf_add_timer; [done|]. apply wf_record.
    by apply wf_set_lastFollowedChannelId, wf_set_followedUserId. }
  destruct (followAction_tail_keeps_bulk env user sa Hwfa) as [-> ->].
  done.
Qed.

(** The state in which the continuation of the newest entry runs: the
    entry is gone, its handle stays used. *)
Definition fired (kind : TimerKind) (t : Task) (s : State) : State :=
  set_timers (timers s) (add_timer kind t s).

Lemma filter_other_ids (ts : list Timer) (n : nat) :
  (∀ t, t ∈ ts -> (timer_id t < n)%nat) ->
  filter (fun t => timer_id t ≠ n) ts = ts.
Proof.
  induction ts as [|t ts IH]; intros Hlt; [done|].
  rewrite filter_cons_True.
  - f_equal. apply IH. intros t' Hin. apply Hlt. by apply list_elem_of_further.
  - specialize (Hlt t (list_elem_of_here _ _)). lia.
Qed.

Lemma removeTimer_newest kind t s :
  wf s -> removeTimer (nextTimerId s) (add_timer kind t s) = fired kind t s.
Proof.
  intros (_ & Hlt & _). unfold removeTimer, fired. f_equal.
  change (timers (add_timer kind t s))
    with (mkTimer (nextTimerId s) kind t :: timers s).
  rewrite filter_cons_False by (cbn; intros H; by apply H).
  by apply filter_other_ids.
Qed.

(** Settling runs the task of the newest bulk entry in the state without
    that entry. *)
Lemma settleBulk_entry env s e :
  wf s -> bulkEntry s = Some e -> is_interval e = false ->
  settleBulk env s =
    after (runTask env (timer_task e) (removeTimer (timer_id e) s)) ∧
  wf (removeTimer (timer_id e) s).
Proof.
  intros Hwf He Hkind. unfold settleBulk. rewrite He.
  pose proof Hwf as (Hnd & _).
  assert (e ∈ timers s) as Hin.
  { unfold bulkEntry in He. apply find_some in He as [Hin _].
    by apply list_elem_of_In. }
  pose proof (find_timer _ _ Hnd Hin) as Hfind.
  split; [|by apply (wf_fired _ e)].
  cbn [step]. unfold fire, bind at 1, get. rewrite Hfind, Hkind.
  unfold bind, modify. reflexivity.
Qed.

Lemma settleBulk_newest env kind k s :
  wf s -> isBulkTask (Resume k) = true ->
  match kind with Interval _ => False | _ => True end ->
  settleBulk env (add_timer kind (Resume k) s) =
    after (resume env k (fired kind (Resume k) s)) ∧
  wf (fired kind (Resume k) s).
Proof.
  intros Hwf Hb Hkind.
  assert (wf (add_timer kind (Resume k) s)) as Hwf'
    by (by apply wf_add_timer).
  destruct (settleBulk_entry env (add_timer kind (Resume k) s)
              (mkTimer (nextTimerId s) kind (Resume k)) Hwf') as [Hs Hw].
  - unfold bulkEntry. cbn [timers add_timer find timer_task].
    by rewrite Hb.
  - unfold is_interval. cbn. by destruct kind.
  - cbn [timer_id timer_task runTask] in Hs, Hw.
    rewrite removeTimer_newest in Hs, Hw by done. done.
Qed.

Lemma mutualGuildsLoop_caught env ids s :
  escapes (mutualGuildsLoop env ids s) = false.
Proof.
  revert s. induction ids as [|g rest IH]; intros s; [done|].
  cbn [mutualGuildsLoop]. unfold bind at 1, get.
  destruct (bool_decide (g ∈ preloadedGuilds s)); [apply IH|].
  unfold bind at 1.
  match goal with
  | |- context [try_catch ?b ?h s] =>
      assert (escapes (try_catch b h s) = false) as Hs
        by (unfold try_catch; by destruct (b s))
  end.
  match goal with
  | H : escapes ?r = false |- _ => destruct r as [[dc|] s1|]; [done|apply IH|done]
  end.
Qed.

Lemma try_catch_caught {A} (body handler : M A) s :
  escapes (body s) = false -> try_catch body handler s = body s.
Proof. unfold try_catch. by destruct (body s). Qed.

Lemma mutualGuildsLoop_skip env g rest s :
  g ∈ preloadedGuilds s ->
  mutualGuildsLoop env (g :: rest) s = mutualGuildsLoop env rest s.
Proof.
  intros Hin. cbn [mutualGuildsLoop]. unfold bind at 1, get.
  by rewrite bool_decide_eq_true_2.
Qed.

Lemma mutualGuildsLoop_preload env dc g rest s :
  hasPreload env = true -> preloadable env dc g ->
  g ∉ preloadedGuilds s ->
  mutualGuildsLoop env (g :: rest) s =
  Ok (Suspended Awaited (MutualGuildsPreloaded g (dc g) rest))
     (record (ChannelActionCreators_preload g (dc g))
        (record (GuildChannelStore_getDefaultChannel g) s)).
Proof.
  intros Hhas (Hdc & Hne & Hpre & _) Hnin. cbn [mutualGuildsLoop].
  unfold bind at 1, get. rewrite bool_decide_eq_false_2 by done.
  unfold bind, try_catch, external, ret. rewrite Hdc. cbn [truthy].
  assert (String.eqb (dc g) "" = false) as ->
    by (by apply String.eqb_neq).
  by rewrite Hhas, Hpre.
Qed.

Lemma settle_preloaded env g dcg rest s :
  wf s -> preloadSettles env g dcg = Returns tt ->
  settleBulk env
    (add_timer Awaited (Resume (MutualGuildsPreloaded g dcg rest)) s) =
  add_timer (Timeout 100) (Resume (MutualGuildsPause g rest))
    (set_preloadedGuilds ({[g]} ∪ preloadedGuilds s)
       (fired Awaited (Resume (MutualGuildsPreloaded g dcg rest)) s)).
Proof.
  intros Hwf Hset.
  destruct (settleBulk_newest env Awaited
              (MutualGuildsPreloaded g dcg rest) s) as [-> _]; [done..|].
  cbn [resume]. unfold mutualGuildsPreloaded. rewrite Hset. reflexivity.
Qed.

Lemma settle_pause env g rest s :
  wf s ->
  settleBulk env
    (add_timer (Timeout 100) (Resume (MutualGuildsPause g rest)) s) =
  after ((p <- mutualGuildsLoop env rest ;; settle p (ret tt))
           (record (FluxDispatcher_dispatch g)
              (fired (Timeout 100) (Resume (MutualGuildsPause g rest)) s))).
Proof.
  intros Hwf.
  destruct (settleBulk_newest env (Timeout 100)
              (MutualGuildsPause g rest) s) as [-> _]; [done..|].
  cbn [resume]. f_equal. set (s1 := fired _ _ s).
  unfold bind at 1. unfold bind at 1.
  assert (mutualGuildsPause env g rest s1 =
          mutualGuildsLoop env rest (record (FluxDispatcher_dispatch g) s1))
    as ->; [|done].
  unfold mutualGuildsPause.
  assert (∀ st, (attempt (requestChannelSummaries env g) ;;;
                 mutualGuildsLoop env rest) st =
                mutualGuildsLoop env rest
                  (record (FluxDispatcher_dispatch g) st)) as Hbody.
  { intros st. unfold bind, attempt, try_catch, requestChannelSummaries,
      external, ret. by destruct (dispatch env g). }
  rewrite try_catch_caught; rewrite Hbody; [done|].
  apply mutualGuildsLoop_caught.
Qed.

Lemma waits_newest env n kind k s :
  isBulkTask (Resume k) = true ->
  waits (S n) env (add_timer kind (Resume k) s) =
  kind :: waits n env (settleBulk env (add_timer kind (Resume k) s)).
Proof.
  intros Hb. cbn [waits]. unfold bulkEntry at 1.
  cbn [timers add_timer find timer_task]. by rewrite Hb.
Qed.

Lemma length_bulkWaits work : length (bulkWaits work) = (2 * length work)%nat.
Proof. induction work as [|g work IH]; cbn [bulkWaits length]; lia. Qed.

(** The loop over the mutual guilds, from any state on: every guild not
    yet cached is preloaded, awaited, marked, paused for and asked for
    its channel summaries, in order. *)
Lemma bulk_chain env dc ids :
  hasPreload env = true ->
  (∀ g, g ∈ ids -> preloadable env dc g) ->
  ∀ s0, wf s0 ->
  ∀ r, r = after ((p <- mutualGuildsLoop env ids ;; settle p (ret tt)) s0) ->
  ∀ work, work = todo ids (preloadedGuilds s0) ->
  ∀ n, n = length (bulkWaits work) ->
  ∀ s', s' = settleBulkN n env r ->
    waits n env r = bulkWaits work ∧
    trace s' = reverse (bulkCalls dc work) ++ trace s0 ∧
    preloadedGuilds s' = preloadedGuilds s0 ∪ list_to_set ids ∧
    timers s' = timers s0 ∧
    followedUserId s' = followedUserId s0 ∧
    lastFollowedChannelId s' = lastFollowedChannelId s0 ∧
    searchInterval s' = searchInterval s0 ∧
    isSearching s' = isSearching s0.
Proof.
  intros Hhas. induction ids as [|g rest IH];
    intros Hpre s0 Hwf r Hr work Hw n Hn s' Hs'.
  - cbn in Hr, Hw. subst. cbn. repeat split; try done.
    by rewrite union_empty_r_L.
  - assert (∀ g', g' ∈ rest -> preloadable env dc g') as Hrest
      by (intros g' Hin; apply Hpre; by apply list_elem_of_further).
    specialize (IH Hrest).
    destruct (decide (g ∈ preloadedGuilds s0)) as [Hin|Hnin].
    + unfold bind at 1 in Hr. rewrite mutualGuildsLoop_skip in Hr by done.
      cbn [todo] in Hw. rewrite bool_decide_eq_true_2 in Hw by done.
      destruct (IH s0 Hwf r Hr work Hw n Hn s' Hs')
        as (H1 & H2 & H3 & H4).
      repeat split; try done; try apply H4. rewrite H3.
      cbn [list_to_set]. rewrite (assoc_L (∪)).
      f_equal. symmetry. rewrite (comm_L (∪)). apply subseteq_union_1_L.
      by apply singleton_subseteq_l.
    + pose proof (Hpre g (list_elem_of_here _ _)) as Hg.
      unfold bind at 1 in Hr.
      rewrite (mutualGuildsLoop_preload env dc) in Hr by done.
      cbn [settle] in Hr. unfold modify in Hr. cbn [after] in Hr.
      cbn [todo] in Hw. rewrite bool_decide_eq_false_2 in Hw by done.
      subst work. cbn [bulkWaits length] in Hn. subst n.
      set (sB := record _ (record _ s0)) in Hr.
      assert (wf sB) as HwfB by done.
      subst r. rewrite !waits_newest by done.
      cbn [settleBulkN] in Hs'.
      destruct Hg as (_ & _ & _ & Hset).
      rewrite (settle_preloaded env g (dc g) rest sB HwfB Hset) in Hs' |- *.
      set (sC := set_preloadedGuilds _ (fired Awaited _ sB)) in Hs' |- *.
      assert (wf sC) as HwfC.
      { destruct (settleBulk_newest env Awaited
                    (MutualGuildsPreloaded g (dc g) rest) sB) as [_ Hw];
          done. }
      rewrite waits_newest by done.
      rewrite (settle_pause env g rest sC HwfC) in Hs' |- *.
      set (sD := record _ (fired (Timeout 100) _ sC)) in Hs' |- *.
      assert (wf sD) as HwfD.
      { destruct (settleBulk_newest env (Timeout 100)
                    (MutualGuildsPause g rest) sC) as [_ Hw]; done. }
      destruct (IH sD HwfD _ eq_refl
                  (todo rest ({[g]} ∪ preloadedGuilds s0)) eq_refl
                  _ eq_refl s' Hs')
        as (H1 & H2 & H3 & H4).
      split; [by rewrite H1|].
      split.
      { rewrite H2. cbn [bulkCalls]. rewrite !reverse_cons.
        rewrite <- !app_assoc. reflexivity. }
      split.
      { rewrite H3. change (preloadedGuilds sD)
          with ({[g]} ∪ preloadedGuilds s0). cbn [list_to_set].
        by rewrite (comm_L (∪) {[g]} (preloadedGuilds s0)), <- (assoc_L (∪)). }
      exact H4.
Qed.

(** The local detection in closed form: the guilds it keeps and the
    calls it makes. *)
Lemma localDetection_calls env userId allGuildIds :
  (∀ g, g ∈ allGuildIds -> returns (getGuild env g)) ->
  ∀ mutualGuildIds s,
    localDetection env userId allGuildIds mutualGuildIds s =
    Ok (mutualGuildIds ++ List.filter (isMutualGuild env userId) allGuildIds)
       (records (reverse (allGuildIds ≫= detectionCallsFor env userId)) s).
Proof.
  induction allGuildIds as [|g rest IH]; intros Hret acc s.
  - cbn. by rewrite app_nil_r.
  - assert (∀ g', g' ∈ rest -> returns (getGuild env g')) as Hrest
      by (intros g' Hin; apply Hret; by apply list_elem_of_further).
    specialize (IH Hrest).
    pose proof (Hret g (list_elem_of_here _ _)) as Hg.
    change ((g :: rest) ≫= detectionCallsFor env userId)
      with (detectionCallsFor env userId g ++
            (rest ≫= detectionCallsFor env userId)).
    rewrite reverse_app, records_app.
    cbn [localDetection List.filter].
    set (calls := reverse (rest ≫= detectionCallsFor env userId)) in *.
    unfold isMutualGuild at 1, detectionCallsFor.
    unfold bind, try_catch, external, ret.
    destruct (getGuild env g) as [[|]|]; [| |done]; cbn [negb];
      [destruct (getMember env g userId) as [[|]|];
       [|destruct (getVoiceStates env g userId) as [[|]|]..]|];
      rewrite IH; rewrite <- ?app_assoc; reflexivity.
Qed.

Lemma mutualGuildsResponse_loop env userId ids detection s :
  mutualGuildsFound env userId ids detection ->
  mutualGuildsResponse env userId s =
  mutualGuildsLoop env ids (records (reverse detection) s).
Proof.
  intros [(Hresp & Hne & ->)|(Hresp & all & Hall & Hret & -> & ->)].
  - unfold mutualGuildsResponse. rewrite Hresp.
    destruct ids as [|g rest]; [done|].
    unfold mutualGuildsContinue.
    assert (∀ st, (mutualGuildIds <- ret (g :: rest) ;;
                   mutualGuildsLoop env mutualGuildIds) st =
                  mutualGuildsLoop env (g :: rest) st) as Hbody by done.
    rewrite try_catch_caught; rewrite Hbody; [done|].
    apply mutualGuildsLoop_caught.
  - assert (mutualGuildsResponse env userId s =
            mutualGuildsContinue env userId [] s) as ->.
    { unfold mutualGuildsResponse. by destruct Hresp as [->|[->| ->]]. }
    unfold mutualGuildsContinue.
    assert (∀ st,
      (mutualGuildIds <-
         (allGuildIds <- external GuildStore_getGuildIds (getGuildIds env) ;;
          localDetection env userId allGuildIds []) ;;
       mutualGuildsLoop env mutualGuildIds) st =
      mutualGuildsLoop env (List.filter (isMutualGuild env userId) all)
        (records
           (reverse
              (GuildStore_getGuildIds ::
               (all ≫= detectionCallsFor env userId))) st)) as Hbody.
    { intros st. unfold bind at 1. unfold bind at 1. unfold external.
      rewrite Hall. rewrite (localDetection_calls env userId all Hret).
      rewrite reverse_cons, records_app. reflexivity. }
    rewrite try_catch_caught; rewrite Hbody; [done|].
    apply mutualGuildsLoop_caught.
Qed.

(** The profile request is the first collaborator call of a click that
    follows a new identity. *)
Lemma follow_first_call env user s :
  same (user_id user) (followedUserId s) = false ->
  last (since s (after (contextAction env user s)))
    = Some (RestAPI_get (user_id user)).
Proof.
  intros Hsame.
  set (u := user_id user).
  set (P := fun l : list Call => ∃ calls, l = calls ++ RestAPI_get u :: trace s).
  assert (∀ c l, P l -> P (c :: l)) as Pcons.
  { intros c l [calls ->]. by exists (c :: calls). }
  assert (on_trace P (after (contextAction env user s))) as [calls Htr].
  { unfold contextAction, bind at 1, get. rewrite Hsame.
    unfold bind at 1, modify. unfold bind at 1.
    unfold followAction. apply after_bind.
    - apply after_try_catch; [|apply (within_ret (keeps (on_trace P)))].
      unfold preloadMutualGuilds. apply after_bind.
      + unfold try_catch, bind, external, ret.
        destruct (restGet env (user_id user)); simpl; by exists [].
      + intros [|]; [apply (within_ret (keeps (on_trace P)))|].
        by apply on_trace_mutualGuildsContinue.
    - intros p. by apply on_trace_followAction_rest. }
  rewrite (since_extend (calls ++ [RestAPI_get u])).
  - apply last_snoc.
  - by rewrite Htr, <- app_assoc.
Qed.

Lemma records_fields calls s :
  followedUserId (records calls s) = followedUserId s ∧
  lastFollowedChannelId (records calls s) = lastFollowedChannelId s ∧
  searchInterval (records calls s) = searchInterval s ∧
  isSearching (records calls s) = isSearching s.
Proof. by induction calls. Qed.



(** * Further properties of the follow controller

    The remaining behaviour of [plugins/followUser]: the search loop's
    interval, event batches, the preload cache over a session, and how
    the stages of an attempt follow one another. *)

Lemma timers_same_id (ts : list Timer) (t1 t2 : Timer) :
  NoDup (timer_id <$> ts) -> t1 ∈ ts -> t2 ∈ ts ->
  timer_id t1 = timer_id t2 -> t1 = t2.
Proof.
  intros Hnd H1 H2 Hid.
  pose proof (find_timer ts t1 Hnd H1) as F1.
  pose proof (find_timer ts t2 Hnd H2) as F2.
  rewrite Hid in F1. congruence.
Qed.

(** X1.  The search loop has one interval.  In every reachable state the
    searching flag is set exactly when a tick of the loop is pending; at
    most one tick is pending; and it is the interval whose handle
    [searchInterval] holds. *)
Theorem search_loop_has_one_interval s :
  reachable s ->
  (isSearching s = true <->
   ∃ t, t ∈ timers s ∧ is_searchTick (timer_task t) = true) ∧
  (∀ t1 t2,
     t1 ∈ timers s -> t2 ∈ timers s ->
     is_searchTick (timer_task t1) = true ->
     is_searchTick (timer_task t2) = true -> t1 = t2) ∧
  (∀ t, t ∈ timers s -> is_searchTick (timer_task t) = true ->
        is_interval t = true ∧ searchInterval s = Some (timer_id t)).
Proof.
  intros Hreach.
  destruct (reachable_wf s Hreach) as (Hnd & Hlt & Htick & Hint & Hex & Hflag).
  split; [|split].
  - rewrite Hflag. split.
    + intros Hs. destruct (searchInterval s) as [h|] eqn:Hh; [|done].
      destruct (Hex h eq_refl) as (t & Hin & Hid).
      exists t. split; [done|]. apply Htick; [done|]. by rewrite Hid.
    + intros (t & Hin & Ht). apply Htick in Ht; [|done]. by rewrite Ht.
  - intros t1 t2 H1 H2 T1 T2.
    apply (timers_same_id (timers s)); try done.
    apply Htick in T1; [|done]. apply Htick in T2; [|done]. congruence.
  - intros t Hin Ht. split; [by apply Hint | by apply Htick].
Qed.

Lemma search_loop_has_one_interval_witness :
  isSearching searchingForA = true <->
  ∃ t, t ∈ timers searchingForA ∧ is_searchTick (timer_task t) = true.
Proof.
  assert (reachable searchingForA) as Hr
    by apply reachable_run, reachable_initial.
  exact (proj1 (search_loop_has_one_interval searchingForA Hr)).
Defined.

(** X2.  A tick of the loop for the followed identity that finds it in no
    voice channel, or in the channel already recorded, only makes the
    voice-state query: the loop stays armed and nothing else changes. *)
Theorem searchTick_without_news_only_queries env t userId uname chanId s :
  reachable s ->
  t ∈ timers s -> timer_task t = SearchTick userId uname ->
  truthy (followedUserId s) = Some userId ->
  getVoiceStateForUser env userId = Returns chanId ->
  (truthy chanId = None ∨
   ∃ c, truthy chanId = Some c ∧ lastFollowedChannelId s = Some c) ->
  fire env (timer_id t) s
    = Ok tt (record (VoiceStateStore_getVoiceStateForUser userId) s).
Proof.
  intros Hreach Hin Htask Hf Hprobe Hnews.
  rewrite (fire_searchTick env t userId uname s) by
    (auto using reachable_wf).
  unfold searchTick, bind at 1, get. rewrite Hf, String.eqb_refl. simpl.
  unfold bind at 1, checkUserInVoiceChannel, bind at 1, external.
  rewrite Hprobe. simpl.
  destruct Hnews as [->|(c & -> & Hlast)]; [done|].
  unfold bind, get. simpl. rewrite Hlast. simpl.
  by rewrite String.eqb_refl.
Qed.

Lemma searchTick_without_news_only_queries_witness :
  fire emptyEnv 2 searchingForA
    = Ok tt (record (VoiceStateStore_getVoiceStateForUser "A") searchingForA).
Proof.
  apply (searchTick_without_news_only_queries emptyEnv
           (mkTimer 2 (Interval 2000) (SearchTick "A" "alice"))
           "A" "alice" None searchingForA).
  - apply reachable_run, reachable_initial.
  - vm_compute. repeat constructor.
  - reflexivity.
  - reflexivity.
  - reflexivity.
  - by left.
Defined.

(** X3.  Updates of other identities are ignored: a batch holding no update
    of the followed identity, or any batch while nobody is followed,
    leaves the state as it is and calls no collaborator. *)
Theorem VOICE_STATE_UPDATES_ignores_other_identities env updates s :
  (truthy (followedUserId s) = None ∨
   ∀ vs, vs ∈ updates -> vs_userId vs ≠ followedUserId s) ->
  VOICE_STATE_UPDATES env updates s = Ok tt s.
Proof.
  intros H. unfold VOICE_STATE_UPDATES, bind, get.
  destruct (truthy (followedUserId s)) as [followed|] eqn:Hf; [|done].
  destruct H as [H|Hall]; [done|].
  apply truthy_Some_inv in Hf.
  induction updates as [|vs rest IH]; simpl; [done|].
  unfold bind, get. rewrite Hf.
  assert (voiceStateUpdatesLoop env rest s = Ok tt s) as IH'.
  { apply IH. intros vs' Hin. apply Hall. by apply list_elem_of_further. }
  pose proof (Hall vs (list_elem_of_here _ _)) as Hvs. rewrite Hf in Hvs.
  destruct (vs_userId vs) as [userId|]; [|exact IH'].
  destruct (String.eqb_spec userId followed) as [->|_]; [done | exact IH'].
Qed.

Lemma VOICE_STATE_UPDATES_ignores_other_identities_witness :
  VOICE_STATE_UPDATES emptyEnv
    [mkVoiceState (Some "B") (Some "c9"); mkVoiceState None None]
    searchingForA = Ok tt searchingForA.
Proof.
  apply VOICE_STATE_UPDATES_ignores_other_identities. right.
  intros vs Hin.
  apply elem_of_cons in Hin as [->|Hin]; [discriminate|].
  apply list_elem_of_singleton in Hin as ->. discriminate.
Defined.

Lemma voiceStateUpdatesLoop_cons env followed vs rest s :
  followedUserId s = Some followed ->
  vs_userId vs = Some followed ->
  voiceStateUpdatesLoop env (vs :: rest) s =
  match voiceStateUpdate env followed vs s with
  | Ok true s' => Ok tt s'
  | Ok false s' => voiceStateUpdatesLoop env rest s'
  | Exn s' => Exn s'
  end.
Proof.
  intros Hf Hu. cbn [voiceStateUpdatesLoop]. unfold bind, get.
  rewrite Hf, Hu, String.eqb_refl.
  by destruct (voiceStateUpdate env followed vs s) as [[|] s'|s'].
Qed.

Lemma voiceStateUpdate_left_flag_off env followed vs s :
  disconnectFollow s = false ->
  truthy (vs_channelId vs) = None ->
  match voiceStateUpdate env followed vs s with
  | Ok false _ => False
  | _ => True
  end.
Proof.
  intros Hoff Hc. rewrite voiceStateUpdate_left by done.
  unfold bind, external, get, ret.
  destruct (getUser env followed) as [uname|]; [|done].
  rewrite startSearching_eq. unfold stopped, searching.
  destruct s as [d p e f l g [h|] i t n tr]; simpl in *; subst d;
    by destruct (toast env MESSAGE _).
Qed.

(** X4.  With disconnect-on-leave off, the handler returns at the first leave
    update of the followed identity: the updates after it in the same
    batch are not processed, whatever they are. *)
Theorem leave_update_ends_batch_when_flag_off env followed vs rest s :
  disconnectFollow s = false ->
  truthy (followedUserId s) = Some followed ->
  vs_userId vs = Some followed ->
  truthy (vs_channelId vs) = None ->
  VOICE_STATE_UPDATES env (vs :: rest) s = VOICE_STATE_UPDATES env [vs] s.
Proof.
  intros Hoff Hf Hu Hc.
  unfold VOICE_STATE_UPDATES, bind, get. rewrite Hf.
  apply truthy_Some_inv in Hf.
  rewrite !(voiceStateUpdatesLoop_cons env followed) by done.
  pose proof (voiceStateUpdate_left_flag_off env followed vs s Hoff Hc) as H.
  by destruct (voiceStateUpdate env followed vs s) as [[|] s'|s'].
Qed.

Lemma leave_update_ends_batch_when_flag_off_witness :
  VOICE_STATE_UPDATES (inChannelEnv "c2")
    [mkVoiceState (Some "A") None; mkVoiceState (Some "A") (Some "c2")]
    searchingForA
  = VOICE_STATE_UPDATES (inChannelEnv "c2")
      [mkVoiceState (Some "A") None] searchingForA.
Proof.
  apply (leave_update_ends_batch_when_flag_off (inChannelEnv "c2") "A");
    reflexivity.
Defined.

(** X5.  In one state of the stores, a channel that passes the connect check
    passes the view check. *)
Theorem canJoinChannel_implies_canViewChannel env channelId s s1 :
  canJoinChannel env channelId s = Ok true s1 ->
  ∃ s2, canViewChannel env channelId s = Ok true s2.
Proof.
  unfold canJoinChannel, canViewChannel, channelIsPrivate, permissionCan.
  destruct (truthy channelId) as [id|]; [|discriminate].
  unfold bind, try_catch, external, ret.
  destruct (getChannel env id) as [[channel|]|]; try discriminate.
  destruct (isPrivate env channel) as [[|]|]; try discriminate.
  - intros _. by eexists.
  - destruct (can env VIEW_CHANNEL channel) as [[|]|];
      destruct (can env CONNECT channel) as [[|]|]; try discriminate.
    intros _. by eexists.
Qed.

Lemma canJoinChannel_implies_canViewChannel_witness :
  ∃ s2, canViewChannel (inChannelEnv "c1") (Some "c1") initial = Ok true s2.
Proof.
  eapply (canJoinChannel_implies_canViewChannel (inChannelEnv "c1")
            (Some "c1") initial).
  reflexivity.
Defined.

(** X6.  The navigate stage hands over to the connect stage whether or not it
    navigated: whenever the channel lookup returns, whatever the
    permission checks and the navigate call do, it ends normally with
    one new pending entry, the connect stage for the same channel after
    100 ms.  When the channel lookup throws, no connect stage is armed. *)
Theorem navigateStage_arms_connectStage env channelId s :
  channelId ≠ "" ->
  (returns (getChannel env channelId) ->
   escapes (navigateStage env channelId s) = false ∧
   timers (after (navigateStage env channelId s)) =
     mkTimer (nextTimerId s) (Timeout 100) (ConnectStage channelId)
       :: timers s) ∧
  (getChannel env channelId = Throws ->
   escapes (navigateStage env channelId s) = true ∧
   timers (after (navigateStage env channelId s)) = timers s).
Proof.
  intros Hid.
  unfold navigateStage, canViewChannel, channelIsPrivate, permissionCan.
  rewrite (truthy_Some _ Hid).
  unfold bind, try_catch, attempt, try_catch, external, setTimeout, modify, ret.
  split.
  - intros Hret.
    destruct (getChannel env channelId) as [[channel|]|]; [| |done].
    + destruct (isPrivate env channel) as [[|]|];
        [|destruct (can env VIEW_CHANNEL channel) as [[|]|]|];
        try destruct (transitionToChannel env channelId); by cbn.
    + destruct (transitionToChannel env channelId); by cbn.
  - intros ->. by cbn.
Qed.

Lemma navigateStage_arms_connectStage_witness :
  timers (after (navigateStage (guardedThrowEnv "c1") "c1" initial)) =
    [mkTimer 1 (Timeout 100) (ConnectStage "c1")].
Proof.
  assert ("c1" ≠ "") as Hid by done.
  destruct (navigateStage_arms_connectStage (guardedThrowEnv "c1") "c1"
              initial Hid) as [H _].
  exact (proj2 (H I)).
Defined.

Lemma for_each_requestChannelSummaries env guildIds s :
  for_each guildIds (fun guildId =>
    attempt (requestChannelSummaries env guildId)) s
  = Ok tt (records (reverse (FluxDispatcher_dispatch <$> guildIds)) s).
Proof.
  revert s. induction guildIds as [|g rest IH]; intros s; [done|].
  cbn [for_each]. unfold bind.
  assert (attempt (requestChannelSummaries env g) s
          = Ok tt (record (FluxDispatcher_dispatch g) s)) as ->.
  { unfold attempt, try_catch, requestChannelSummaries, external, ret.
    by destruct (dispatch env g) as [[]|]. }
  rewrite IH, fmap_cons, reverse_cons, records_app. done.
Qed.

(** X7.  preloadGuildData on a channel that is not loaded requests the channel
    summaries of every guild, in the order of the guild list and whether
    or not a request throws, and preloads nothing; on a channel without
    a guild (a DM) it only looks the channel up.  Its promise is
    fulfilled in both cases. *)
Theorem preloadGuildData_without_guild env channelId s :
  (∀ guildIds,
     getChannel env channelId = Returns None ->
     getGuildIds env = Returns guildIds ->
     preloadGuildData env channelId s =
     Ok Fulfilled
       (records (reverse (FluxDispatcher_dispatch <$> guildIds) ++
                 [GuildStore_getGuildIds; ChannelStore_getChannel channelId])
          s)) ∧
  (∀ channel,
     getChannel env channelId = Returns (Some channel) ->
     truthy (guild_id channel) = None ->
     preloadGuildData env channelId s =
     Ok Fulfilled (record (ChannelStore_getChannel channelId) s)).
Proof.
  split.
  - intros guildIds Hch Hg. unfold preloadGuildData.
    unfold try_catch, bind at 1, external. rewrite Hch.
    unfold bind at 1. rewrite Hg. unfold bind.
    rewrite for_each_requestChannelSummaries. by rewrite records_app.
  - intros channel Hch Hg. unfold preloadGuildData.
    unfold try_catch, bind at 1, external. rewrite Hch, Hg. done.
Qed.

Lemma preloadGuildData_without_guild_witness :
  preloadGuildData emptyEnv "c1" initial =
  Ok Fulfilled
    (records [FluxDispatcher_dispatch "g2"; FluxDispatcher_dispatch "g1";
              GuildStore_getGuildIds; ChannelStore_getChannel "c1"] initial).
Proof.
  exact (proj1 (preloadGuildData_without_guild emptyEnv "c1" initial)
           ["g1"; "g2"] eq_refl eq_refl).
Defined.

(** The plugin's variables, apart from the host's tables and the trace. *)
Definition vars_kept : relation State :=
  fun s s' =>
    disconnectFollow s' = disconnectFollow s ∧
    preloadDelay s' = preloadDelay s ∧
    enableDebugLogs s' = enableDebugLogs s ∧
    followedUserId s' = followedUserId s ∧
    lastFollowedChannelId s' = lastFollowedChannelId s ∧
    preloadedGuilds s' = preloadedGuilds s ∧
    searchInterval s' = searchInterval s ∧
    isSearching s' = isSearching s.

#[export] Instance vars_kept_preorder : PreOrder vars_kept.
Proof.
  split.
  - intros s. by repeat split.
  - intros s1 s2 s3 (A1&A2&A3&A4&A5&A6&A7&A8) (B1&B2&B3&B4&B5&B6&B7&B8).
    repeat split; congruence.
Qed.

Lemma vars_kept_record c s : vars_kept s (record c s).
Proof. by repeat split. Qed.

Lemma vars_kept_add_timer kind t s : vars_kept s (add_timer kind t s).
Proof. by repeat split. Qed.

Lemma vars_kept_records calls s : vars_kept s (records calls s).
Proof.
  induction calls as [|c calls IH]; simpl; [reflexivity|].
  etransitivity; [exact IH | apply vars_kept_record].
Qed.

Lemma nextTimerId_records calls s :
  nextTimerId (records calls s) = nextTimerId s.
Proof. by induction calls. Qed.

(** joinVoiceChannel in closed form, with the kind of the pending entry:
    the continuation of an awaited preload, or the outer timer with the
    preload delay in force. *)
Lemma joinVoiceChannel_shape env channelId s :
  ∃ kind t calls,
    joinVoiceChannel env channelId s =
    Ok tt (add_timer kind t
             (records calls (set_lastFollowedChannelId (Some channelId) s))) ∧
    ((kind = Timeout (preloadDelay s) ∧ t = NavigateStage channelId) ∨
     (kind = Awaited ∧
      ∃ guildId, t = Resume (PreloadGuildDataResume channelId guildId))).
Proof.
  unfold joinVoiceChannel, bind at 1, modify.
  set (s1 := set_lastFollowedChannelId (Some channelId) s).
  destruct (oblivious_preloadGuildData env channelId) as (calls & o & Hrun).
  pose proof (yields_preloadGuildData env channelId s1) as Hp.
  pose proof (safe_preloadGuildData env channelId s1) as Hsafe.
  unfold bind at 1. rewrite Hrun in *. destruct o as [p|]; [|done].
  cbn [finish] in *.
  destruct Hp as [->|[guildId ->]]; cbn [settle].
  - exists (Timeout (preloadDelay s)), (NavigateStage channelId), calls.
    split; [|by left].
    unfold bind, getPreloadDelay, get, ret, setTimeout, modify, bind.
    by destruct (vars_kept_records calls s1) as (_ & -> & _).
  - exists Awaited, (Resume (PreloadGuildDataResume channelId guildId)), calls.
    split; [done | right; split; [done | by exists guildId]].
Qed.

(** A call that is neither the navigation nor the connection. *)
Definition beforeStages (c : Call) : Prop :=
  match c with
  | ChannelRouter_transitionToChannel _ | ChannelActions_selectVoiceChannel _ =>
      False
  | _ => True
  end.

Lemma oblivious_in_for_each (P : Call -> Prop) {A} (xs : list A)
    (body : A -> M unit) :
  (∀ x, oblivious_in P (body x)) -> oblivious_in P (for_each xs body).
Proof.
  intros Hbody. induction xs as [|x xs IH]; simpl.
  - apply oblivious_in_ret.
  - apply oblivious_in_bind; [apply Hbody | intros _; apply IH].
Qed.

Lemma preloadGuildData_beforeStages env channelId :
  oblivious_in beforeStages (preloadGuildData env channelId).
Proof.
  unfold preloadGuildData, preloadGuildData_summaries, attempt,
    requestChannelSummaries.
  repeat first
    [ apply oblivious_in_for_each; intros ?
    | apply oblivious_in_ret
    | apply oblivious_in_external; exact I
    | apply oblivious_in_bind; [|intros ?]
    | apply oblivious_in_try_catch
    | branch ].
Qed.

(** X8.  Whatever the collaborators do, a call of joinVoiceChannel ends
    normally and records its channel.  With the then-callback of an
    already settled preload counted in, it leaves one more pending entry
    than before, the one of the new attempt: the continuation of the
    awaited preload, or the outer timer set to the preload delay then in
    force.  The new attempt is the newest of the pending ones.  The call
    neither navigates nor connects, and it changes no other variable of
    the session. *)
Theorem joinVoiceChannel_starts_one_attempt env channelId s :
  let s' := after (joinVoiceChannel env channelId s) in
  escapes (joinVoiceChannel env channelId s) = false ∧
  lastFollowedChannelId s' = Some channelId ∧
  attempts s' = channelId :: attempts s ∧
  (∃ e, timers s' ≡ₚ e :: timers s ∧
     ((timer_kind e = Timeout (preloadDelay s) ∧
       timer_task e = NavigateStage channelId) ∨
      (timer_kind e = Awaited ∧
       ∃ guildId,
         timer_task e = Resume (PreloadGuildDataResume channelId guildId)))) ∧
  (∀ c, c ∈ since s s' -> beforeStages c) ∧
  followedUserId s' = followedUserId s ∧
  preloadedGuilds s' = preloadedGuilds s ∧
  searchInterval s' = searchInterval s ∧
  isSearching s' = isSearching s.
Proof.
  intros s'. subst s'.
  destruct (preloadGuildData_beforeStages env channelId)
    as (calls & o & Hrun & Hcalls).
  set (s1 := set_lastFollowedChannelId (Some channelId) s).
  pose proof (yields_preloadGuildData env channelId s1) as Hp.
  pose proof (safe_preloadGuildData env channelId s1) as Hsafe.
  rewrite Hrun in Hp, Hsafe. destruct o as [p|]; [|done].
  cbn [finish] in Hp.
  destruct (vars_kept_records calls s1) as (_ & Hd & _ & Hf & Hl & Hg & Hi & Hs).
  assert (∃ kind t,
    joinVoiceChannel env channelId s =
      Ok tt (add_timer kind t (records calls s1)) ∧
    ((kind = Timeout (preloadDelay s) ∧ t = NavigateStage channelId) ∨
     (kind = Awaited ∧
      ∃ guildId, t = Resume (PreloadGuildDataResume channelId guildId))))
    as (kind & t & -> & Hshape).
  { unfold joinVoiceChannel, bind at 1, modify. fold s1.
    unfold bind at 1. rewrite Hrun. cbn [finish].
    destruct Hp as [->|[guildId ->]]; cbn [settle].
    - exists (Timeout (preloadDelay s)), (NavigateStage channelId).
      split; [|by left].
      unfold bind, getPreloadDelay, get, ret, setTimeout, modify, bind.
      by rewrite Hd.
    - exists Awaited, (Resume (PreloadGuildDataResume channelId guildId)).
      split; [done | right; split; [done | by exists guildId]]. }
  cbn [after escapes].
  split; [done|]. split; [exact Hl|]. split.
  { unfold attempts. cbn [timers add_timer]. rewrite timers_records.
    destruct Hshape as [[_ ->]|[_ [g ->]]]; done. }
  split.
  { exists (mkTimer (nextTimerId (records calls s1)) kind t).
    split; [|exact Hshape].
    cbn [timers add_timer]. by rewrite timers_records. }
  split.
  { intros c Hc.
    rewrite (since_extend calls) in Hc
      by (cbn; by rewrite trace_records).
    rewrite Forall_forall in Hcalls. by apply Hcalls. }
  by repeat split.
Qed.

Lemma searchTick_found env userId uname chanId c s :
  truthy (followedUserId s) = Some userId ->
  getVoiceStateForUser env userId = Returns chanId ->
  truthy chanId = Some c ->
  same c (lastFollowedChannelId s) = false ->
  toast env SUCCESS (followedMessage uname) = Returns tt ->
  searchTick env userId uname s =
  joinVoiceChannel env c
    (record (Toasts_show SUCCESS (followedMessage uname))
       (stopped (record (VoiceStateStore_getVoiceStateForUser userId) s))).
Proof.
  intros Hf Hprobe Hc Hsame Htoast.
  unfold searchTick, checkUserInVoiceChannel, showToast.
  unfold bind, external, get, ret.
  rewrite Hf, String.eqb_refl, Hprobe, Hc. cbn [negb lastFollowedChannelId record].
  rewrite Hsame. cbn [negb]. rewrite stopSearching_eq, Htoast. done.
Qed.

(** X9.  A tick of the loop that finds the followed identity in a channel
    other than the recorded one ends the search and starts one join
    attempt for that channel: the interval is cleared and no tick stays
    pending, the success toast is shown, the channel is recorded, and
    the new attempt is the newest pending one. *)
Theorem searchTick_found_stops_search_and_joins
    env t userId uname chanId c s :
  reachable s ->
  t ∈ timers s -> timer_task t = SearchTick userId uname ->
  truthy (followedUserId s) = Some userId ->
  getVoiceStateForUser env userId = Returns chanId ->
  truthy chanId = Some c ->
  same c (lastFollowedChannelId s) = false ->
  toast env SUCCESS (followedMessage uname) = Returns tt ->
  let s' := after (fire env (timer_id t) s) in
  escapes (fire env (timer_id t) s) = false ∧
  isSearching s' = false ∧
  searchInterval s' = None ∧
  (∀ t', t' ∈ timers s' -> is_searchTick (timer_task t') = false) ∧
  lastFollowedChannelId s' = Some c ∧
  attempts s' = c :: attempts s ∧
  Toasts_show SUCCESS (followedMessage uname) ∈ since s s'.
Proof.
  intros Hreach Hin Htask Hf Hprobe Hc Hsame Htoast s'. subst s'.
  pose proof (reachable_wf s Hreach) as Hwf.
  rewrite (fire_searchTick env t userId uname s Hwf Hin Htask).
  rewrite (searchTick_found env userId uname chanId c s) by done.
  set (s1 := record (VoiceStateStore_getVoiceStateForUser userId) s).
  set (s3 := record (Toasts_show SUCCESS (followedMessage uname)) (stopped s1)).
  assert (wf s1) as Hwf1 by (by apply wf_record).
  assert (wf s3) as Hwf3 by (by apply wf_record, wf_stopped).
  destruct (joinVoiceChannel_attempt env c s3 Hwf3) as (_ & Hatt & Hlast).
  destruct (joinVoiceChannel_shape env c s3)
    as (kind & t' & calls & Heq & Hshape).
  rewrite Heq in *. cbn [after escapes] in *.
  set (s4 := set_lastFollowedChannelId (Some c) s3) in *.
  destruct (vars_kept_records calls s4) as (_&_&_&_&_&_&Hi&Hs).
  destruct (stopped_fields s1) as (_ & _ & _ & Htr & Hstop).
  split; [done|]. split; [by rewrite <- Hstop|].
  split; [cbn; rewrite Hi; apply searchInterval_stopped|].
  split; [|split; [exact Hlast|split]].
  - intros t2 Hin2. cbn [timers add_timer] in Hin2.
    rewrite timers_records in Hin2.
    apply elem_of_cons in Hin2 as [->|Hin2].
    + by destruct Hshape as [[_ ->]|[_ [g ->]]].
    + by apply (stopped_no_ticks s1).
  - rewrite Hatt. unfold s3. change (attempts (record ?c ?x)) with (attempts x).
    by rewrite attempts_stopped.
  - rewrite (since_extend
      (calls ++ [Toasts_show SUCCESS (followedMessage uname);
                 VoiceStateStore_getVoiceStateForUser userId])).
    + apply elem_of_app. right. apply list_elem_of_here.
    + change (trace (add_timer kind t' (records calls s4)))
        with (trace (records calls s4)).
      rewrite trace_records.
      change (trace s4) with
        (Toasts_show SUCCESS (followedMessage uname) :: trace (stopped s1)).
      rewrite Htr. by rewrite <- app_assoc.
Qed.

Lemma searchTick_found_stops_search_and_joins_witness :
  let s' := after (fire (inChannelEnv "c1") 2 searchingForA) in
  isSearching s' = false ∧ attempts s' = "c1" :: attempts searchingForA.
Proof.
  intros s'.
  assert (reachable searchingForA) as Hr
    by apply reachable_run, reachable_initial.
  assert (mkTimer 2 (Interval 2000) (SearchTick "A" "alice")
            ∈ timers searchingForA) as Hin
    by (vm_compute; repeat constructor).
  destruct (searchTick_found_stops_search_and_joins (inChannelEnv "c1")
              (mkTimer 2 (Interval 2000) (SearchTick "A" "alice"))
              "A" "alice" (Some "c1") "c1" searchingForA
              Hr Hin eq_refl eq_refl eq_refl eq_refl eq_refl eq_refl)
    as (_ & H1 & _ & _ & _ & H2 & _).
  split; [exact H1 | exact H2].
Defined.

(** ** The preload cache between restarts *)

Definition cache_grows : relation State :=
  fun s s' => preloadedGuilds s ⊆ preloadedGuilds s'.

#[export] Instance cache_grows_preorder : PreOrder cache_grows.
Proof.
  split; [intros s | intros s1 s2 s3]; unfold cache_grows; set_solver.
Qed.

Lemma cache_grows_record c s : cache_grows s (record c s).
Proof. unfold cache_grows. set_solver. Qed.
Lemma cache_grows_add_timer kind t s : cache_grows s (add_timer kind t s).
Proof. unfold cache_grows. set_solver. Qed.
Lemma cache_grows_channel v s : cache_grows s (set_lastFollowedChannelId v s).
Proof. unfold cache_grows. set_solver. Qed.
Lemma cache_grows_target v s : cache_grows s (set_followedUserId v s).
Proof. unfold cache_grows. set_solver. Qed.
Lemma cache_grows_settings d p e s : cache_grows s (set_settings d p e s).
Proof. unfold cache_grows. set_solver. Qed.
Lemma cache_grows_stopped s : cache_grows s (stopped s).
Proof.
  unfold cache_grows.
  destruct (stopped_fields s) as (_ & _ & -> & _). set_solver.
Qed.
Lemma cache_grows_startSearching env userId uname :
  within cache_grows (startSearching env userId uname).
Proof.
  intros s. rewrite startSearching_eq. cbn zeta.
  destruct (toast env MESSAGE (searchingMessage uname));
    apply cache_grows_stopped.
Qed.

Lemma cache_grows_mutualGuildsPreloaded env guildId dc rest :
  within cache_grows (mutualGuildsPreloaded env guildId dc rest).
Proof.
  unfold mutualGuildsPreloaded.
  destruct (preloadSettles env guildId dc).
  - intros s. unfold cache_grows. cbn. set_solver.
  - apply (within_try_catch cache_grows);
      [|apply (within_ret cache_grows)].
    apply within_mutualGuildsLoop;
      auto using cache_grows_record, cache_grows_add_timer; apply _.
Qed.

Lemma cache_grows_runTask env t : within cache_grows (runTask env t).
Proof.
  destruct t as [k| | |]; cbn [runTask].
  - destruct k; cbn [resume].
    + apply within_preloadGuildDataResume;
        auto using cache_grows_record, cache_grows_add_timer; apply _.
    + apply (within_bind cache_grows).
      * apply within_mutualGuildsResponse;
          auto using cache_grows_record, cache_grows_add_timer; apply _.
      * intros p. apply within_settle;
          [auto using cache_grows_add_timer | apply (within_ret cache_grows)].
    + apply (within_bind cache_grows).
      * apply cache_grows_mutualGuildsPreloaded.
      * intros p. apply within_settle;
          [auto using cache_grows_add_timer | apply (within_ret cache_grows)].
    + apply (within_bind cache_grows).
      * apply within_mutualGuildsPause;
          auto using cache_grows_record, cache_grows_add_timer; apply _.
      * intros p. apply within_settle;
          [auto using cache_grows_add_timer | apply (within_ret cache_grows)].
  - apply within_navigateStage;
      auto using cache_grows_record, cache_grows_add_timer; apply _.
  - apply within_connectStage;
      auto using cache_grows_record, cache_grows_add_timer; apply _.
  - apply within_searchTick;
      auto using cache_grows_record, cache_grows_add_timer,
        cache_grows_channel, cache_grows_stopped; apply _.
Qed.

Lemma cache_grows_step env i :
  i ≠ Start -> i ≠ Stop -> within cache_grows (step env i).
Proof.
  intros Hstart Hstop. destruct i; cbn [step]; try done.
  - apply within_updateSettings, cache_grows_settings.
  - apply within_contextAction;
      auto using cache_grows_record, cache_grows_add_timer,
        cache_grows_channel, cache_grows_target,
        cache_grows_startSearching; apply _.
  - apply within_VOICE_STATE_UPDATES;
      auto using cache_grows_record, cache_grows_add_timer,
        cache_grows_channel, cache_grows_stopped,
        cache_grows_startSearching; apply _.
  - intros s. unfold fire, bind, get.
    destruct (find _ (timers s)) as [t|] eqn:Hfind; [|done].
    destruct (is_interval t); cbn.
    + apply cache_grows_runTask.
    + apply (cache_grows_runTask env (timer_task t) (removeTimer id s)).
Qed.

(** X10.  Between restarts the preload cache only grows: along any sequence of
    inputs that contains neither a controller start nor a controller
    stop, every guild that is cached stays cached.  (Following another
    identity, unfollowing, and a failed preload do not evict.) *)
Theorem preloadedGuilds_only_grow_between_restarts inputs s :
  Forall (fun ei => snd ei ≠ Start ∧ snd ei ≠ Stop) inputs ->
  preloadedGuilds s ⊆ preloadedGuilds (run inputs s).
Proof.
  intros H. revert s.
  induction H as [|[env i] rest [Hstart Hstop] _ IH]; intros s; [done|].
  cbn [run]. etransitivity; [|apply IH].
  by apply (cache_grows_step env i).
Qed.

Lemma preloadedGuilds_only_grow_between_restarts_witness :
  preloadedGuilds mutualPreloadDone ⊆
  preloadedGuilds
    (run [(inChannelEnv "c1", ContextAction bob);
          (emptyEnv, ContextAction bob)] mutualPreloadDone).
Proof.
  apply preloadedGuilds_only_grow_between_restarts.
  repeat constructor; discriminate.
Defined.

(** ** Controller start and stop *)

Lemma stopped_timers s t :
  wf s ->
  t ∈ timers (stopped s) <->
  t ∈ timers s ∧ is_searchTick (timer_task t) = false.
Proof.
  intros (_ & _ & Htick & _). unfold stopped.
  destruct (searchInterval s) as [h|] eqn:Hh; cbn.
  - rewrite list_elem_of_filter. split.
    + intros [Hne Hin]. split; [done|].
      destruct (is_searchTick (timer_task t)) eqn:Ht; [|done].
      apply (Htick t Hin) in Ht. congruence.
    + intros [Hin Ht]. split; [|done]. intros <-.
      assert (is_searchTick (timer_task t) = true) by by apply (Htick t Hin).
      congruence.
  - split; [|by intros [? _]]. intros Hin. split; [done|].
    destruct (is_searchTick (timer_task t)) eqn:Ht; [|done].
    by apply (Htick t Hin) in Ht.
Qed.

(** X11.  Controller stop (and start, which runs the same statements) forgets
    the followed identity, the recorded channel and the cache and clears
    the search interval, without any call to a collaborator and without
    touching the settings.  It cancels nothing else: the pending entries
    afterwards are exactly the earlier ones other than the search tick,
    so a join attempt that was under way stays pending. *)
Theorem stop_forgets_session_and_keeps_pending_stages env s :
  reachable s ->
  let s' := after (step env Stop s) in
  step env Start s = step env Stop s ∧
  escapes (step env Stop s) = false ∧
  followedUserId s' = None ∧
  lastFollowedChannelId s' = None ∧
  preloadedGuilds s' = ∅ ∧
  isSearching s' = false ∧
  searchInterval s' = None ∧
  trace s' = trace s ∧
  (disconnectFollow s', preloadDelay s', enableDebugLogs s')
    = (disconnectFollow s, preloadDelay s, enableDebugLogs s) ∧
  (∀ t, t ∈ timers s' <->
        t ∈ timers s ∧ is_searchTick (timer_task t) = false) ∧
  attempts s' = attempts s.
Proof.
  intros Hreach s'. subst s'. cbn [step]. rewrite start_eq, stop_eq.
  cbn [after escapes].
  assert (wf (cleared s)) as Hwf.
  { apply wf_set_preloadedGuilds, wf_set_lastFollowedChannelId,
      wf_set_followedUserId. by apply reachable_wf. }
  destruct (stopped_fields (cleared s)) as (Hf & Hl & Hc & Htr & Hs).
  split; [done|]. split; [done|].
  split; [by rewrite Hf|]. split; [by rewrite Hl|]. split; [by rewrite Hc|].
  split; [done|]. split; [apply searchInterval_stopped|].
  split; [by rewrite Htr|].
  split; [unfold stopped; by destruct (searchInterval (cleared s))|].
  split; [intros t; by rewrite (stopped_timers (cleared s) t Hwf)|].
  by rewrite attempts_stopped.
Qed.

Lemma stop_forgets_session_and_keeps_pending_stages_witness :
  let s' := after (step emptyEnv Stop connectPending) in
  followedUserId s' = None ∧ attempts s' = attempts connectPending.
Proof.
  intros s'.
  assert (reachable connectPending) as Hr
    by apply reachable_run, reachable_initial.
  destruct (stop_forgets_session_and_keeps_pending_stages emptyEnv
              connectPending Hr)
    as (_ & _ & H1 & _ & _ & _ & _ & _ & _ & _ & H2).
  split; [exact H1 | exact H2].
Defined.

(** ** Following an identity that is in a voice channel *)

Definition only_recorded : relation State :=
  fun s s' => ∃ calls, s' = records calls s.

#[export] Instance only_recorded_preorder : PreOrder only_recorded.
Proof.
  split.
  - intros s. by exists [].
  - intros s1 s2 s3 [c1 ->] [c2 ->]. exists (c2 ++ c1).
    by rewrite records_app.
Qed.

Lemma only_recorded_record c s : only_recorded s (record c s).
Proof. by exists [c]. Qed.

Lemma yields_mutualGuildsLoop env mutualGuildIds :
  yields bulkPromise (mutualGuildsLoop env mutualGuildIds).
Proof.
  induction mutualGuildIds as [|guildId rest IH]; simpl.
  - by apply yields_ret.
  - apply yields_bind; intros s.
    destruct (bool_decide _); [exact IH|].
    apply yields_bind; intros [dc|]; [by apply yields_ret | exact IH].
Qed.

Lemma yields_preloadMutualGuilds env userId :
  yields bulkPromise (preloadMutualGuilds env userId).
Proof.
  unfold preloadMutualGuilds. apply yields_bind; intros [|].
  - by apply yields_ret.
  - unfold mutualGuildsContinue.
    apply yields_try_catch; [|by apply yields_ret].
    apply yields_bind; intros ids. apply yields_mutualGuildsLoop.
Qed.

(** The unawaited call [preloadMutualGuilds(user.id).catch(...)]: it only
    makes calls, and never throws into the caller. *)
Lemma preloadMutualGuilds_started env userId s :
  ∃ calls p,
    try_catch (preloadMutualGuilds env userId) (ret Rejected) s
      = Ok p (records calls s) ∧
    bulkPromise p.
Proof.
  set (m := try_catch (preloadMutualGuilds env userId) (ret Rejected)).
  assert (safe m) as Hsafe by (apply safe_try_catch, safe_ret).
  assert (within only_recorded m) as Hrec.
  { apply (within_try_catch only_recorded);
      [|apply (within_ret only_recorded)].
    apply within_preloadMutualGuilds;
      [apply _ | apply only_recorded_record]. }
  assert (yields bulkPromise m) as Hy.
  { apply yields_try_catch; [apply yields_preloadMutualGuilds|].
    by apply yields_ret. }
  specialize (Hsafe s). specialize (Hrec s). specialize (Hy s).
  destruct (m s) as [p s1|s1]; [|done].
  cbn [after] in Hrec. destruct Hrec as [calls ->]. by exists calls, p.
Qed.

(** X12.  Clicking "Follow user" for an identity that the directory reports in
    a voice channel records the identity and that channel and starts one
    join attempt for it at once, after the profile request of the bulk
    preload and the probe.  No search loop is started, and one that was
    already running is left as it is: the interval handle, the searching
    flag and the pending ticks are unchanged.  The success toast is
    shown last; an exception escapes exactly when that toast throws. *)
Theorem follow_in_voice_joins_at_once env user chanId c s :
  same (user_id user) (followedUserId s) = false ->
  getVoiceStateForUser env (user_id user) = Returns chanId ->
  truthy chanId = Some c ->
  let s' := after (contextAction env user s) in
  followedUserId s' = Some (user_id user) ∧
  lastFollowedChannelId s' = Some c ∧
  attempts s' = c :: attempts s ∧
  searchInterval s' = searchInterval s ∧
  isSearching s' = isSearching s ∧
  (∀ t, is_searchTick (timer_task t) = true ->
        t ∈ timers s' <-> t ∈ timers s) ∧
  head (since s s')
    = Some (Toasts_show SUCCESS (followedMessage (username user))) ∧
  VoiceStateStore_getVoiceStateForUser (user_id user) ∈ since s s' ∧
  (escapes (contextAction env user s) = true <->
   toast env SUCCESS (followedMessage (username user)) = Throws).
Proof.
  intros Hsame Hprobe Hc s'. subst s'.
  set (s0 := set_lastFollowedChannelId None
               (set_followedUserId (Some (user_id user)) s)).
  remember (contextAction env user s) as r eqn:Hr.
  assert (contextAction env user s = followAction env user s0) as Hfollow.
  { unfold contextAction, bind, get, modify. by rewrite Hsame. }
  rewrite Hfollow in Hr. clear Hfollow.
  unfold followAction in Hr. unfold bind at 1 in Hr.
  destruct (preloadMutualGuilds_started env (user_id user) s0)
    as (calls1 & p & Hstarted & Hp).
  rewrite Hstarted in Hr. clear Hstarted.
  unfold bind at 1 in Hr.
  assert (∃ s1,
    settle p (ret tt) (records calls1 s0) = Ok tt s1 ∧
    trace s1 = calls1 ++ trace s ∧
    vars_kept s0 s1 ∧
    attempts s1 = attempts s ∧
    (∀ t, is_searchTick (timer_task t) = true ->
          t ∈ timers s1 <-> t ∈ timers s))
    as (s1 & Hsettle & Htr1 & Hv1 & Ha1 & Ht1).
  { assert (trace (records calls1 s0) = calls1 ++ trace s) as Htr
      by exact (trace_records calls1 s0).
    assert (timers (records calls1 s0) = timers s) as Htm
      by exact (timers_records calls1 s0).
    destruct p as [| |kind k]; cbn [settle].
    - exists (records calls1 s0).
      split; [done|]. split; [done|]. split; [apply vars_kept_records|].
      unfold attempts. rewrite Htm. done.
    - exists (records calls1 s0).
      split; [done|]. split; [done|]. split; [apply vars_kept_records|].
      unfold attempts. rewrite Htm. done.
    - exists (add_timer kind (Resume k) (records calls1 s0)).
      split; [done|]. split; [done|].
      split.
      { etransitivity; [apply vars_kept_records | apply vars_kept_add_timer]. }
      unfold attempts. cbn [timers add_timer]. rewrite Htm.
      split; [by destruct k|].
      intros t Htick. rewrite elem_of_cons. split; [|by right].
      intros [->|Hin]; [done|done]. }
  rewrite Hsettle in Hr. clear Hsettle.
  unfold bind at 1, external in Hr. rewrite Hprobe, Hc in Hr.
  set (s2 := record (VoiceStateStore_getVoiceStateForUser (user_id user)) s1)
    in *.
  destruct (joinVoiceChannel_shape env c s2)
    as (kind & t & calls2 & Heq & Hshape).
  unfold bind at 1 in Hr. rewrite Heq in Hr.
  set (s3 := records calls2 (set_lastFollowedChannelId (Some c) s2)) in *.
  set (s4 := add_timer kind t s3) in *.
  assert (vars_kept (set_lastFollowedChannelId (Some c) s2) s4) as Hv4.
  { etransitivity; [apply vars_kept_records | apply vars_kept_add_timer]. }
  destruct Hv1 as (_&_&_&Hf1&_&_&Hi1&Hs1).
  destruct Hv4 as (_&_&_&Hf4&Hl4&_&Hi4&Hs4).
  assert (timers s4 = mkTimer (nextTimerId s3) kind t :: timers s1) as Htm4.
  { unfold s4, s3. cbn [timers add_timer]. by rewrite timers_records. }
  assert (trace s4 =
          (calls2 ++ [VoiceStateStore_getVoiceStateForUser (user_id user)]
             ++ calls1) ++ trace s) as Htr4.
  { change (trace s4) with (trace s3). unfold s3. rewrite trace_records.
    change (trace (set_lastFollowedChannelId (Some c) s2))
      with (VoiceStateStore_getVoiceStateForUser (user_id user) :: trace s1).
    rewrite Htr1. by rewrite <- !app_assoc. }
  assert (
    after r = record (Toasts_show SUCCESS (followedMessage (username user))) s4 ∧
    (escapes r = true <->
     toast env SUCCESS (followedMessage (username user)) = Throws))
    as (Hafter & Hesc).
  { subst r. unfold showToast, external.
    destruct (toast env SUCCESS (followedMessage (username user))) as [[]|];
      split; done. }
  rewrite Hafter.
  split; [exact (eq_trans Hf4 Hf1)|].
  split; [exact Hl4|].
  split.
  { change (attempts (record ?c ?x)) with (attempts x).
    unfold attempts. rewrite Htm4. cbn [omap list_omap].
    fold (attempts s1). rewrite Ha1.
    by destruct Hshape as [[_ ->]|[_ [g ->]]]. }
  split; [exact (eq_trans Hi4 Hi1)|].
  split; [exact (eq_trans Hs4 Hs1)|].
  split.
  { intros t0 Htick. change (timers (record ?c ?x)) with (timers x).
    rewrite Htm4, elem_of_cons, <- (Ht1 t0 Htick).
    split; [|by right]. intros [->|Hin]; [|done].
    by destruct Hshape as [[_ ->]|[_ [g ->]]]. }
  assert (since s
            (record (Toasts_show SUCCESS (followedMessage (username user))) s4)
          = Toasts_show SUCCESS (followedMessage (username user))
              :: calls2 ++ [VoiceStateStore_getVoiceStateForUser (user_id user)]
              ++ calls1) as ->.
  { apply since_extend. cbn [trace record]. by rewrite Htr4. }
  split; [done|]. split; [|exact Hesc].
  apply list_elem_of_further, elem_of_app. right. apply list_elem_of_here.
Qed.

Lemma follow_in_voice_joins_at_once_witness :
  attempts (after (contextAction (inChannelEnv "c1") alice initial))
    = "c1" :: attempts initial.
Proof.
  destruct (follow_in_voice_joins_at_once (inChannelEnv "c1") alice
              (Some "c1") "c1" initial eq_refl eq_refl eq_refl)
    as (_ & _ & H & _).
  exact H.
Defined.

(** * The hub and the other sub-plugins

    The hub ([index.tsx]) starts, stops and forwards events to the
    sub-plugins; the sub-plugins keep stores of their own.  They use the
    same kind of monad as the follow controller, over their own state. *)

Module Eff.

Inductive Outcome (S A : Type) : Type :=
| Done (a : A) (s : S)
| Threw (s : S).
Arguments Done {S A} a s.
Arguments Threw {S A} s.

Definition Eff (S A : Type) : Type := S -> Outcome S A.

Definition eret {S A} (a : A) : Eff S A := fun s => Done a s.

Definition ebind {S A B} (m : Eff S A) (k : A -> Eff S B) : Eff S B :=
  fun s => match m s with
           | Done a s' => k a s'
           | Threw s' => Threw s'
           end.

Definition throw {S A} : Eff S A := fun s => Threw s.

(** [try { body } catch { handler }] *)
Definition etry {S A} (body handler : Eff S A) : Eff S A :=
  fun s => match body s with
           | Done a s' => Done a s'
           | Threw s' => handler s'
           end.

(** [try { body } finally { cleanup }], for a cleanup that cannot throw. *)
Definition finally {S A} (body : Eff S A) (cleanup : S -> S) : Eff S A :=
  fun s => match body s with
           | Done a s' => Done a (cleanup s')
           | Threw s' => Threw (cleanup s')
           end.

Definition read {S} : Eff S S := fun s => Done s s.

Definition update {S} (f : S -> S) : Eff S unit := fun s => Done tt (f s).

Definition final {S A} (r : Outcome S A) : S :=
  match r with Done _ s => s | Threw s => s end.

Definition threw {S A} (r : Outcome S A) : bool :=
  match r with Done _ _ => false | Threw _ => true end.

Declare Scope eff_scope.
Delimit Scope eff_scope with eff.

Notation "x <- m ;; k" := (ebind m (fun x => k))
  (at level 100, m at next level, right associativity) : eff_scope.
Notation "m ;;; k" := (ebind m (fun _ => k))
  (at level 100, right associativity) : eff_scope.

Local Open Scope eff_scope.

(** [for (const x of xs) body(x)] where the body neither breaks nor
    returns. *)
Fixpoint each {S A} (xs : list A) (body : A -> Eff S unit) : Eff S unit :=
  match xs with
  | [] => eret tt
  | x :: rest => body x ;;; each rest body
  end.

(** The follow controller's monad is this one over its [State]. *)
Definition ofM {A} (m : M A) : Eff State A :=
  fun s => match m s with
           | Ok a s' => Done a s'
           | Exn s' => Threw s'
           end.

End Eff.

Module Hub.
Import Eff.
Local Open Scope eff_scope.

Inductive SubKey :=
| fakeDeafen
| followUser
| goxlr
| hideMicErrorNotice
| rawMic
| vcReturn
| selectiveServerLeaver.

#[export] Instance SubKey_eq_dec : EqDecision SubKey.
Proof. solve_decision. Defined.

(** [Object.keys(started)], in the order of the object literal. *)
Definition keys : list SubKey :=
  [fakeDeafen; followUser; goxlr; hideMicErrorNotice; rawMic; vcReturn;
   selectiveServerLeaver].

(** A sub-plugin as the hub uses it: every member is optional, and a
    call may throw.  [W] is the state of the sub-plugins, [P] the flux
    payload. *)
Record SubPlugin (W P : Type) := mkSubPlugin {
  sub_start : option (Eff W unit);
  sub_stop : option (Eff W unit);
  sub_VOICE_STATE_UPDATES : option (P -> Eff W unit)
}.
Arguments mkSubPlugin {W P} _ _ _.
Arguments sub_start {W P} _.
Arguments sub_stop {W P} _.
Arguments sub_VOICE_STATE_UPDATES {W P} _.

(** The hub's own variables: the [started] table, the two flags of
    [settings.store] that its flux handler reads, and whether the
    interval of the update check is armed. *)
Record HubState (W : Type) := mkHubState {
  world : W;
  started : SubKey -> bool;
  enableFollowUser : bool;
  enableVCReturn : bool;
  updateTimer : bool
}.
Arguments mkHubState {W} _ _ _ _ _.
Arguments world {W} _.
Arguments started {W} _ _.
Arguments enableFollowUser {W} _.
Arguments enableVCReturn {W} _.
Arguments updateTimer {W} _.

Definition set_world {W} (w : W) (hs : HubState W) : HubState W :=
  mkHubState w (started hs) (enableFollowUser hs) (enableVCReturn hs)
    (updateTimer hs).

Definition set_started {W} (key : SubKey) (v : bool) (hs : HubState W)
    : HubState W :=
  mkHubState (world hs)
    (fun k => if decide (k = key) then v else started hs k)
    (enableFollowUser hs) (enableVCReturn hs) (updateTimer hs).

Definition set_updateTimer {W} (v : bool) (hs : HubState W) : HubState W :=
  mkHubState (world hs) (started hs) (enableFollowUser hs)
    (enableVCReturn hs) v.

(** A call into a sub-plugin: it works on the sub-plugins' state only. *)
Definition inSub {W A} (m : Eff W A) : Eff (HubState W) A :=
  fun hs => match m (world hs) with
            | Done a w => Done a (set_world w hs)
            | Threw w => Threw (set_world w hs)
            end.

(** [f?.()] *)
Definition optionalCall {W} (f : option (Eff W unit))
    : Eff (HubState W) unit :=
  match f with
  | Some f => inSub f
  | None => eret tt
  end.

Section Hub.

Context {W P : Type}.
Variable subs : SubKey -> SubPlugin W P.

Definition safeStart (key : SubKey) : Eff (HubState W) unit :=
  hs <- read ;;
  if started hs key then eret tt
  else
    etry
      (optionalCall (sub_start (subs key)) ;;;
       update (set_started key true))
      (* swallow to avoid crashing hub *)
      (eret tt).

Definition safeStop (key : SubKey) : Eff (HubState W) unit :=
  hs <- read ;;
  if negb (started hs key) then eret tt
  else
    finally
      (etry (optionalCall (sub_stop (subs key))) (eret tt))
      (set_started key false).

(** flux.VOICE_STATE_UPDATES of the hub. *)
Definition VOICE_STATE_UPDATES (payload : P) : Eff (HubState W) unit :=
  hs <- read ;;
  etry
    (if enableFollowUser hs then
       optionalCall
         ((fun h => h payload) <$> sub_VOICE_STATE_UPDATES (subs followUser))
     else eret tt)
    (eret tt) ;;;
  etry
    (if enableVCReturn hs then
       optionalCall
         ((fun h => h payload) <$> sub_VOICE_STATE_UPDATES (subs vcReturn))
     else eret tt)
    (eret tt).

Definition stop : Eff (HubState W) unit :=
  (* Stop all sub-plugins *)
  each keys (fun k =>
    hs <- read ;;
    if started hs k then safeStop k else eret tt) ;;;
  (* Clear background update timer *)
  etry (update (set_updateTimer false)) (eret tt).

(** What a sub-plugin's [start] and [stop] leave, whether or not they
    throw. *)
Definition startOf (key : SubKey) (w : W) : W :=
  match sub_start (subs key) with
  | Some f => final (f w)
  | None => w
  end.

Definition stopOf (key : SubKey) (w : W) : W :=
  match sub_stop (subs key) with
  | Some f => final (f w)
  | None => w
  end.

(** What delivering a payload to a sub-plugin's handler leaves. *)
Definition delivered (enabled : bool) (key : SubKey) (payload : P) (w : W)
    : W :=
  if enabled then
    match sub_VOICE_STATE_UPDATES (subs key) with
    | Some h => final (h payload w)
    | None => w
    end
  else w.

Lemma safeStart_eq key hs :
  safeStart key hs =
  Done tt
    (if started hs key then hs
     else
       match sub_start (subs key) with
       | Some f =>
           match f (world hs) with
           | Done _ w => set_started key true (set_world w hs)
           | Threw w => set_world w hs
           end
       | None => set_started key true hs
       end).
Proof.
  unfold safeStart, ebind, read. destruct (started hs key); [done|].
  unfold etry, ebind, optionalCall.
  destruct (sub_start (subs key)) as [f|]; [|done].
  unfold inSub. by destruct (f (world hs)).
Qed.

Lemma safeStop_eq key hs :
  safeStop key hs =
  Done tt
    (if started hs key
     then set_started key false (set_world (stopOf key (world hs)) hs)
     else hs).
Proof.
  unfold safeStop, ebind, read, stopOf. destruct (started hs key); [|done].
  cbn [negb]. unfold finally, etry, optionalCall.
  destruct (sub_stop (subs key)) as [f|].
  - unfold inSub. by destruct (f (world hs)) as [[] w|w].
  - by destruct hs.
Qed.

(** X13.  Stopping a sub-plugin always clears its flag: the hub never throws,
    the flag of the key is off afterwards even when the sub-plugin's
    [stop] throws, no other flag or setting changes, and [stop] runs
    exactly when the flag was on. *)
Theorem safeStop_clears_flag_even_if_stop_throws key hs :
  let r := safeStop key hs in
  threw r = false ∧
  started (final r) key = false ∧
  (∀ k, k ≠ key -> started (final r) k = started hs k) ∧
  world (final r)
    = (if started hs key then stopOf key (world hs) else world hs) ∧
  (enableFollowUser (final r), enableVCReturn (final r),
   updateTimer (final r))
    = (enableFollowUser hs, enableVCReturn hs, updateTimer hs).
Proof.
  intros r. subst r. rewrite safeStop_eq. cbn [threw final].
  destruct (started hs key) eqn:Hk; cbn.
  - split; [done|]. split; [by rewrite decide_True|].
    split; [|done]. intros k Hne. by rewrite decide_False.
  - done.
Qed.

(** X14.  Starting a sub-plugin never throws into the hub and sets its flag
    unless the sub-plugin's [start] throws: then the flag stays off, so
    that a later call runs [start] again.  With the flag already on,
    nothing runs and nothing changes. *)
Theorem safeStart_sets_flag_unless_start_throws key hs :
  let r := safeStart key hs in
  threw r = false ∧
  (started (final r) key = true <->
   started hs key = true ∨
   match sub_start (subs key) with
   | Some f => threw (f (world hs)) = false
   | None => True
   end) ∧
  (∀ k, k ≠ key -> started (final r) k = started hs k) ∧
  (started hs key = true -> final r = hs) ∧
  (started hs key = false -> world (final r) = startOf key (world hs)).
Proof.
  intros r. subst r. rewrite safeStart_eq. cbn [threw final].
  split; [done|]. unfold startOf.
  destruct (started hs key) eqn:Hk.
  { split; [by split; [left|]|]. by repeat split. }
  destruct (sub_start (subs key)) as [f|].
  - destruct (f (world hs)) as [[] w|w]; cbn.
    + rewrite decide_True by done.
      split; [by split; [right|]|].
      split; [|done]. intros k Hne. by rewrite decide_False.
    + rewrite Hk. split; [|done]. split; [done|]. by intros [?|?].
  - cbn. rewrite decide_True by done.
    split; [by split; [right|]|].
    split; [|done]. intros k Hne. by rewrite decide_False.
Qed.

Lemma foldl_ext_in {A B} (f g : A -> B -> A) (l : list B) (a : A) :
  (∀ a b, b ∈ l -> f a b = g a b) -> foldl f a l = foldl g a l.
Proof.
  revert a. induction l as [|b l IH]; intros a H; [done|].
  cbn [foldl]. rewrite (H a b) by apply list_elem_of_here.
  apply IH. intros a' b' Hin. apply H. by apply list_elem_of_further.
Qed.

(** The loop of the hub's [stop] over some of the keys. *)
Lemma stop_loop ks hs :
  NoDup ks ->
  ∃ st,
    each ks (fun k =>
      hs <- read ;;
      if started hs k then safeStop k else eret tt) hs
    = Done tt
        (mkHubState
           (foldl (fun w k => if started hs k then stopOf k w else w)
              (world hs) ks)
           st (enableFollowUser hs) (enableVCReturn hs) (updateTimer hs)) ∧
    ∀ k, st k = if bool_decide (k ∈ ks) then false else started hs k.
Proof.
  intros Hnd. revert hs. induction Hnd as [|key ks Hnotin Hnd IH]; intros hs.
  - exists (started hs). split; [by destruct hs|done].
  - cbn [each]. unfold ebind at 1.
    assert ((hs0 <- read ;;
             if started hs0 key then safeStop key else eret tt) hs =
            Done tt
              (if started hs key
               then set_started key false
                      (set_world (stopOf key (world hs)) hs)
               else hs)) as ->.
    { unfold ebind, read. destruct (started hs key) eqn:Hk; [|done].
      by rewrite safeStop_eq, Hk. }
    set (hs1 := if started hs key then _ else hs).
    assert (world hs1 = (if started hs key then stopOf key (world hs)
                         else world hs)) as Hw
      by (unfold hs1; by destruct (started hs key)).
    assert (∀ k, k ≠ key -> started hs1 k = started hs k) as Hother.
    { intros k Hne. unfold hs1. destruct (started hs key); [|done].
      cbn. by rewrite decide_False. }
    assert (started hs1 key = false) as Hkey.
    { unfold hs1. destruct (started hs key) eqn:Hk; [|done].
      cbn. by rewrite decide_True. }
    assert ((enableFollowUser hs1, enableVCReturn hs1, updateTimer hs1) =
            (enableFollowUser hs, enableVCReturn hs, updateTimer hs)) as Hf
      by (unfold hs1; by destruct (started hs key)).
    injection Hf as Hf1 Hf2 Hf3.
    destruct (IH hs1) as (st & -> & Hst).
    exists st. split.
    + f_equal. rewrite Hf1, Hf2, Hf3. f_equal.
      cbn [foldl]. rewrite Hw.
      apply foldl_ext_in. intros w k Hin.
      rewrite Hother; [done|]. intros ->. done.
    + intros k. rewrite Hst.
      destruct (decide (k = key)) as [->|Hne].
      * rewrite (bool_decide_eq_false_2 _ Hnotin), Hkey.
        by rewrite bool_decide_eq_true_2 by apply list_elem_of_here.
      * rewrite (Hother k Hne).
        destruct (bool_decide (k ∈ ks)) eqn:Hin.
        -- apply bool_decide_eq_true_1 in Hin.
           by rewrite bool_decide_eq_true_2 by (by apply list_elem_of_further).
        -- apply bool_decide_eq_false_1 in Hin.
           rewrite bool_decide_eq_false_2; [done|].
           by intros [?|?]%elem_of_cons.
Qed.

Lemma NoDup_keys : NoDup keys.
Proof. apply (bool_decide_eq_true_1 _). reflexivity. Qed.

(** X15.  The hub's [stop] never throws, whatever the sub-plugins' [stop]s do.
    Afterwards no sub-plugin is marked started and the update interval
    is cleared; the [stop]s that ran are those of the sub-plugins marked
    started, once each, in the order of the table.  A second [stop]
    right after it runs nothing. *)
Theorem stop_leaves_nothing_started hs :
  let r := stop hs in
  threw r = false ∧
  (∀ k, started (final r) k = false) ∧
  updateTimer (final r) = false ∧
  world (final r)
    = foldl (fun w k => if started hs k then stopOf k w else w)
        (world hs) keys ∧
  world (final (stop (final r))) = world (final r).
Proof.
  assert (∀ hs0,
    ∃ st,
      stop hs0 =
      Done tt
        (mkHubState
           (foldl (fun w k => if started hs0 k then stopOf k w else w)
              (world hs0) keys)
           st (enableFollowUser hs0) (enableVCReturn hs0) false) ∧
      ∀ k, st k = false) as Hstop.
  { intros hs0. destruct (stop_loop keys hs0 NoDup_keys) as (st & Heq & Hst).
    exists st. split.
    - unfold stop. unfold ebind at 1. by rewrite Heq.
    - intros k. rewrite Hst. rewrite bool_decide_eq_true_2; [done|].
      unfold keys. destruct k; set_solver. }
  intros r. subst r.
  destruct (Hstop hs) as (st & -> & Hst). cbn [threw final].
  split; [done|]. split; [exact Hst|]. split; [done|]. split; [done|].
  destruct (Hstop (mkHubState
           (foldl (fun w k => if started hs k then stopOf k w else w)
              (world hs) keys)
           st (enableFollowUser hs) (enableVCReturn hs) false))
    as (st' & -> & _).
  cbn [final world started].
  set (w0 := foldl _ (world hs) keys). clearbody w0. revert w0.
  generalize keys as ks.
  induction ks as [|k ks IH]; intros w0; [done|].
  cbn [foldl]. rewrite Hst. apply IH.
Qed.

Lemma VOICE_STATE_UPDATES_eq payload hs :
  VOICE_STATE_UPDATES payload hs =
  Done tt
    (set_world
       (delivered (enableVCReturn hs) vcReturn payload
          (delivered (enableFollowUser hs) followUser payload (world hs)))
       hs).
Proof.
  unfold VOICE_STATE_UPDATES, delivered.
  unfold ebind, read, etry, optionalCall.
  destruct hs as [w st f v u]. cbn [enableFollowUser enableVCReturn world].
  destruct f, v;
    destruct (sub_VOICE_STATE_UPDATES (subs followUser)) as [h1|];
    destruct (sub_VOICE_STATE_UPDATES (subs vcReturn)) as [h2|];
    cbn; unfold inSub; cbn;
    try destruct (h1 payload w) as [[] w1|w1]; cbn;
    try destruct (h2 payload _) as [[] w2|w2]; cbn; done.
Qed.

(** X16.  The hub's flux handler never throws.  It hands the payload to the
    follow sub-plugin when [enableFollowUser] is on and then to the
    voice-return sub-plugin when [enableVCReturn] is on; the second
    delivery happens whether or not the first handler threw.  The hub's
    own variables stay as they are. *)
Theorem VOICE_STATE_UPDATES_reaches_each_enabled_handler payload hs :
  let r := VOICE_STATE_UPDATES payload hs in
  threw r = false ∧
  world (final r)
    = delivered (enableVCReturn hs) vcReturn payload
        (delivered (enableFollowUser hs) followUser payload (world hs)) ∧
  (∀ k, started (final r) k = started hs k) ∧
  (enableFollowUser (final r), enableVCReturn (final r),
   updateTimer (final r))
    = (enableFollowUser hs, enableVCReturn hs, updateTimer hs).
Proof. intros r. subst r. by rewrite VOICE_STATE_UPDATES_eq. Qed.

End Hub.

End Hub.

(** ** The follow controller as a sub-plugin of the hub *)

Section Installed.

Import Eff.

(** [V] is the state of the other sub-plugins, [P] the flux payload and
    [voiceStates] its list of updates. *)
Context {V P : Type}.
Variable env : Env.
Variable voiceStates : P -> list VoiceState.
Variable others : Hub.SubKey -> Hub.SubPlugin V P.

Definition inController {A} (m : M A) : Eff (State * V) A :=
  fun w => match m w.1 with
           | Ok a s => Done a (s, w.2)
           | Exn s => Threw (s, w.2)
           end.

Definition inOthers {A} (m : Eff V A) : Eff (State * V) A :=
  fun w => match m w.2 with
           | Done a v => Done a (w.1, v)
           | Threw v => Threw (w.1, v)
           end.

(** The object [definePlugin] returns in plugins/followUser. *)
Definition FollowUser : Hub.SubPlugin (State * V) P :=
  Hub.mkSubPlugin
    (Some (inController start))
    (Some (inController stop))
    (Some (fun payload =>
             inController (VOICE_STATE_UPDATES env (voiceStates payload)))).

(** The table [subs]. *)
Definition subs (key : Hub.SubKey) : Hub.SubPlugin (State * V) P :=
  match key with
  | Hub.followUser => FollowUser
  | _ =>
      Hub.mkSubPlugin
        (inOthers <$> Hub.sub_start (others key))
        (inOthers <$> Hub.sub_stop (others key))
        ((fun h payload => inOthers (h payload))
           <$> Hub.sub_VOICE_STATE_UPDATES (others key))
  end.

(** X17.  Forwarded by the hub, a batch of updates reaches the follow
    controller exactly when [enableFollowUser] is on, and nothing the
    controller's handler throws reaches the host: the controller ends in
    the state its handler left, and the hub's handler returns. *)
Theorem hub_forwards_updates_and_shields_host payload hs :
  let r := Hub.VOICE_STATE_UPDATES subs payload hs in
  Eff.threw r = false ∧
  (Hub.world (Eff.final r)).1 =
    (if Hub.enableFollowUser hs
     then after (VOICE_STATE_UPDATES env (voiceStates payload)
                   (Hub.world hs).1)
     else (Hub.world hs).1).
Proof.
  intros r. subst r.
  rewrite Hub.VOICE_STATE_UPDATES_eq. cbn [Eff.threw Eff.final].
  split; [done|]. cbn [Hub.world Hub.set_world].
  unfold Hub.delivered.
  set (w1 := if Hub.enableFollowUser hs then _ else Hub.world hs).
  assert (w1.1 =
          (if Hub.enableFollowUser hs
           then after (VOICE_STATE_UPDATES env (voiceStates payload)
                         (Hub.world hs).1)
           else (Hub.world hs).1)) as <-.
  { unfold w1. destruct (Hub.enableFollowUser hs); [|done].
    unfold subs, FollowUser. cbn [Hub.sub_VOICE_STATE_UPDATES].
    unfold inController.
    by destruct (VOICE_STATE_UPDATES env (voiceStates payload)
                   (Hub.world hs).1). }
  destruct (Hub.enableVCReturn hs); [|done].
  cbn. destruct (Hub.sub_VOICE_STATE_UPDATES (others Hub.vcReturn)) as [h|];
    [|done].
  cbn. unfold inOthers. by destruct (h payload w1.2).
Qed.

(** X18.  Switching the follow sub-plugin off through the hub ends the
    session: the hub clears its flag, and the controller has no followed
    identity, no recorded channel, an empty cache and no search tick
    pending.  Switching it on while it is on restarts nothing: the
    controller keeps its session. *)
Theorem hub_toggle_of_follow_controller hs :
  Hub.started hs Hub.followUser = true ->
  reachable (Hub.world hs).1 ->
  let off := Eff.final (Hub.safeStop subs Hub.followUser hs) in
  Eff.final (Hub.safeStart subs Hub.followUser hs) = hs ∧
  Hub.started off Hub.followUser = false ∧
  (Hub.world off).2 = (Hub.world hs).2 ∧
  followedUserId (Hub.world off).1 = None ∧
  lastFollowedChannelId (Hub.world off).1 = None ∧
  preloadedGuilds (Hub.world off).1 = ∅ ∧
  isSearching (Hub.world off).1 = false ∧
  (∀ t, t ∈ timers (Hub.world off).1 ->
        is_searchTick (timer_task t) = false).
Proof.
  intros Hstarted Hreach off. subst off.
  split.
  { rewrite Hub.safeStart_eq. by rewrite Hstarted. }
  rewrite Hub.safeStop_eq, Hstarted. cbn [Eff.final].
  assert (Hub.stopOf subs Hub.followUser (Hub.world hs) =
          (stopped (cleared (Hub.world hs).1), (Hub.world hs).2)) as Hw.
  { unfold Hub.stopOf. cbn. unfold inController. by rewrite stop_eq. }
  cbn [Hub.world Hub.set_started Hub.set_world Hub.started].
  rewrite Hw. cbn [fst snd].
  assert (wf (cleared (Hub.world hs).1)) as Hwf.
  { apply wf_set_preloadedGuilds, wf_set_lastFollowedChannelId,
      wf_set_followedUserId. by apply reachable_wf. }
  destruct (stopped_fields (cleared (Hub.world hs).1))
    as (Hf & Hl & Hc & _ & Hs).
  split; [by rewrite decide_True|]. split; [done|].
  split; [by rewrite Hf|]. split; [by rewrite Hl|]. split; [by rewrite Hc|].
  split; [done|].
  intros t Hin. by apply (stopped_no_ticks (cleared (Hub.world hs).1)).
Qed.

End Installed.

(** Nobody is in voice, and showing a toast throws. *)
Definition toastThrowsEnv : Env :=
  {| getChannel := getChannel emptyEnv;
     isPrivate := isPrivate emptyEnv;
     can := can emptyEnv;
     getGuildIds := getGuildIds emptyEnv;
     getGuild := getGuild emptyEnv;
     getMember := getMember emptyEnv;
     getVoiceStates := getVoiceStates emptyEnv;
     getVoiceStateForUser := getVoiceStateForUser emptyEnv;
     getDefaultChannel := getDefaultChannel emptyEnv;
     getVoiceChannelId := getVoiceChannelId emptyEnv;
     getUser := getUser emptyEnv;
     hasPreload := true;
     preload := preload emptyEnv;
     preloadSettles := preloadSettles emptyEnv;
     dispatch := dispatch emptyEnv;
     transitionToChannel := transitionToChannel emptyEnv;
     selectVoiceChannel := selectVoiceChannel emptyEnv;
     toast := fun _ _ => Throws;
     restGet := restGet emptyEnv;
     restResponse := restResponse emptyEnv |}.

(** Sub-plugins whose [start] and [stop] throw. *)
Definition throwingSubs (key : Hub.SubKey) : Hub.SubPlugin unit (list VoiceState) :=
  Hub.mkSubPlugin (Some Eff.throw) (Some Eff.throw) None.

(** A hub with every sub-plugin started, the follow controller following
    "A" into c1. *)
Definition hubFollowingA : Hub.HubState (State * unit) :=
  Hub.mkHubState (followingA, tt) (fun _ => true) true true true.

Lemma hub_forwards_updates_and_shields_host_witness :
  escapes (VOICE_STATE_UPDATES toastThrowsEnv
             [mkVoiceState (Some "A") None] followingA) = true ∧
  Eff.threw (Hub.VOICE_STATE_UPDATES (subs toastThrowsEnv id throwingSubs)
               [mkVoiceState (Some "A") None] hubFollowingA) = false.
Proof.
  split; [reflexivity|].
  apply (hub_forwards_updates_and_shields_host toastThrowsEnv id throwingSubs
           [mkVoiceState (Some "A") None] hubFollowingA).
Defined.

Lemma hub_toggle_of_follow_controller_witness :
  followedUserId followingA = Some "A" ∧
  followedUserId
    (Hub.world
       (Eff.final
          (Hub.safeStop (subs emptyEnv id throwingSubs) Hub.followUser
             hubFollowingA))).1 = None.
Proof.
  split; [reflexivity|].
  assert (reachable followingA) as Hr
    by apply reachable_run, reachable_initial.
  destruct (hub_toggle_of_follow_controller emptyEnv id throwingSubs
              hubFollowingA eq_refl Hr) as (_ & _ & _ & H & _).
  exact H.
Defined.

Lemma safeStop_clears_flag_even_if_stop_throws_witness :
  let r := Hub.safeStop (subs emptyEnv id throwingSubs) Hub.rawMic
             hubFollowingA in
  Eff.threw r = false ∧ Hub.started (Eff.final r) Hub.rawMic = false.
Proof.
  destruct (Hub.safeStop_clears_flag_even_if_stop_throws
              (subs emptyEnv id throwingSubs) Hub.rawMic hubFollowingA)
    as (H1 & H2 & _).
  split; [exact H1 | exact H2].
Defined.

Lemma safeStart_sets_flag_unless_start_throws_witness :
  let hs := Hub.set_started Hub.rawMic false hubFollowingA in
  Hub.started
    (Eff.final (Hub.safeStart (subs emptyEnv id throwingSubs) Hub.rawMic hs))
    Hub.rawMic ≠ true.
Proof.
  intros hs.
  destruct (Hub.safeStart_sets_flag_unless_start_throws
              (subs emptyEnv id throwingSubs) Hub.rawMic hs)
    as (_ & H & _).
  intros Hstarted. apply H in Hstarted. by destruct Hstarted.
Defined.

Lemma stop_leaves_nothing_started_witness :
  let r := Hub.stop (subs emptyEnv id throwingSubs) hubFollowingA in
  Eff.threw r = false ∧ Hub.started (Eff.final r) Hub.vcReturn = false.
Proof.
  destruct (Hub.stop_leaves_nothing_started
              (subs emptyEnv id throwingSubs) hubFollowingA)
    as (H1 & H2 & _).
  split; [exact H1 | exact (H2 Hub.vcReturn)].
Defined.

Lemma VOICE_STATE_UPDATES_reaches_each_enabled_handler_witness :
  Eff.threw
    (Hub.VOICE_STATE_UPDATES (subs toastThrowsEnv id throwingSubs)
       [mkVoiceState (Some "A") None] hubFollowingA) = false.
Proof.
  apply (Hub.VOICE_STATE_UPDATES_reaches_each_enabled_handler
           (subs toastThrowsEnv id throwingSubs)
           [mkVoiceState (Some "A") None] hubFollowingA).
Defined.

(** * The voice-return sub-plugin ([plugins/vcReturn]) *)

Module VCReturn.
Import Eff.
Local Open Scope eff_scope.

(* Discord voice channel types *)
Definition CHANNEL_TYPE_GUILD_VOICE : Z := 2.
Definition CHANNEL_TYPE_GUILD_STAGE_VOICE : Z := 13.

Record VoiceState := mkVoiceState {
  userId : option string;
  channelId : option string;
  oldChannelId : option string
}.

(** The collaborators: the stores, and whether each localStorage call
    throws.  [getChannel] gives the [type] of the channel, if there is
    one. *)
Record Env := mkEnv {
  getId : Attempt (option string);
  getChannel : string -> Attempt (option Z);
  setItem : string -> Attempt unit;
  removeItem : Attempt unit;
  getItem : Attempt unit
}.

(** The plugin's state: the value under STORAGE_KEY in localStorage. *)
Definition Storage : Type := option string.

Definition call {A} (r : Attempt A) : Eff Storage A :=
  fun s => match r with
           | Returns a => Done a s
           | Throws => Threw s
           end.

Section VCReturn.

Variable env : Env.

Definition isVoiceLikeChannel (id : option string) : Eff Storage bool :=
  match truthy id with
  | None => eret false
  | Some id =>
      ch <- call (getChannel env id) ;;
      match ch with
      | None => eret false
      | Some type =>
          eret ((type =? CHANNEL_TYPE_GUILD_VOICE) ||
                (type =? CHANNEL_TYPE_GUILD_STAGE_VOICE))
      end
  end.

Definition saveLastChannel (id : option string) : Eff Storage unit :=
  match truthy id with
  | None => eret tt
  | Some id' =>
      voiceLike <- isVoiceLikeChannel id ;;
      if negb voiceLike then eret tt
      else
        etry
          (call (setItem env id') ;;; update (fun _ => Some id'))
          (eret tt)
  end.

Definition clearLastChannel : Eff Storage unit :=
  etry (call (removeItem env) ;;; update (fun _ => None)) (eret tt).

Definition getLastChannel : Eff Storage (option string) :=
  etry
    (call (getItem env) ;;;
     id <- read ;;
     match truthy id with
     | None => eret None
     | Some id' =>
         voiceLike <- isVoiceLikeChannel id ;;
         eret (if (voiceLike : bool) then Some id' else None)
     end)
    (eret None).

(** The body of the loop of flux.VOICE_STATE_UPDATES for one update. *)
Definition voiceStateUpdate (me : string) (vs : VoiceState)
    : Eff Storage unit :=
  if negb (bool_decide (userId vs = Some me)) then eret tt
  else
    (* If we moved or joined a voice channel, save it *)
    (match truthy (channelId vs) with
     | Some _ => saveLastChannel (channelId vs)
     | None => eret tt
     end) ;;;
    (* If we left voice, clear stored channel *)
    match truthy (channelId vs), oldChannelId vs with
    | None, Some _ => clearLastChannel
    | _, _ => eret tt
    end.

(** flux.VOICE_STATE_UPDATES.  [voiceStates] is [None] when the field of
    the payload is not an array. *)
Definition VOICE_STATE_UPDATES (voiceStates : option (list VoiceState))
    : Eff Storage unit :=
  etry
    (me <- call (getId env) ;;
     match truthy me, voiceStates with
     | Some me, Some voiceStates => each voiceStates (voiceStateUpdate me)
     | _, _ => eret tt
     end)
    (eret tt).

(** The channel store lists [id] as a voice or stage channel. *)
Definition voiceLike (id : string) : Prop :=
  ∃ type,
    getChannel env id = Returns (Some type) ∧
    (type = CHANNEL_TYPE_GUILD_VOICE ∨ type = CHANNEL_TYPE_GUILD_STAGE_VOICE).

Lemma isVoiceLikeChannel_spec id s :
  match isVoiceLikeChannel id s with
  | Done true s' => s' = s ∧ ∃ id', truthy id = Some id' ∧ voiceLike id'
  | Done false s' => s' = s
  | Threw s' => s' = s
  end.
Proof.
  unfold isVoiceLikeChannel. destruct (truthy id) as [id'|]; [|done].
  unfold ebind, call. destruct (getChannel env id') as [[type|]|] eqn:Hch;
    [|done|done].
  unfold eret.
  destruct ((type =? CHANNEL_TYPE_GUILD_VOICE) ||
            (type =? CHANNEL_TYPE_GUILD_STAGE_VOICE)) eqn:Hty; [|done].
  split; [done|]. exists id'. split; [done|]. exists type. split; [done|].
  apply orb_true_iff in Hty as [H|H]; apply Z.eqb_eq in H; auto.
Qed.

(** What one call of saveLastChannel can do to the storage. *)
Lemma saveLastChannel_spec id s :
  match saveLastChannel id s with
  | Done _ s' =>
      s' = s ∨ ∃ id', truthy id = Some id' ∧ voiceLike id' ∧ s' = Some id'
  | Threw s' => s' = s
  end.
Proof.
  unfold saveLastChannel. destruct (truthy id) as [id'|] eqn:Hid; [|by left].
  unfold ebind at 1. pose proof (isVoiceLikeChannel_spec id s) as Hv.
  destruct (isVoiceLikeChannel id s) as [[|] s1|s1].
  - destruct Hv as [-> (id2 & Hid2 & Hvl)].
    assert (id2 = id') as -> by congruence.
    cbn [negb]. unfold etry, ebind, call, update.
    destruct (setItem env id') as [[]|]; [|by left].
    right. by exists id'.
  - subst s1. by left.
  - done.
Qed.

Lemma clearLastChannel_spec s :
  ∃ s', clearLastChannel s = Done tt s' ∧ (s' = s ∨ s' = None).
Proof.
  unfold clearLastChannel, etry, ebind, call, update.
  destruct (removeItem env) as [[]|]; eexists; split; eauto.
Qed.

(** X19.  Whatever this handler stores is a channel of the current user that
    the channel store listed as a voice or stage channel: after any
    batch, the stored id is the one stored before, or none, or the
    channel of an update of the current user in the batch which was
    voice-like when it was saved.  The handler never throws. *)
Theorem VOICE_STATE_UPDATES_stores_own_voice_channels voiceStates s :
  let r := VOICE_STATE_UPDATES voiceStates s in
  threw r = false ∧
  (final r = s ∨ final r = None ∨
   ∃ me vss vs id,
     getId env = Returns (Some me) ∧ voiceStates = Some vss ∧
     vs ∈ vss ∧ userId vs = Some me ∧
     truthy (channelId vs) = Some id ∧ voiceLike id ∧
     final r = Some id).
Proof.
  intros r. subst r.
  split.
  { unfold VOICE_STATE_UPDATES, etry. by destruct (ebind _ _ s). }
  remember (final (VOICE_STATE_UPDATES voiceStates s)) as sf eqn:Hsf.
  unfold VOICE_STATE_UPDATES, etry in Hsf. unfold ebind at 1 in Hsf.
  unfold call in Hsf.
  destruct (getId env) as [me|] eqn:Hme; [|by left].
  destruct (truthy me) as [me'|] eqn:Hme'; [|by left].
  assert (me = Some me') as ->.
  { destruct me as [m|]; [|done]. cbn in Hme'.
    destruct (String.eqb m ""); congruence. }
  destruct voiceStates as [vss|]; [|by left].
  set (P := fun s1 : Storage =>
    s1 = s ∨ s1 = None ∨
    ∃ vs id, vs ∈ vss ∧ userId vs = Some me' ∧
      truthy (channelId vs) = Some id ∧ voiceLike id ∧ s1 = Some id).
  assert (∀ l s0,
    P s0 -> (∀ vs, vs ∈ l -> vs ∈ vss) ->
    P (final (each l (voiceStateUpdate me') s0))) as Hloop.
  { induction l as [|vs l IH]; intros s0 H0 Hsub; [exact H0|].
    cbn [each]. unfold ebind at 1.
    assert (P (final (voiceStateUpdate me' vs s0))) as Hstep.
    { unfold voiceStateUpdate.
      destruct (bool_decide_reflect (userId vs = Some me')) as [Hmine|_];
        [|exact H0].
      cbn [negb]. unfold ebind at 1.
      assert (P (final (match truthy (channelId vs) with
                        | Some _ => saveLastChannel (channelId vs)
                        | None => eret tt
                        end s0))) as Hsave.
      { destruct (truthy (channelId vs)) as [c|] eqn:Hc; [|exact H0].
        pose proof (saveLastChannel_spec (channelId vs) s0) as Hs.
        destruct (saveLastChannel (channelId vs) s0) as [[] s1|s1];
          cbn [final].
        - destruct Hs as [->|(id' & Hid & Hvl & ->)]; [exact H0|].
          right. right. exists vs, id'.
          split; [apply Hsub, list_elem_of_here|]. by rewrite Hid.
        - by subst s1. }
      destruct (match truthy (channelId vs) with
                | Some _ => saveLastChannel (channelId vs)
                | None => eret tt
                end s0) as [[] s1|s1]; cbn [final] in *; [|exact Hsave].
      destruct (truthy (channelId vs)); [exact Hsave|].
      destruct (oldChannelId vs); [|exact Hsave].
      destruct (clearLastChannel_spec s1) as (sc & Hclear & [->| ->]);
        rewrite Hclear;
        cbn [final]; [exact Hsave | by right; left]. }
    destruct (voiceStateUpdate me' vs s0) as [[] s1|s1]; cbn [final] in *.
    - apply IH; [exact Hstep|].
      intros vs' Hin. by apply Hsub, list_elem_of_further.
    - exact Hstep. }
  specialize (Hloop vss s (or_introl eq_refl) (fun _ H => H)).
  assert (∀ s1, P s1 ->
    s1 = s ∨ s1 = None ∨
    ∃ me vss0 vs id,
      Returns (Some me') = Returns (Some me) ∧ Some vss = Some vss0 ∧
      vs ∈ vss0 ∧ userId vs = Some me ∧
      truthy (channelId vs) = Some id ∧ voiceLike id ∧ s1 = Some id) as HP.
  { intros s1 [H|[H|(vs & id & H1 & H2 & H3 & H4 & H5)]];
      [by left | by right; left |].
    right; right. by exists me', vss, vs, id. }
  apply HP.
  destruct (each vss (voiceStateUpdate me') s) as [[] s1|s1];
    cbn [final eret] in *; by subst sf.
Qed.

Lemma isVoiceLikeChannel_voiceLike id s :
  id ≠ "" -> voiceLike id -> isVoiceLikeChannel (Some id) s = Done true s.
Proof.
  intros Hid (type & Hch & Hty). unfold isVoiceLikeChannel.
  rewrite (truthy_Some id Hid). unfold ebind, call. rewrite Hch.
  unfold eret. by destruct Hty as [-> | ->].
Qed.

Lemma getLastChannel_voiceLike id :
  getItem env = Returns tt -> id ≠ "" -> voiceLike id ->
  getLastChannel (Some id) = Done (Some id) (Some id).
Proof.
  intros Hget Hid Hvl. unfold getLastChannel, etry, ebind at 1, call.
  rewrite Hget. unfold ebind at 1, read. rewrite (truthy_Some id Hid).
  unfold ebind. by rewrite (isVoiceLikeChannel_voiceLike id _ Hid Hvl).
Qed.

(** X20.  getLastChannel never throws and leaves the storage alone.  It
    returns an id exactly when reading the storage works, the stored
    value is that id, and the channel store now lists it as a voice or
    stage channel; otherwise it returns null. *)
Theorem getLastChannel_returns_stored_voice_channel_only s :
  ∃ o,
    getLastChannel s = Done o s ∧
    ∀ id, o = Some id <->
          getItem env = Returns tt ∧ s = Some id ∧ id ≠ "" ∧ voiceLike id.
Proof.
  destruct (getItem env) as [[]|] eqn:Hget.
  2:{ exists None. split.
      - unfold getLastChannel, etry, ebind at 1, call. by rewrite Hget.
      - intros id. split; [done|]. by intros [? _]. }
  destruct (truthy s) as [id'|] eqn:Hs.
  - assert (s = Some id' ∧ id' ≠ "") as [-> Hne].
    { destruct s as [x|]; [|done]. cbn in Hs.
      destruct (String.eqb_spec x ""); [done|]. by injection Hs as ->. }
    pose proof (isVoiceLikeChannel_spec (Some id') (Some id')) as Hv.
    destruct (isVoiceLikeChannel (Some id') (Some id')) as [[|] s1|s1]
      eqn:Hrun.
    + destruct Hv as [-> (id2 & Hid2 & Hvl)].
      rewrite Hs in Hid2. injection Hid2 as <-.
      exists (Some id'). split; [by apply getLastChannel_voiceLike|].
      intros id. split.
      * intros [= <-]. done.
      * by intros (_ & [= <-] & _).
    + subst s1. exists None. split.
      * unfold getLastChannel, etry, ebind at 1, call. rewrite Hget.
        unfold ebind at 1, read. rewrite Hs. unfold ebind.
        by rewrite Hrun.
      * intros id. split; [done|]. intros (_ & [= <-] & _ & Hvl).
        by rewrite (isVoiceLikeChannel_voiceLike id' _ Hne Hvl) in Hrun.
    + subst s1. exists None. split.
      * unfold getLastChannel, etry, ebind at 1, call. rewrite Hget.
        unfold ebind at 1, read. rewrite Hs. unfold ebind.
        by rewrite Hrun.
      * intros id. split; [done|]. intros (_ & [= <-] & _ & Hvl).
        by rewrite (isVoiceLikeChannel_voiceLike id' _ Hne Hvl) in Hrun.
  - exists None. split.
    + unfold getLastChannel, etry, ebind at 1, call. rewrite Hget.
      unfold ebind at 1, read. by rewrite Hs.
    + intros id. split; [done|].
      intros (_ & -> & Hne & _). cbn in Hs.
      by destruct (String.eqb_spec id "").
Qed.

(** X21.  A round trip through the storage.  When the current user joins a
    voice-like channel and the write works, that channel is stored and
    getLastChannel reads it back.  When the user leaves voice and the
    update names the channel left, the stored channel is removed; a
    leave update without an old channel keeps it. *)
Theorem own_updates_save_and_clear_last_channel me c old s :
  getId env = Returns (Some me) -> me ≠ "" ->
  (c ≠ "" -> voiceLike c -> setItem env c = Returns tt ->
   getItem env = Returns tt ->
   VOICE_STATE_UPDATES (Some [mkVoiceState (Some me) (Some c) old]) s
     = Done tt (Some c) ∧
   getLastChannel (Some c) = Done (Some c) (Some c)) ∧
  (removeItem env = Returns tt ->
   VOICE_STATE_UPDATES (Some [mkVoiceState (Some me) None (Some c)]) s
     = Done tt None) ∧
  VOICE_STATE_UPDATES (Some [mkVoiceState (Some me) None None]) s
    = Done tt s.
Proof.
  intros Hme Hne.
  assert (∀ vs,
    VOICE_STATE_UPDATES (Some [vs]) s =
    etry (voiceStateUpdate me vs ;;; eret tt) (eret tt) s) as Hsingle.
  { intros vs. unfold VOICE_STATE_UPDATES, etry. unfold ebind at 1, call.
    rewrite Hme. by rewrite (truthy_Some me Hne). }
  split; [|split].
  - intros Hc Hvl Hset Hget. split.
    + rewrite Hsingle. unfold etry, ebind at 1, voiceStateUpdate.
      cbn [userId channelId oldChannelId].
      rewrite bool_decide_eq_true_2 by done. cbn [negb].
      rewrite (truthy_Some c Hc). unfold ebind at 1, saveLastChannel.
      rewrite (truthy_Some c Hc). unfold ebind at 1.
      rewrite (isVoiceLikeChannel_voiceLike c s Hc Hvl). cbn [negb].
      unfold etry, ebind, call, update. by rewrite Hset.
    + by apply getLastChannel_voiceLike.
  - intros Hrm. rewrite Hsingle. unfold etry, ebind at 1, voiceStateUpdate.
    cbn [userId channelId oldChannelId truthy].
    rewrite bool_decide_eq_true_2 by done. cbn [negb].
    unfold ebind at 1, eret, clearLastChannel, etry, ebind, call, update.
    by rewrite Hrm.
  - rewrite Hsingle. unfold etry, ebind at 1, voiceStateUpdate.
    cbn [userId channelId oldChannelId truthy].
    by rewrite bool_decide_eq_true_2 by done.
Qed.

(** X22.  The channel lookup of saveLastChannel is outside its [try]: when it
    throws for an update of the current user, the handler's [catch]
    ends the batch there, and the updates after it are not looked at. *)
Theorem failed_lookup_ends_batch me c old rest s :
  getId env = Returns (Some me) -> me ≠ "" ->
  c ≠ "" -> getChannel env c = Throws ->
  VOICE_STATE_UPDATES
    (Some (mkVoiceState (Some me) (Some c) old :: rest)) s
    = Done tt s.
Proof.
  intros Hme Hne Hc Hch.
  unfold VOICE_STATE_UPDATES, etry. unfold ebind at 1, call.
  rewrite Hme. rewrite (truthy_Some me Hne). cbn [each].
  unfold ebind at 1, voiceStateUpdate.
  cbn [userId channelId oldChannelId].
  rewrite bool_decide_eq_true_2 by done. cbn [negb].
  rewrite (truthy_Some c Hc). unfold ebind at 1, saveLastChannel.
  rewrite (truthy_Some c Hc). unfold ebind at 1, isVoiceLikeChannel.
  rewrite (truthy_Some c Hc). unfold ebind at 1, call. by rewrite Hch.
Qed.

End VCReturn.

(** Channel v1 is a voice channel, s1 a stage channel, t1 a text
    channel; the current user is "me". *)
Definition calmEnv : Env :=
  mkEnv (Returns (Some "me"))
    (fun id =>
       if String.eqb id "v1" then Returns (Some 2)
       else if String.eqb id "s1" then Returns (Some 13)
       else if String.eqb id "t1" then Returns (Some 0)
       else if String.eqb id "bad" then Throws
       else Returns None)
    (fun _ => Returns tt) (Returns tt) (Returns tt).

End VCReturn.

Lemma VOICE_STATE_UPDATES_stores_own_voice_channels_witness :
  Eff.threw
    (VCReturn.VOICE_STATE_UPDATES VCReturn.calmEnv
       (Some [VCReturn.mkVoiceState (Some "me") (Some "bad") None]) None)
    = false.
Proof.
  apply (VCReturn.VOICE_STATE_UPDATES_stores_own_voice_channels
           VCReturn.calmEnv).
Defined.

Lemma getLastChannel_returns_stored_voice_channel_only_witness :
  VCReturn.getLastChannel VCReturn.calmEnv (Some "t1")
    = Eff.Done None (Some "t1").
Proof.
  destruct (VCReturn.getLastChannel_returns_stored_voice_channel_only
              VCReturn.calmEnv (Some "t1")) as (o & -> & Ho).
  f_equal. destruct o as [id|]; [|done].
  destruct (proj1 (Ho id) eq_refl) as (_ & [= <-] & _ & (type & Hch & Hty)).
  vm_compute in Hch. injection Hch as <-. by destruct Hty.
Defined.

Lemma own_updates_save_and_clear_last_channel_witness :
  VCReturn.VOICE_STATE_UPDATES VCReturn.calmEnv
    (Some [VCReturn.mkVoiceState (Some "me") (Some "s1") None]) None
    = Eff.Done tt (Some "s1").
Proof.
  destruct (VCReturn.own_updates_save_and_clear_last_channel VCReturn.calmEnv
              "me" "s1" None None eq_refl) as ((H & _) & _).
  - done.
  - done.
  - exists 13. split; [reflexivity|by right].
  - reflexivity.
  - reflexivity.
  - exact H.
Defined.

Lemma failed_lookup_ends_batch_witness :
  VCReturn.VOICE_STATE_UPDATES VCReturn.calmEnv
    (Some [VCReturn.mkVoiceState (Some "me") (Some "bad") None;
           VCReturn.mkVoiceState (Some "me") (Some "v1") None]) None
    = Eff.Done tt None.
Proof.
  apply (VCReturn.failed_lookup_ends_batch VCReturn.calmEnv "me" "bad");
    [reflexivity | done | done | reflexivity].
Defined.

(** * The selective server leaver ([plugins/selectiveServerLeaver])

    The two mass actions of the modal.  Each is an async function; its
    own steps are modelled in order, every [await] of a timer being a
    recorded wait.  Handlers that run during an [await] cannot touch the
    counters or the selection captured by the action. *)

Module SelectiveServerLeaver.
Import Eff.
Local Open Scope eff_scope.

Record GuildLite := mkGuildLite {
  id : string;
  name : string;
  icon : option string;
  ownerId : string
}.

Inductive ToastType := FAILURE | SUCCESS.

Inductive Call :=
| Alerts_show (title body : string)
| window_prompt
| RestAPI_del (url : string) (mfaCode : option string)
| FluxDispatcher_dispatch (guildId : string)  (* type: "GUILD_DELETE" *)
| setTimeout (ms : Z)
| Toasts_show (type : ToastType) (message : string)
| onClose.

(** The collaborators.  [alert title] says whether the dialog with that
    title is confirmed; [prompt] is the trimmed answer to the 2FA
    prompt; [del url n] and [dispatch guildId n] answer the first
    ([n = 0]) and the retried ([n = 1]) call for one guild. *)
Record Env := mkEnv {
  alert : string -> Attempt bool;
  prompt : Attempt (option string);
  del : string -> nat -> Attempt unit;
  dispatch : string -> nat -> Attempt unit;
  show : Attempt unit;
  close : option (Attempt unit)
}.

(** The counters of a running action, the [working] flag of the modal,
    and the calls made (newest first). *)
Record Run := mkRun {
  ok : nat;
  fail : nat;
  working : bool;
  log : list Call
}.

Definition record (c : Call) (s : Run) : Run :=
  mkRun (ok s) (fail s) (working s) (c :: log s).

Definition setWorking (b : bool) (s : Run) : Run :=
  mkRun (ok s) (fail s) b (log s).

Definition resetCounters (s : Run) : Run :=
  mkRun 0 0 (working s) (log s).

Definition incrOk (s : Run) : Run :=
  mkRun (S (ok s)) (fail s) (working s) (log s).

Definition incrFail (s : Run) : Run :=
  mkRun (ok s) (S (fail s)) (working s) (log s).

Definition external {A} (c : Call) (r : Attempt A) : Eff Run A :=
  fun s => match r with
           | Returns a => Done a (record c s)
           | Throws => Threw (record c s)
           end.

(** [await new Promise((r) => setTimeout(r, ms))] *)
Definition wait (ms : Z) : Eff Run unit := update (record (setTimeout ms)).

(** The calls made between [s] and a later [s']. *)
Definition made (s s' : Run) : list Call :=
  take (length (log s') - length (log s)) (log s').

(** ** The lists of the modal *)

Definition ownedGuilds (allGuilds : list GuildLite) (meId : option string)
    : list GuildLite :=
  List.filter (fun g => same (ownerId g) meId) allGuilds.

Definition joinedGuilds (allGuilds : list GuildLite) (meId : option string)
    : list GuildLite :=
  List.filter (fun g => negb (same (ownerId g) meId)) allGuilds.

(** A JavaScript [Set] of ids, in insertion order. *)
Definition toggleSel (i : string) (prev : list string) : list string :=
  if existsb (String.eqb i) prev
  then List.filter (fun x => negb (String.eqb i x)) prev
  else prev ++ [i].

(** [selectedJoinedIds] and [selectedOwnedIds]. *)
Definition selectedIds (selected : list string) (guilds : list GuildLite)
    : list string :=
  List.filter (fun i => existsb (fun g => String.eqb (id g) i) guilds)
    selected.

Definition plural (n : nat) : string :=
  if Nat.eqb n 1 then "" else "s".

Section Actions.

Variable env : Env.

Definition leaveUrl (guildId : string) : string :=
  "/users/@me/guilds/" +:+ guildId.

Definition deleteUrl (guildId : string) : string :=
  "/guilds/" +:+ guildId.

Definition leaveGuild (guildId : string) (n : nat) : Eff Run unit :=
  external (RestAPI_del (leaveUrl guildId) None)
    (del env (leaveUrl guildId) n).

Definition deleteGuildOnce (guildId : string) (mfaCode : option string)
    (n : nat) : Eff Run unit :=
  external (RestAPI_del (deleteUrl guildId) (truthy mfaCode))
    (del env (deleteUrl guildId) n).

Definition dispatchDelete (guildId : string) (n : nat) : Eff Run unit :=
  external (FluxDispatcher_dispatch guildId) (dispatch env guildId n).

(** The body of the [for] loop of both actions, for the request
    [request guildId n]. *)
Definition oneGuild (request : string -> nat -> Eff Run unit)
    (gid : string) : Eff Run unit :=
  etry
    (request gid 0%nat ;;;
     update incrOk ;;;
     dispatchDelete gid 0%nat)
    (* retry after 1s *)
    (etry
       (wait 1000 ;;;
        request gid 1%nat ;;;
        update incrOk ;;;
        dispatchDelete gid 1%nat)
       (update incrFail)) ;;;
  (* pace 300ms *)
  wait 300.

(** Both actions from [setWorking(true)] on. *)
Definition work (request : string -> nat -> Eff Run unit)
    (message : bool -> nat -> nat -> string) (ids : list string)
    : Eff Run unit :=
  update (setWorking true) ;;;
  update resetCounters ;;;
  each ids (oneGuild request) ;;;
  update (setWorking false) ;;;
  s <- read ;;
  external
    (Toasts_show (if Nat.eqb (fail s) 0 then SUCCESS else FAILURE)
       (message (negb (Nat.eqb (fail s) 0)) (ok s) (fail s)))
    (show env) ;;;
  match close env with
  | Some r => external onClose r
  | None => eret tt
  end.

Definition leftMessage (failed : bool) (ok fail : nat) : string :=
  if failed then
    "Left " +:+ pretty ok +:+ " server" +:+ plural ok +:+ ". " +:+
    pretty fail +:+ " failed."
  else "Successfully left " +:+ pretty ok +:+ " server" +:+ plural ok +:+ ".".

Definition deletedMessage (failed : bool) (ok fail : nat) : string :=
  if failed then
    "Deleted " +:+ pretty ok +:+ " server" +:+ plural ok +:+ ". " +:+
    pretty fail +:+ " failed."
  else
    "Successfully deleted " +:+ pretty ok +:+ " server" +:+ plural ok +:+ ".".

Definition massLeaveJoined (selectedJoinedIds : list string)
    : Eff Run unit :=
  let n := length selectedJoinedIds in
  if Nat.eqb n 0 then eret tt
  else
    confirmed <-
      external
        (Alerts_show "Leave selected servers?"
           ("You are about to leave " +:+ pretty n +:+ " server" +:+
            plural n +:+ "."))
        (alert env "Leave selected servers?") ;;
    if negb confirmed then eret tt
    else work leaveGuild leftMessage selectedJoinedIds.

(** The dialogs of the triple confirmation. *)
Definition confirms (n : nat) : list (string * string) :=
  [("Delete owned servers?",
    "You are about to delete " +:+ pretty n +:+ " server" +:+ plural n +:+
    ". This action is permanent.");
   ("Are you absolutely sure?",
    "This will permanently delete all selected servers and cannot be undone.");
   ("Final confirmation",
    "Type your 2FA code if enabled in the next prompt. Proceed?")].

(** The loop over the dialogs; [false] when one of them is cancelled,
    which returns from the action. *)
Fixpoint confirmAll (cs : list (string * string)) : Eff Run bool :=
  match cs with
  | [] => eret true
  | c :: rest =>
      ok <- external (Alerts_show c.1 c.2) (alert env c.1) ;;
      if negb ok then eret false else confirmAll rest
  end.

Definition massDeleteOwned (selectedOwnedIds : list string)
    : Eff Run unit :=
  let n := length selectedOwnedIds in
  if Nat.eqb n 0 then eret tt
  else
    confirmed <- confirmAll (confirms n) ;;
    if negb confirmed then eret tt
    else
      (* Simple prompt for 2FA code; users without 2FA can leave blank *)
      mfaCode <-
        etry
          (code <- external window_prompt (prompt env) ;;
           eret (truthy code))
          (eret None) ;;
      work (fun gid => deleteGuildOnce gid mfaCode) deletedMessage
        selectedOwnedIds.

(** ** What the loop does for one guild *)

Definition isDel (c : Call) : bool :=
  match c with RestAPI_del _ _ => true | _ => false end.

Definition returned {A} (r : Attempt A) : bool :=
  match r with Returns _ => true | Throws => false end.

(** A request of either action: one call of [RestAPI.del]. *)
Definition request (url : string -> string) (mfaCode : option string)
    (gid : string) (n : nat) : Eff Run unit :=
  external (RestAPI_del (url gid) mfaCode) (del env (url gid) n).

(** The guild is gone after the first request or after the retry. *)
Definition succeeds (url : string -> string) (gid : string) : bool :=
  returned (del env (url gid) 0%nat) || returned (del env (url gid) 1%nat).

(** The calls the loop can make for guild [gid]. *)
Definition callFor (url : string -> string) (mfaCode : option string)
    (gid : string) (c : Call) : Prop :=
  c = RestAPI_del (url gid) mfaCode ∨ c = FluxDispatcher_dispatch gid ∨
  ∃ ms, c = setTimeout ms.

Ltac oneGuild_leaf calls :=
  match goal with
  | Hleaf : ∀ calls s', log s' = calls ++ _ -> _ |- _ =>
      apply (Hleaf calls); cbn;
      repeat match goal with
             | H : isDel _ = _ |- _ => rewrite !H
             end;
      cbn;
      first
        [ done
        | lia
        | solve [repeat (constructor; [auto|]); constructor]
        | intros H; pose proof (H 0%nat); pose proof (H 1%nat);
          first [congruence | lia] ]
  end.

Lemma oneGuild_spec url mfaCode gid s :
  ∃ calls s',
    oneGuild (request url mfaCode) gid s = Done tt s' ∧
    log s' = calls ++ log s ∧
    working s' = working s ∧
    Forall (callFor url mfaCode gid) calls ∧
    (1 <= length (List.filter isDel calls) <= 2)%nat ∧
    (ok s <= ok s' <= ok s + 2)%nat ∧ (fail s <= fail s' <= fail s + 1)%nat ∧
    (ok s + fail s + 1 <= ok s' + fail s')%nat ∧
    ((∀ k, dispatch env gid k = Returns tt) ->
     ok s' = (ok s + if succeeds url gid then 1 else 0)%nat ∧
     fail s' = (fail s + if succeeds url gid then 0 else 1)%nat).
Proof.
  unfold oneGuild, request, succeeds, dispatchDelete, wait.
  unfold etry, ebind, external, update.
  assert (callFor url mfaCode gid (RestAPI_del (url gid) mfaCode)) as Hd
    by (by left).
  assert (callFor url mfaCode gid (FluxDispatcher_dispatch gid)) as Hf
    by (right; by left).
  assert (∀ ms, callFor url mfaCode gid (setTimeout ms)) as Hw
    by (intros ms; right; right; by exists ms).
  set (d := RestAPI_del (url gid) mfaCode) in *.
  set (f := FluxDispatcher_dispatch gid) in *.
  assert (isDel d = true ∧ isDel f = false) as [Hisd Hisf] by done.
  assert (∀ calls s',
    log s' = calls ++ log s ->
    working s' = working s ->
    Forall (callFor url mfaCode gid) calls ->
    (1 <= length (List.filter isDel calls) <= 2)%nat ->
    (ok s <= ok s' <= ok s + 2)%nat ->
    (fail s <= fail s' <= fail s + 1)%nat ->
    (ok s + fail s + 1 <= ok s' + fail s')%nat ->
    ((∀ k, dispatch env gid k = Returns tt) ->
     ok s' =
       (ok s + if returned (del env (url gid) 0%nat) ||
                  returned (del env (url gid) 1%nat) then 1 else 0)%nat ∧
     fail s' =
       (fail s + if returned (del env (url gid) 0%nat) ||
                    returned (del env (url gid) 1%nat) then 0 else 1)%nat) ->
    ∃ calls0 s0,
      Done tt s' = Done tt s0 ∧
      log s0 = calls0 ++ log s ∧
      working s0 = working s ∧
      Forall (callFor url mfaCode gid) calls0 ∧
      (1 <= length (List.filter isDel calls0) <= 2)%nat ∧
      (ok s <= ok s0 <= ok s + 2)%nat ∧ (fail s <= fail s0 <= fail s + 1)%nat ∧
      (ok s + fail s + 1 <= ok s0 + fail s0)%nat ∧
      ((∀ k, dispatch env gid k = Returns tt) ->
       ok s0 =
         (ok s + if returned (del env (url gid) 0%nat) ||
                    returned (del env (url gid) 1%nat) then 1 else 0)%nat ∧
       fail s0 =
         (fail s + if returned (del env (url gid) 0%nat) ||
                      returned (del env (url gid) 1%nat) then 0 else 1)%nat))
    as Hleaf.
  { intros calls s' H1 H2 H3 H4 H5 H6 H7 H8. by exists calls, s'. }
  destruct (del env (url gid) 0%nat) as [[]|] eqn:D0.
  - destruct (dispatch env gid 0%nat) as [[]|] eqn:F0.
    + oneGuild_leaf [setTimeout 300; f; d].
    + destruct (del env (url gid) 1%nat) as [[]|] eqn:D1.
      * destruct (dispatch env gid 1%nat) as [[]|] eqn:F1.
        -- oneGuild_leaf [setTimeout 300; f; d; setTimeout 1000; f; d].
        -- oneGuild_leaf [setTimeout 300; f; d; setTimeout 1000; f; d].
      * oneGuild_leaf [setTimeout 300; d; setTimeout 1000; f; d].
  - destruct (del env (url gid) 1%nat) as [[]|] eqn:D1.
    + destruct (dispatch env gid 1%nat) as [[]|] eqn:F1.
      * oneGuild_leaf [setTimeout 300; f; d; setTimeout 1000; d].
      * oneGuild_leaf [setTimeout 300; f; d; setTimeout 1000; d].
    + oneGuild_leaf [setTimeout 300; d; setTimeout 1000; d].
Qed.

Lemma made_extend calls s s' : log s' = calls ++ log s -> made s s' = calls.
Proof.
  intros H. unfold made. rewrite H, length_app.
  replace (length calls + length (log s) - length (log s))%nat
    with (length calls) by lia.
  by rewrite take_app_length.
Qed.

Lemma filter_length_app {A} (f : A -> bool) (l1 l2 : list A) :
  length (List.filter f (l1 ++ l2)) =
  (length (List.filter f l1) + length (List.filter f l2))%nat.
Proof. by rewrite List.filter_app, length_app. Qed.

(** The calls the loop can make for the guilds [ids]. *)
Definition callForSome (url : string -> string) (mfaCode : option string)
    (ids : list string) (c : Call) : Prop :=
  ∃ gid, gid ∈ ids ∧ callFor url mfaCode gid c.

Lemma loop_spec url mfaCode ids s :
  ∃ calls s',
    each ids (oneGuild (request url mfaCode)) s = Done tt s' ∧
    log s' = calls ++ log s ∧
    working s' = working s ∧
    Forall (callForSome url mfaCode ids) calls ∧
    (length ids <= length (List.filter isDel calls) <= 2 * length ids)%nat ∧
    (ok s <= ok s' <= ok s + 2 * length ids)%nat ∧
    (fail s <= fail s' <= fail s + length ids)%nat ∧
    (ok s + fail s + length ids <= ok s' + fail s')%nat ∧
    ((∀ gid k, gid ∈ ids -> dispatch env gid k = Returns tt) ->
     ok s' = (ok s + length (List.filter (succeeds url) ids))%nat ∧
     fail s' =
       (fail s +
        length (List.filter (fun gid => negb (succeeds url gid)) ids))%nat).
Proof.
  revert s. induction ids as [|gid ids IH]; intros s.
  - exists [], s. cbn. repeat split; try done; try lia.
  - cbn [each]. unfold ebind at 1.
    destruct (oneGuild_spec url mfaCode gid s)
      as (c1 & s1 & -> & Hl1 & Hw1 & Hc1 & Hd1 & Hok1 & Hf1 & Hsum1 & Hex1).
    destruct (IH s1)
      as (c2 & s2 & -> & Hl2 & Hw2 & Hc2 & Hd2 & Hok2 & Hf2 & Hsum2 & Hex2).
    exists (c2 ++ c1), s2.
    split; [done|].
    split; [by rewrite Hl2, Hl1, app_assoc|].
    split; [congruence|].
    split.
    { apply Forall_app. split.
      - eapply Forall_impl; [exact Hc2|].
        intros c (g & Hg & Hc). exists g. split; [by right|done].
      - eapply Forall_impl; [exact Hc1|].
        intros c Hc. exists gid. split; [by left|done]. }
    rewrite filter_length_app. cbn [length].
    split; [lia|]. split; [lia|]. split; [lia|]. split; [lia|].
    intros Hdisp.
    destruct Hex1 as [Ho1 Hfl1].
    { intros k. apply Hdisp. by left. }
    destruct Hex2 as [Ho2 Hfl2].
    { intros g k Hg. apply Hdisp. by right. }
    cbn [List.filter]. destruct (succeeds url gid); cbn [negb length] in *; lia.
Qed.

(** [work] in closed form: the loop's calls, then the toast, then
    [onClose] when the toast returned and the modal has one. *)
Lemma work_spec url mfaCode message ids s :
  ∃ calls rest s',
    final (work (request url mfaCode) message ids s) = s' ∧
    log s' =
      rest ++
      Toasts_show (if Nat.eqb (fail s') 0 then SUCCESS else FAILURE)
        (message (negb (Nat.eqb (fail s') 0)) (ok s') (fail s'))
      :: calls ++ log s ∧
    (rest = [] ∨ rest = [onClose]) ∧
    working s' = false ∧
    Forall (callForSome url mfaCode ids) calls ∧
    (length ids <= length (List.filter isDel calls) <= 2 * length ids)%nat ∧
    (ok s' <= 2 * length ids)%nat ∧
    (fail s' <= length ids)%nat ∧
    (length ids <= ok s' + fail s')%nat ∧
    ((∀ gid k, gid ∈ ids -> dispatch env gid k = Returns tt) ->
     ok s' = length (List.filter (succeeds url) ids) ∧
     fail s' =
       length (List.filter (fun gid => negb (succeeds url gid)) ids)).
Proof.
  unfold work. unfold ebind at 1, update. unfold ebind at 1.
  unfold ebind at 1.
  destruct (loop_spec url mfaCode ids (resetCounters (setWorking true s)))
    as (calls & s1 & -> & Hl & Hw & Hc & Hd & Hok & Hf & Hsum & Hex).
  cbn [ok fail resetCounters setWorking log working] in *.
  unfold ebind at 1. unfold ebind at 1, read. unfold ebind, external.
  cbn [ok fail setWorking].
  set (t := Toasts_show _ _).
  assert (∀ rest s',
    log s' = rest ++ t :: calls ++ log s ->
    (rest = [] ∨ rest = [onClose]) ->
    ok s' = ok s1 -> fail s' = fail s1 -> working s' = false ->
    ∃ calls0 rest0 s0,
      s' = s0 ∧
      log s0 =
        rest0 ++
        Toasts_show (if Nat.eqb (fail s0) 0 then SUCCESS else FAILURE)
          (message (negb (Nat.eqb (fail s0) 0)) (ok s0) (fail s0))
        :: calls0 ++ log s ∧
      (rest0 = [] ∨ rest0 = [onClose]) ∧
      working s0 = false ∧
      Forall (callForSome url mfaCode ids) calls0 ∧
      (length ids <= length (List.filter isDel calls0) <= 2 * length ids)%nat ∧
      (ok s0 <= 2 * length ids)%nat ∧
      (fail s0 <= length ids)%nat ∧
      (length ids <= ok s0 + fail s0)%nat ∧
      ((∀ gid k, gid ∈ ids -> dispatch env gid k = Returns tt) ->
       ok s0 = length (List.filter (succeeds url) ids) ∧
       fail s0 =
         length (List.filter (fun gid => negb (succeeds url gid)) ids)))
    as Hleaf.
  { intros rest s' H1 H2 H3 H4 H5. exists calls, rest, s'.
    split; [done|]. rewrite H3, H4. split; [exact H1|].
    split; [done|]. split; [done|]. split; [done|]. split; [done|].
    split; [lia|]. split; [lia|]. split; [lia|].
    intros Hdisp. destruct (Hex Hdisp). lia. }
  destruct (show env) as [[]|]; cbn [final].
  - destruct (close env) as [[[]|]|]; cbn [final].
    + apply (Hleaf [onClose]); cbn; rewrite ?Hl; auto.
    + apply (Hleaf [onClose]); cbn; rewrite ?Hl; auto.
    + apply (Hleaf []); cbn; rewrite ?Hl; auto.
  - apply (Hleaf []); cbn; rewrite ?Hl; auto.
Qed.

Lemma selectedIds_spec selected guilds gid :
  gid ∈ selectedIds selected guilds <->
  gid ∈ selected ∧ ∃ g, g ∈ guilds ∧ id g = gid.
Proof.
  unfold selectedIds. rewrite !list_elem_of_In, List.filter_In.
  rewrite List.existsb_exists. split.
  - intros [Hin (g & Hg & Heq)]. split; [done|]. exists g.
    rewrite list_elem_of_In. split; [done|]. by apply String.eqb_eq.
  - intros [Hin (g & Hg & Heq)]. split; [done|]. exists g.
    rewrite list_elem_of_In in Hg. split; [done|]. by apply String.eqb_eq.
Qed.

Lemma joinedGuilds_spec allGuilds meId g :
  g ∈ joinedGuilds allGuilds meId <->
  g ∈ allGuilds ∧ same (ownerId g) meId = false.
Proof.
  unfold joinedGuilds. rewrite !list_elem_of_In, List.filter_In.
  by rewrite negb_true_iff.
Qed.

Lemma ownedGuilds_spec allGuilds meId g :
  g ∈ ownedGuilds allGuilds meId <->
  g ∈ allGuilds ∧ same (ownerId g) meId = true.
Proof.
  unfold ownedGuilds. by rewrite !list_elem_of_In, List.filter_In.
Qed.

(** The requests among the calls of [work]. *)
Lemma work_requests url mfaCode message ids s u m :
  RestAPI_del u m
    ∈ made s (final (work (request url mfaCode) message ids s)) ->
  m = mfaCode ∧ ∃ gid, gid ∈ ids ∧ u = url gid.
Proof.
  destruct (work_spec url mfaCode message ids s)
    as (calls & rest & s' & -> & Hl & Hrest & _ & Hc & _).
  rewrite (made_extend (rest ++ _ :: calls) s s')
    by (by rewrite Hl, <- app_assoc).
  rewrite elem_of_app, elem_of_cons. intros [Hin|[Hin|Hin]].
  - destruct Hrest as [-> | ->]; [by apply elem_of_nil in Hin|].
    by apply list_elem_of_singleton in Hin.
  - done.
  - rewrite Forall_forall in Hc.
    destruct (Hc _ Hin) as (gid & Hgid & [Heq|[Heq|[ms Heq]]]); try done.
    injection Heq as -> ->. split; [done|]. by exists gid.
Qed.

(** X23.  massLeaveJoined sends a leave request only after its dialog was
    confirmed, and only for a selected guild that the guild store lists
    and the current user does not own; the request carries no 2FA
    header. *)
Theorem massLeaveJoined_leaves_selected_joined_guilds_only
    allGuilds meId selectedJoined s url mfaCode :
  let selectedJoinedIds :=
    selectedIds selectedJoined (joinedGuilds allGuilds meId) in
  RestAPI_del url mfaCode
    ∈ made s (final (massLeaveJoined selectedJoinedIds s)) ->
  alert env "Leave selected servers?" = Returns true ∧
  mfaCode = None ∧
  ∃ g, g ∈ allGuilds ∧ same (ownerId g) meId = false ∧
       id g ∈ selectedJoined ∧ url = leaveUrl (id g).
Proof.
  intros ids. unfold massLeaveJoined.
  destruct (Nat.eqb (length ids) 0).
  { cbn [final eret]. rewrite (made_extend []) by done.
    by intros ?%elem_of_nil. }
  unfold ebind, external.
  set (a := Alerts_show _ _).
  destruct (alert env "Leave selected servers?") as [[|]|] eqn:Ha.
  - cbn [negb]. intros Hin.
    assert (RestAPI_del url mfaCode
              ∈ made (record a s)
                  (final (work leaveGuild leftMessage ids (record a s))))
      as Hin'.
    { destruct (work_spec leaveUrl None leftMessage ids (record a s))
        as (calls & rest & s' & Hs' & Hl & _).
      change (request leaveUrl None) with leaveGuild in Hs'.
      rewrite Hs' in *.
      rewrite (made_extend (rest ++ _ :: calls) (record a s) s')
        by (by rewrite Hl, <- app_assoc).
      rewrite (made_extend ((rest ++ _ :: calls) ++ [a]) s s') in Hin
        by (by rewrite Hl, <- !app_assoc).
      apply elem_of_app in Hin as [Hin|Hin]; [done|].
      by apply list_elem_of_singleton in Hin. }
    destruct (work_requests leaveUrl None leftMessage ids (record a s)
                url mfaCode Hin') as (-> & gid & Hgid & ->).
    split; [done|]. split; [done|].
    apply selectedIds_spec in Hgid as (Hsel & g & Hg & <-).
    apply joinedGuilds_spec in Hg as [Hall Hown].
    by exists g.
  - cbn [negb final eret]. rewrite (made_extend [a]) by done.
    by intros ?%list_elem_of_singleton.
  - cbn [final]. rewrite (made_extend [a]) by done.
    by intros ?%list_elem_of_singleton.
Qed.

Lemma filter_length_split {A} (f : A -> bool) (l : list A) :
  (length (List.filter f l) + length (List.filter (fun x => negb (f x)) l))%nat
  = length l.
Proof.
  induction l as [|x l IH]; [done|]. cbn [List.filter].
  destruct (f x); cbn [negb length]; lia.
Qed.

(** X24.  Once confirmed, massLeaveJoined sends at least as many leave
    requests as there are selected guilds and at most twice as many, and
    ends with [working] off.  Every guild is counted
    at least once, as left or as failed, but a guild can be counted as
    left twice and as failed besides: [ok] is at most twice the number
    of guilds.  When no GUILD_DELETE dispatch throws the counters are
    exact: [ok] counts the guilds whose first or second request
    succeeded and [fail] the others.  The toast shown is the failure
    toast exactly when [fail] is not zero. *)
Theorem massLeaveJoined_counts ids s :
  ids ≠ [] ->
  alert env "Leave selected servers?" = Returns true ->
  let s' := final (massLeaveJoined ids s) in
  let n := length ids in
  (n <= length (List.filter isDel (made s s')) <= 2 * n)%nat ∧
  (ok s' <= 2 * n)%nat ∧ (fail s' <= n)%nat ∧ (n <= ok s' + fail s')%nat ∧
  working s' = false ∧
  Toasts_show (if Nat.eqb (fail s') 0 then SUCCESS else FAILURE)
    (leftMessage (negb (Nat.eqb (fail s') 0)) (ok s') (fail s'))
    ∈ made s s' ∧
  ((∀ gid k, gid ∈ ids -> dispatch env gid k = Returns tt) ->
   ok s' = length (List.filter (succeeds leaveUrl) ids) ∧
   fail s' =
     length (List.filter (fun gid => negb (succeeds leaveUrl gid)) ids) ∧
   (ok s' + fail s')%nat = n).
Proof.
  intros Hne Ha s' n. subst s' n. unfold massLeaveJoined.
  destruct ids as [|gid0 ids0] eqn:Hids; [done|]. rewrite <- Hids. clear Hne.
  assert (Nat.eqb (length ids) 0 = false) as -> by (by rewrite Hids).
  unfold ebind, external. rewrite Ha. cbn [negb].
  set (a := Alerts_show _ _).
  destruct (work_spec leaveUrl None leftMessage ids (record a s))
    as (calls & rest & s' & Hs' & Hl & Hrest & Hw & Hc & Hd & Hok & Hf &
        Hsum & Hex).
  change (request leaveUrl None) with leaveGuild in Hs'. rewrite Hs'.
  set (t := Toasts_show _ _) in *.
  rewrite (made_extend (rest ++ t :: calls ++ [a]) s s')
    by (rewrite Hl; cbn [log record]; rewrite <- app_assoc; cbn [app];
        by rewrite <- app_assoc).
  assert (length (List.filter isDel (rest ++ t :: calls ++ [a])) =
          length (List.filter isDel calls)) as ->.
  { rewrite filter_length_app. cbn [List.filter isDel t].
    rewrite filter_length_app. cbn.
    destruct Hrest as [-> | ->]; cbn; lia. }
  split; [done|]. split; [done|]. split; [done|]. split; [done|].
  split; [done|].
  split.
  { apply elem_of_app. right. apply list_elem_of_here. }
  intros Hdisp. destruct (Hex Hdisp) as [Ho Hfl].
  split; [done|]. split; [done|].
  rewrite Ho, Hfl. apply filter_length_split.
Qed.

Lemma truthy_idem o : truthy (truthy o) = truthy o.
Proof.
  destruct o as [x|]; [|done]. cbn.
  destruct (String.eqb x "") eqn:Hx; [done|]. cbn. by rewrite Hx.
Qed.

Lemma confirmAll_spec cs s :
  ∃ calls,
    log (final (confirmAll cs s)) = calls ++ log s ∧
    Forall (fun c => isDel c = false) calls ∧
    (∀ s', confirmAll cs s = Done true s' ->
           ∀ c, c ∈ cs -> alert env c.1 = Returns true).
Proof.
  revert s. induction cs as [|c cs IH]; intros s.
  - exists []. split; [done|]. split; [done|].
    by intros s' _ c' ?%elem_of_nil.
  - cbn [confirmAll]. unfold ebind, external.
    destruct (alert env c.1) as [[|]|] eqn:Ha; cbn [negb].
    + destruct (IH (record (Alerts_show c.1 c.2) s))
        as (calls & Hl & Hc & Hall).
      exists (calls ++ [Alerts_show c.1 c.2]).
      split; [by rewrite Hl, <- app_assoc|].
      split.
      { apply Forall_app. split; [done|]. by repeat constructor. }
      intros s' Hrun c' [->|Hin]%elem_of_cons; [done|].
      by apply (Hall s').
    + exists [Alerts_show c.1 c.2]. split; [done|].
      split; [by repeat constructor|]. done.
    + exists [Alerts_show c.1 c.2]. split; [done|].
      split; [by repeat constructor|]. done.
Qed.

(** X25.  massDeleteOwned sends a delete request only after all three dialogs
    were confirmed, and only for a selected guild that the guild store
    lists with the current user as owner.  Every request carries the
    code typed into the prompt, and no 2FA header when the answer was
    empty, the prompt was dismissed or it threw. *)
Theorem massDeleteOwned_deletes_selected_owned_guilds_only
    allGuilds meId selectedOwned s url mfaCode :
  let selectedOwnedIds :=
    selectedIds selectedOwned (ownedGuilds allGuilds meId) in
  RestAPI_del url mfaCode
    ∈ made s (final (massDeleteOwned selectedOwnedIds s)) ->
  (∀ c, c ∈ confirms (length selectedOwnedIds) ->
        alert env c.1 = Returns true) ∧
  mfaCode = match prompt env with
            | Returns code => truthy code
            | Throws => None
            end ∧
  ∃ g, g ∈ allGuilds ∧ same (ownerId g) meId = true ∧
       id g ∈ selectedOwned ∧ url = deleteUrl (id g).
Proof.
  intros ids. unfold massDeleteOwned.
  destruct (Nat.eqb (length ids) 0).
  { cbn [final eret]. rewrite (made_extend []) by done.
    by intros ?%elem_of_nil. }
  unfold ebind at 1.
  destruct (confirmAll_spec (confirms (length ids)) s)
    as (calls1 & Hl1 & Hc1 & Hall).
  assert (∀ c, c ∈ calls1 -> c ≠ RestAPI_del url mfaCode) as Hno1.
  { intros c Hin ->. rewrite Forall_forall in Hc1. by apply Hc1 in Hin. }
  destruct (confirmAll (confirms (length ids)) s) as [[|] s1|s1] eqn:Hrun;
    cbn [final negb eret] in *.
  2,3: rewrite (made_extend calls1) by done; intros Hin;
       by apply Hno1 in Hin.
  specialize (Hall s1 eq_refl).
  unfold ebind at 1, etry, ebind at 1, external.
  set (code := match prompt env with
               | Returns code => truthy code
               | Throws => None
               end).
  set (s2 := record window_prompt s1).
  assert (match
            match prompt env with
            | Returns a => Done a s2
            | Throws => Threw s2
            end
          with
          | Done a s' => eret (truthy a) s'
          | Threw s' => Threw s'
          end = match prompt env with
                | Returns a => Done (truthy a) s2
                | Throws => Threw s2
                end) as -> by (by destruct (prompt env)).
  assert (match
            match prompt env with
            | Returns a => Done (truthy a) s2
            | Throws => Threw s2
            end
          with
          | Done a s' => Done a s'
          | Threw s' => eret None s'
          end = Done code s2) as -> by (unfold code; by destruct (prompt env)).
  assert ((fun gid : string => deleteGuildOnce gid code)
          = request deleteUrl code) as Hreq.
  { unfold deleteGuildOnce, request, code.
    destruct (prompt env); [|done]. by rewrite truthy_idem. }
  rewrite Hreq.
  destruct (work_spec deleteUrl code deletedMessage ids s2)
    as (calls & rest & s' & Hs' & Hl & Hrest & _).
  intros Hin.
  assert (RestAPI_del url mfaCode
            ∈ made s2
                (final (work (request deleteUrl code) deletedMessage ids s2)))
    as Hin'.
  { rewrite Hs' in *. set (t := Toasts_show _ _) in Hl.
    rewrite (made_extend (rest ++ t :: calls) s2 s')
      by (by rewrite Hl, <- app_assoc).
    rewrite (made_extend ((rest ++ t :: calls) ++ window_prompt :: calls1)
               s s') in Hin.
    2:{ rewrite Hl. unfold s2. cbn [log record]. rewrite Hl1.
        rewrite <- app_assoc. cbn [app]. by rewrite <- app_assoc. }
    apply elem_of_app in Hin as [Hin|Hin]; [done|].
    apply elem_of_cons in Hin as [Hin|Hin]; [done|].
    by apply Hno1 in Hin. }
  destruct (work_requests deleteUrl code deletedMessage ids s2
              url mfaCode Hin') as (-> & gid & Hgid & ->).
  split; [done|]. split; [done|].
  apply selectedIds_spec in Hgid as (Hsel & g & Hg & <-).
  apply ownedGuilds_spec in Hg as [Hall' Hown].
  by exists g.
Qed.

End Actions.

(** X26.  Clicking a row flips the membership of that guild in the selection
    and of no other, and keeps the entries of the selection distinct. *)
Theorem toggleSel_flips_one_id i prev :
  (i ∈ toggleSel i prev <-> i ∉ prev) ∧
  (∀ x, x ≠ i -> x ∈ toggleSel i prev <-> x ∈ prev) ∧
  (NoDup prev -> NoDup (toggleSel i prev)).
Proof.
  unfold toggleSel.
  destruct (existsb (String.eqb i) prev) eqn:Hex.
  - apply List.existsb_exists in Hex as (y & Hy & Heq).
    apply String.eqb_eq in Heq as <-. apply list_elem_of_In in Hy.
    split; [|split].
    + rewrite list_elem_of_In, List.filter_In, String.eqb_refl. cbn.
      split; [by intros [_ ?]|done].
    + intros x Hx. rewrite !list_elem_of_In, List.filter_In.
      split; [by intros [? _]|]. intros Hin. split; [done|].
      apply negb_true_iff. by apply String.eqb_neq.
    + intros Hnd. apply NoDup_ListNoDup, List.NoDup_filter.
      by apply NoDup_ListNoDup.
  - assert (i ∉ prev) as Hnotin.
    { intros Hin%list_elem_of_In.
      assert (existsb (String.eqb i) prev = true) as Htrue.
      { apply List.existsb_exists. exists i. by rewrite String.eqb_refl. }
      congruence. }
    split; [|split].
    + split; [done|]. intros _. apply elem_of_app. right.
      apply list_elem_of_here.
    + intros x Hx. rewrite elem_of_app, list_elem_of_singleton.
      split; [by intros [?|?] | by left].
    + intros Hnd. apply NoDup_app. split; [done|].
      split; [|apply NoDup_singleton].
      intros x Hin ->%list_elem_of_singleton. done.
Qed.

End SelectiveServerLeaver.

(** Alpha is owned by the current user "me"; Beta and Gamma are not.
    Every dialog is confirmed; leaving Gamma fails twice. *)
Definition sslGuilds : list SelectiveServerLeaver.GuildLite :=
  [SelectiveServerLeaver.mkGuildLite "g1" "Alpha" None "me";
   SelectiveServerLeaver.mkGuildLite "g2" "Beta" None "b";
   SelectiveServerLeaver.mkGuildLite "g3" "Gamma" None "c"].

Definition sslEnv : SelectiveServerLeaver.Env :=
  SelectiveServerLeaver.mkEnv
    (fun _ => Returns true)
    (Returns (Some "123456"))
    (fun url _ =>
       if String.eqb url (SelectiveServerLeaver.leaveUrl "g3") then Throws
       else Returns tt)
    (fun _ _ => Returns tt)
    (Returns tt)
    (Some (Returns tt)).

Definition sslIdle : SelectiveServerLeaver.Run :=
  SelectiveServerLeaver.mkRun 0 0 false [].

Lemma massLeaveJoined_counts_witness :
  let s' :=
    Eff.final
      (SelectiveServerLeaver.massLeaveJoined sslEnv ["g2"; "g3"] sslIdle) in
  (SelectiveServerLeaver.ok s' + SelectiveServerLeaver.fail s')%nat = 2%nat.
Proof.
  intros s'.
  destruct (SelectiveServerLeaver.massLeaveJoined_counts sslEnv
              ["g2"; "g3"] sslIdle) as (_ & _ & _ & _ & _ & _ & H).
  - done.
  - reflexivity.
  - destruct H as (_ & _ & H); [done | exact H].
Defined.

Lemma massLeaveJoined_leaves_selected_joined_guilds_only_witness :
  ∃ g, g ∈ sslGuilds ∧
       same (SelectiveServerLeaver.ownerId g) (Some "me") = false ∧
       SelectiveServerLeaver.id g ∈ ["g1"; "g2"] ∧
       SelectiveServerLeaver.leaveUrl "g2"
         = SelectiveServerLeaver.leaveUrl (SelectiveServerLeaver.id g).
Proof.
  destruct (SelectiveServerLeaver.massLeaveJoined_leaves_selected_joined_guilds_only
              sslEnv sslGuilds (Some "me") ["g1"; "g2"] sslIdle
              (SelectiveServerLeaver.leaveUrl "g2") None) as (_ & _ & H).
  - vm_compute. repeat constructor.
  - exact H.
Defined.

Lemma massDeleteOwned_deletes_selected_owned_guilds_only_witness :
  ∃ g, g ∈ sslGuilds ∧
       same (SelectiveServerLeaver.ownerId g) (Some "me") = true ∧
       SelectiveServerLeaver.id g ∈ ["g1"; "g2"] ∧
       SelectiveServerLeaver.deleteUrl "g1"
         = SelectiveServerLeaver.deleteUrl (SelectiveServerLeaver.id g).
Proof.
  destruct (SelectiveServerLeaver.massDeleteOwned_deletes_selected_owned_guilds_only
              sslEnv sslGuilds (Some "me") ["g1"; "g2"] sslIdle
              (SelectiveServerLeaver.deleteUrl "g1") (Some "123456"))
    as (_ & _ & H).
  - vm_compute. repeat constructor.
  - exact H.
Defined.

Lemma toggleSel_flips_one_id_witness :
  NoDup (SelectiveServerLeaver.toggleSel "g2" ["g1"; "g2"; "g3"]).
Proof.
  destruct (SelectiveServerLeaver.toggleSel_flips_one_id "g2"
              ["g1"; "g2"; "g3"]) as (_ & _ & H).
  apply H. apply (bool_decide_eq_true_1 _). reflexivity.
Defined.

(** * The fake-deafen sub-plugin ([plugins/fakeDeafen])

    The switch between the browser's [WebSocket.prototype.send] and the
    plugin's intercepting one, and the self-deafen toggles that enabling
    and disabling dispatch, at once and from timers. *)

Module FakeDeafen.
Import Eff.
Local Open Scope eff_scope.

(** The function installed as [WebSocket.prototype.send]. *)
Inductive Sender := Native | Intercepting.

Inductive Call :=
| FluxDispatcher_dispatch  (* type: "AUDIO_TOGGLE_SELF_DEAF" *)
| showToast (message : string)
| SelectedChannelStore_getVoiceChannelId
| AuthenticationStore_getId
| VoiceStateStore_getVoiceStateForUser (myId : string).

(** The timer callbacks.  Those of disableFakeDeafen have captured
    [myId]. *)
Inductive Task :=
(* enableFakeDeafen: setTimeout(dispatchToggle, 50) *)
| Toggle
(* tryUndeafen(i): the callback that checks and calls tryUndeafen(i + 1) *)
| RetryUndeafen (myId : option string) (i : nat)
(* the else branch: the callback after 80 ms *)
| NormalizeUndeafen (myId : option string)
(* the else branch: the callback after 250 ms *)
| NormalizeCheck (myId : option string).

(** The collaborators.  [getVoiceStateForUser] gives
    [!!(vs?.deaf || vs?.selfDeaf)]. *)
Record Env := mkEnv {
  getVoiceChannelId : Attempt (option string);
  getId : Attempt (option string);
  getVoiceStateForUser : string -> Attempt bool;
  dispatch : Attempt unit;
  toast : Attempt unit
}.

(** The module variables [faking] and [origWS], the installed sender
    ([None] is [undefined]), the pending timers and the calls made
    (newest first). *)
Record State := mkState {
  faking : bool;
  origWS : option Sender;
  send : option Sender;
  timers : list (Z * Task);
  trace : list Call
}.

Definition initial : State := mkState false None (Some Native) [] [].

Definition set_faking (v : bool) (s : State) : State :=
  mkState v (origWS s) (send s) (timers s) (trace s).

Definition set_origWS (v : option Sender) (s : State) : State :=
  mkState (faking s) v (send s) (timers s) (trace s).

Definition set_send (v : option Sender) (s : State) : State :=
  mkState (faking s) (origWS s) v (timers s) (trace s).

Definition set_timers (v : list (Z * Task)) (s : State) : State :=
  mkState (faking s) (origWS s) (send s) v (trace s).

Definition record (c : Call) (s : State) : State :=
  mkState (faking s) (origWS s) (send s) (timers s) (c :: trace s).

Definition external {A} (c : Call) (r : Attempt A) : Eff State A :=
  fun s => match r with
           | Returns a => Done a (record c s)
           | Throws => Threw (record c s)
           end.

Definition setTimeout (ms : Z) (t : Task) : Eff State unit :=
  update (fun s => set_timers (timers s ++ [(ms, t)]) s).

Definition delays : list Z := [0; 150; 300; 600; 1000].

Section FakeDeafen.

Variable env : Env.

Definition dispatchToggle : Eff State unit :=
  external FluxDispatcher_dispatch (dispatch env).

Definition isActuallyDeaf (myId : option string) : Eff State bool :=
  match truthy myId with
  | Some myId =>
      external (VoiceStateStore_getVoiceStateForUser myId)
        (getVoiceStateForUser env myId)
  | None => eret false
  end.

Definition tryUndeafen (myId : option string) (i : nat) : Eff State unit :=
  dispatchToggle ;;;
  if (length delays - 1 <=? i)%nat then eret tt
  else setTimeout (nth (i + 1) delays 0) (RetryUndeafen myId i).

Definition enableFakeDeafen : Eff State unit :=
  s <- read ;;
  if faking s then eret tt
  else
    update (set_faking true) ;;;
    update (set_send (Some Intercepting)) ;;;
    (* After enabling interception, force deafen+blocked-undeafen *)
    etry
      (chanId <-
         external SelectedChannelStore_getVoiceChannelId
           (getVoiceChannelId env) ;;
       match truthy chanId with
       | None =>
           external
             (showToast
                "Fake deafen enabled (join a voice channel to activate)")
             (toast env)
       | Some _ =>
           dispatchToggle ;;;
           setTimeout 50 Toggle ;;;
           external (showToast "Fake deafen enabled") (toast env)
       end)
      (eret tt).

Definition disableFakeDeafen : Eff State unit :=
  s <- read ;;
  if negb (faking s) then eret tt
  else
    update (set_faking false) ;;;
    update (fun s => set_send (origWS s) s) ;;;
    etry
      (myId <- external AuthenticationStore_getId (getId env) ;;
       deaf <- isActuallyDeaf myId ;;
       (if (deaf : bool) then
          (* Robust undeafen with multiple retries until state flips *)
          tryUndeafen myId 0
        else
          (* Normalize to ensure final state ends undeafened *)
          dispatchToggle ;;;
          setTimeout 80 (NormalizeUndeafen myId)) ;;;
       external (showToast "Fake deafen disabled") (toast env))
      (eret tt).

Definition start : Eff State unit :=
  update (fun s => set_origWS (send s) s).

Definition stop : Eff State unit :=
  update (fun s => set_send (origWS s) s) ;;;
  update (set_faking false).

Definition runTask (t : Task) : Eff State unit :=
  match t with
  | Toggle => dispatchToggle
  | RetryUndeafen myId i =>
      deaf <- isActuallyDeaf myId ;;
      if (deaf : bool) then tryUndeafen myId (i + 1) else eret tt
  | NormalizeUndeafen myId =>
      dispatchToggle ;;;
      setTimeout 250 (NormalizeCheck myId)
  | NormalizeCheck myId =>
      deaf <- isActuallyDeaf myId ;;
      if (deaf : bool) then dispatchToggle else eret tt
  end.

(** The host runs the [n]th pending timer; a timeout runs once. *)
Definition fire (n : nat) : Eff State unit :=
  s <- read ;;
  match timers s !! n with
  | None => eret tt
  | Some (_, t) =>
      update (set_timers (delete n (timers s))) ;;;
      runTask t
  end.

Inductive Input := Start | Stop | Enable | Disable | Fire (n : nat).

Definition step (i : Input) : Eff State unit :=
  match i with
  | Start => start
  | Stop => stop
  | Enable => enableFakeDeafen
  | Disable => disableFakeDeafen
  | Fire n => fire n
  end.

End FakeDeafen.

(** A run; an exception that escapes a handler ends that handler only. *)
Fixpoint run (inputs : list (Env * Input)) (s : State) : State :=
  match inputs with
  | [] => s
  | (env, i) :: rest => run rest (final (step env i s))
  end.

(** ** The toggles dispatched *)

Definition isToggle (c : Call) : bool :=
  match c with FluxDispatcher_dispatch => true | _ => false end.

(** The self-deafen toggles dispatched so far. *)
Definition toggles (s : State) : nat :=
  length (List.filter isToggle (trace s)).

(** The toggles a pending timer can still lead to. *)
Definition budget (t : Task) : nat :=
  match t with
  | Toggle => 1
  | RetryUndeafen _ i => Nat.max 1 (4 - i)
  | NormalizeUndeafen _ => 2
  | NormalizeCheck _ => 1
  end.

Definition pending (s : State) : nat :=
  sum_list_with (fun mt => budget mt.2) (timers s).

Definition cost (i : Input) : nat :=
  match i with
  | Enable => 2
  | Disable => 5
  | _ => 0
  end.

Definition switches (inputs : list (Env * Input)) : nat :=
  sum_list_with (fun ei => cost ei.2) inputs.

Lemma pending_snoc s ms t :
  pending (set_timers (timers s ++ [(ms, t)]) s) = (pending s + budget t)%nat.
Proof.
  unfold pending. cbn [timers set_timers].
  rewrite sum_list_with_app. cbn. lia.
Qed.

Lemma pending_delete s n ms t :
  timers s !! n = Some (ms, t) ->
  (pending (set_timers (delete n (timers s)) s) + budget t)%nat = pending s.
Proof.
  unfold pending. cbn [timers set_timers]. generalize (timers s) as l.
  intros l. revert n. induction l as [|x l IH]; intros n Hn; [done|].
  destruct n as [|n].
  - injection Hn as ->. cbn. lia.
  - specialize (IH n Hn).
    change (delete (S n) (x :: l)) with (x :: delete n l).
    cbn [sum_list_with]. by rewrite <- Nat.add_assoc, IH.
Qed.

(** [spends k m]: a run of [m] dispatches toggles and arms timers worth
    at most [k] together, also when it throws. *)
Definition spends (k : nat) {A} (m : Eff State A) : Prop :=
  ∀ s,
    (toggles (final (m s)) + pending (final (m s)) <=
     toggles s + pending s + k)%nat.

Lemma spends_weaken k k' {A} (m : Eff State A) :
  (k <= k')%nat -> spends k m -> spends k' m.
Proof. intros Hk H s. specialize (H s). lia. Qed.

Lemma spends_eret {A} (a : A) : spends 0 (eret a).
Proof. intros s. cbn. lia. Qed.

Lemma spends_ebind k1 k2 {A B} (m : Eff State A) (f : A -> Eff State B) :
  spends k1 m -> (∀ a, spends k2 (f a)) -> spends (k1 + k2) (ebind m f).
Proof.
  intros Hm Hf s. unfold ebind. specialize (Hm s).
  destruct (m s) as [a s1|s1]; cbn [final] in *.
  - specialize (Hf a s1). lia.
  - lia.
Qed.

Lemma spends_etry k1 k2 {A} (body handler : Eff State A) :
  spends k1 body -> spends k2 handler -> spends (k1 + k2) (etry body handler).
Proof.
  intros Hb Hh s. unfold etry. specialize (Hb s).
  destruct (body s) as [a s1|s1]; cbn [final] in *.
  - lia.
  - specialize (Hh s1). lia.
Qed.

Lemma spends_external {A} (c : Call) (r : Attempt A) :
  spends (if isToggle c then 1 else 0) (external c r).
Proof.
  intros s. unfold external.
  destruct r; cbn [final]; unfold toggles, pending; cbn;
    destruct (isToggle c); cbn; lia.
Qed.

Lemma spends_read : spends 0 (@read State).
Proof. intros s. cbn [final read]. lia. Qed.

Lemma spends_update (f : State -> State) :
  (∀ s, trace (f s) = trace s ∧ timers (f s) = timers s) ->
  spends 0 (update f).
Proof.
  intros Hf s. unfold update. cbn [final]. unfold toggles, pending.
  destruct (Hf s) as [-> ->]. lia.
Qed.

Lemma spends_setTimeout ms t : spends (budget t) (setTimeout ms t).
Proof.
  intros s. unfold setTimeout, update. cbn [final].
  rewrite pending_snoc. unfold toggles. cbn. lia.
Qed.

Section Budget.

Variable env : Env.

Lemma spends_dispatchToggle : spends 1 (dispatchToggle env).
Proof. apply (spends_external FluxDispatcher_dispatch). Qed.

Lemma spends_isActuallyDeaf myId : spends 0 (isActuallyDeaf env myId).
Proof.
  unfold isActuallyDeaf. destruct (truthy myId) as [i|].
  - apply (spends_external (VoiceStateStore_getVoiceStateForUser i)).
  - apply spends_eret.
Qed.

Lemma spends_tryUndeafen myId i :
  spends (Nat.max 1 (5 - i)) (tryUndeafen env myId i).
Proof.
  unfold tryUndeafen.
  destruct (length delays - 1 <=? i)%nat eqn:Hi.
  - apply (spends_weaken (1 + 0)); [lia|].
    apply spends_ebind; [apply spends_dispatchToggle|].
    intros _. apply spends_eret.
  - apply Nat.leb_gt in Hi. cbn in Hi.
    apply (spends_weaken (1 + budget (RetryUndeafen myId i))); [cbn; lia|].
    apply spends_ebind; [apply spends_dispatchToggle|].
    intros _. apply spends_setTimeout.
Qed.

Lemma spends_runTask t : spends (budget t) (runTask env t).
Proof.
  destruct t as [|myId i|myId|myId]; cbn [runTask budget].
  - apply spends_dispatchToggle.
  - change (Nat.max 1 (4 - i)) with (0 + Nat.max 1 (4 - i))%nat.
    apply spends_ebind; [apply spends_isActuallyDeaf|].
    intros [|].
    + eapply spends_weaken; [|apply spends_tryUndeafen]. lia.
    + eapply spends_weaken; [|apply spends_eret]. lia.
  - apply (spends_ebind 1 1); [apply spends_dispatchToggle|].
    intros _. apply (spends_setTimeout 250 (NormalizeCheck myId)).
  - apply (spends_ebind 0 1); [apply spends_isActuallyDeaf|].
    intros [|]; [apply spends_dispatchToggle|].
    eapply spends_weaken; [|apply spends_eret]. lia.
Qed.

Lemma spends_enableFakeDeafen : spends 2 (enableFakeDeafen env).
Proof.
  unfold enableFakeDeafen.
  apply (spends_ebind 0 2); [apply spends_read|]. intros s.
  destruct (faking s).
  { eapply spends_weaken; [|apply spends_eret]. lia. }
  apply (spends_ebind 0 2); [by apply spends_update|]. intros _.
  apply (spends_ebind 0 2); [by apply spends_update|]. intros _.
  apply (spends_etry 2 0); [|apply spends_eret].
  apply (spends_ebind 0 2).
  { apply (spends_external SelectedChannelStore_getVoiceChannelId). }
  intros chanId. destruct (truthy chanId).
  - apply (spends_ebind 1 1); [apply spends_dispatchToggle|].
    intros _. apply (spends_ebind 1 0); [apply (spends_setTimeout 50 Toggle)|].
    intros _. apply (spends_external (showToast _)).
  - eapply spends_weaken; [|apply (spends_external (showToast _))]. cbn. lia.
Qed.

Lemma spends_disableFakeDeafen : spends 5 (disableFakeDeafen env).
Proof.
  unfold disableFakeDeafen.
  apply (spends_ebind 0 5); [apply spends_read|]. intros s.
  destruct (faking s); cbn [negb].
  2:{ eapply spends_weaken; [|apply spends_eret]. lia. }
  apply (spends_ebind 0 5); [by apply spends_update|]. intros _.
  apply (spends_ebind 0 5); [by apply spends_update|]. intros _.
  apply (spends_etry 5 0); [|apply spends_eret].
  apply (spends_ebind 0 5).
  { apply (spends_external AuthenticationStore_getId). }
  intros myId. apply (spends_ebind 0 5); [apply spends_isActuallyDeaf|].
  intros deaf. apply (spends_ebind 5 0).
  - destruct deaf.
    + apply (spends_tryUndeafen myId 0).
    + apply (spends_weaken (1 + 2)); [lia|].
      apply spends_ebind; [apply spends_dispatchToggle|].
      intros _. apply (spends_setTimeout 80 (NormalizeUndeafen myId)).
  - intros _. apply (spends_external (showToast _)).
Qed.

Lemma spends_fire n : spends 0 (fire env n).
Proof.
  intros s. unfold fire, ebind, read, update.
  destruct (timers s !! n) as [[ms t]|] eqn:Hn.
  2:{ cbn [final eret]. lia. }
  pose proof (pending_delete s n ms t Hn) as Hdel.
  pose proof (spends_runTask t (set_timers (delete n (timers s)) s)) as Hrun.
  change (toggles (set_timers (delete n (timers s)) s))
    with (toggles s) in Hrun.
  lia.
Qed.

Lemma spends_start : spends 0 start.
Proof. by apply spends_update. Qed.

Lemma spends_stop : spends 0 stop.
Proof.
  apply (spends_ebind 0 0); [by apply spends_update|].
  intros _. by apply spends_update.
Qed.

Lemma spends_step i : spends (cost i) (step env i).
Proof.
  destruct i; cbn [step cost].
  - apply spends_start.
  - apply spends_stop.
  - apply spends_enableFakeDeafen.
  - apply spends_disableFakeDeafen.
  - apply spends_fire.
Qed.

End Budget.

(** X27.  The self-deafen toggles are bounded by the switches made: along any
    run, whatever the stores answer and whenever the timers fire, the
    toggles dispatched so far together with those the pending timers can
    still lead to grow by at most two for each call of enableFakeDeafen
    and five for each call of disableFakeDeafen.  From the initial state
    the plugin therefore dispatches at most that many toggles. *)
Theorem toggles_bounded_by_switches inputs s :
  (toggles (run inputs s) + pending (run inputs s) <=
   toggles s + pending s + switches inputs)%nat ∧
  (toggles (run inputs initial) <= switches inputs)%nat.
Proof.
  assert (∀ s0,
    (toggles (run inputs s0) + pending (run inputs s0) <=
     toggles s0 + pending s0 + switches inputs)%nat) as H.
  { induction inputs as [|[env i] rest IH]; intros s0.
    - cbn. lia.
    - cbn [run]. specialize (IH (final (step env i s0))).
      pose proof (spends_step env i s0) as Hstep.
      unfold switches in *. cbn [sum_list_with snd] in *. lia. }
  split; [apply H|].
  specialize (H initial). cbn in H. lia.
Qed.

(** ** The installed sender *)

(** [origWS] holds the browser's sender, and the plugin's sender is
    installed exactly while [faking] is set. *)
Definition consistent (s : State) : Prop :=
  origWS s = Some Native ∧
  send s = Some (if faking s then Intercepting else Native).

(** No [start] while faking. *)
Fixpoint startsWhileIdle (inputs : list (Env * Input)) (s : State) : Prop :=
  match inputs with
  | [] => True
  | (env, i) :: rest =>
      (i = Start -> faking s = false) ∧
      startsWhileIdle rest (final (step env i s))
  end.

(** [m] leaves the three variables of the switch alone. *)
Definition keepsSwitch {A} (m : Eff State A) : Prop :=
  ∀ s,
    faking (final (m s)) = faking s ∧
    origWS (final (m s)) = origWS s ∧
    send (final (m s)) = send s.

Lemma keepsSwitch_eret {A} (a : A) : keepsSwitch (eret a).
Proof. by intros s. Qed.

Lemma keepsSwitch_ebind {A B} (m : Eff State A) (f : A -> Eff State B) :
  keepsSwitch m -> (∀ a, keepsSwitch (f a)) -> keepsSwitch (ebind m f).
Proof.
  intros Hm Hf s. unfold ebind. destruct (Hm s) as (H1 & H2 & H3).
  destruct (m s) as [a s1|s1]; cbn [final] in *; [|done].
  destruct (Hf a s1) as (G1 & G2 & G3). by rewrite G1, G2, G3.
Qed.

Lemma keepsSwitch_etry {A} (body handler : Eff State A) :
  keepsSwitch body -> keepsSwitch handler -> keepsSwitch (etry body handler).
Proof.
  intros Hb Hh s. unfold etry. destruct (Hb s) as (H1 & H2 & H3).
  destruct (body s) as [a s1|s1]; cbn [final] in *; [done|].
  destruct (Hh s1) as (G1 & G2 & G3). by rewrite G1, G2, G3.
Qed.

Lemma keepsSwitch_external {A} (c : Call) (r : Attempt A) :
  keepsSwitch (external c r).
Proof. intros s. unfold external. by destruct r. Qed.

Lemma keepsSwitch_setTimeout ms t : keepsSwitch (setTimeout ms t).
Proof. by intros s. Qed.

Section Switch.

Variable env : Env.

Lemma keepsSwitch_isActuallyDeaf myId : keepsSwitch (isActuallyDeaf env myId).
Proof.
  unfold isActuallyDeaf. destruct (truthy myId);
    [apply keepsSwitch_external | apply keepsSwitch_eret].
Qed.

Lemma keepsSwitch_tryUndeafen myId i : keepsSwitch (tryUndeafen env myId i).
Proof.
  unfold tryUndeafen. apply keepsSwitch_ebind;
    [apply keepsSwitch_external|].
  intros _. destruct (_ <=? _)%nat;
    [apply keepsSwitch_eret | apply keepsSwitch_setTimeout].
Qed.

Lemma keepsSwitch_fire n : keepsSwitch (fire env n).
Proof.
  unfold fire. apply keepsSwitch_ebind; [by intros s|]. intros s.
  destruct (timers s !! n) as [[ms t]|]; [|apply keepsSwitch_eret].
  apply keepsSwitch_ebind; [by intros s0|]. intros _.
  destruct t as [|myId i|myId|myId]; cbn [runTask].
  - apply keepsSwitch_external.
  - apply keepsSwitch_ebind; [apply keepsSwitch_isActuallyDeaf|].
    intros [|]; [apply keepsSwitch_tryUndeafen | apply keepsSwitch_eret].
  - apply keepsSwitch_ebind; [apply keepsSwitch_external|].
    intros _. apply keepsSwitch_setTimeout.
  - apply keepsSwitch_ebind; [apply keepsSwitch_isActuallyDeaf|].
    intros [|]; [apply keepsSwitch_external | apply keepsSwitch_eret].
Qed.

Lemma enableFakeDeafen_switch s :
  ∃ s',
    final (enableFakeDeafen env s) = s' ∧
    faking s' = true ∧
    origWS s' = origWS s ∧
    send s' = (if faking s then send s else Some Intercepting).
Proof.
  unfold enableFakeDeafen. unfold ebind at 1, read.
  destruct (faking s) eqn:Hf; [by exists s|].
  unfold ebind at 1, update. unfold ebind at 1.
  set (s1 := set_send _ _).
  assert (keepsSwitch
    (etry
       (chanId <-
          external SelectedChannelStore_getVoiceChannelId
            (getVoiceChannelId env) ;;
        match truthy chanId with
        | None =>
            external
              (showToast
                 "Fake deafen enabled (join a voice channel to activate)")
              (toast env)
        | Some _ =>
            dispatchToggle env ;;;
            setTimeout 50 Toggle ;;;
            external (showToast "Fake deafen enabled") (toast env)
        end)
       (eret tt))) as Hk.
  { apply keepsSwitch_etry; [|apply keepsSwitch_eret].
    apply keepsSwitch_ebind; [apply keepsSwitch_external|].
    intros chanId. destruct (truthy chanId); [|apply keepsSwitch_external].
    apply keepsSwitch_ebind; [apply keepsSwitch_external|]. intros _.
    apply keepsSwitch_ebind; [apply keepsSwitch_setTimeout|]. intros _.
    apply keepsSwitch_external. }
  destruct (Hk s1) as (H1 & H2 & H3).
  eexists. split; [reflexivity|]. by rewrite H1, H2, H3.
Qed.

Lemma disableFakeDeafen_switch s :
  ∃ s',
    final (disableFakeDeafen env s) = s' ∧
    faking s' = false ∧
    origWS s' = origWS s ∧
    send s' = (if faking s then origWS s else send s).
Proof.
  unfold disableFakeDeafen. unfold ebind at 1, read.
  destruct (faking s) eqn:Hf; [|by exists s]. cbn [negb].
  unfold ebind at 1, update. unfold ebind at 1.
  set (s1 := set_send _ _).
  assert (keepsSwitch
    (etry
       (myId <- external AuthenticationStore_getId (getId env) ;;
        deaf <- isActuallyDeaf env myId ;;
        (if (deaf : bool) then tryUndeafen env myId 0
         else
           dispatchToggle env ;;;
           setTimeout 80 (NormalizeUndeafen myId)) ;;;
        external (showToast "Fake deafen disabled") (toast env))
       (eret tt))) as Hk.
  { apply keepsSwitch_etry; [|apply keepsSwitch_eret].
    apply keepsSwitch_ebind; [apply keepsSwitch_external|]. intros myId.
    apply keepsSwitch_ebind; [apply keepsSwitch_isActuallyDeaf|].
    intros deaf. apply keepsSwitch_ebind; [|intros _; apply keepsSwitch_external].
    destruct deaf; [apply keepsSwitch_tryUndeafen|].
    apply keepsSwitch_ebind; [apply keepsSwitch_external|]. intros _.
    apply keepsSwitch_setTimeout. }
  destruct (Hk s1) as (H1 & H2 & H3).
  eexists. split; [reflexivity|]. by rewrite H1, H2, H3.
Qed.

Lemma consistent_step i s :
  consistent s -> (i = Start -> faking s = false) ->
  consistent (final (step env i s)).
Proof.
  intros [Ho Hs] Hstart. destruct i; cbn [step].
  - specialize (Hstart eq_refl). unfold consistent. cbn.
    rewrite Hs, Hstart. done.
  - unfold consistent. cbn. by rewrite Ho.
  - destruct (enableFakeDeafen_switch s) as (s' & -> & Hf & Ho' & Hs').
    split; [congruence|]. rewrite Hs', Hf.
    destruct (faking s); [exact Hs | done].
  - destruct (disableFakeDeafen_switch s) as (s' & -> & Hf & Ho' & Hs').
    split; [congruence|]. rewrite Hs', Hf.
    destruct (faking s); [exact Ho | exact Hs].
  - destruct (keepsSwitch_fire n s) as (H1 & H2 & H3).
    split; [congruence|]. by rewrite H3, H1.
Qed.

End Switch.

(** X28.  As long as [start] is not called while faking, the plugin's sender
    is installed exactly while [faking] is set, and [origWS] keeps the
    browser's sender: every run from such a state ends in one.  A
    [start] while faking breaks this: after enabling before the first
    [start], then [start], then disabling, the plugin's sender stays
    installed with [faking] off, and [origWS] holds it too. *)
Theorem sender_follows_faking_flag inputs s env1 env2 env3 :
  (consistent s -> startsWhileIdle inputs s -> consistent (run inputs s)) ∧
  (let s' := run [(env1, Enable); (env2, Start); (env3, Disable)] initial in
   faking s' = false ∧ send s' = Some Intercepting ∧
   origWS s' = Some Intercepting).
Proof.
  split.
  - revert s. induction inputs as [|[env i] rest IH]; intros s Hc Hi; [done|].
    destruct Hi as [Hstart Hrest]. cbn [run]. apply IH; [|done].
    by apply consistent_step.
  - cbn [run step].
    destruct (enableFakeDeafen_switch env1 initial)
      as (sa & -> & Hfa & Hoa & Hsa). cbn in Hsa.
    set (sb := final (start sa)).
    assert (faking sb = true ∧ origWS sb = Some Intercepting ∧
            send sb = Some Intercepting) as (Hfb & Hob & Hsb).
    { unfold sb. cbn. by rewrite Hfa, Hsa. }
    destruct (disableFakeDeafen_switch env3 sb)
      as (sc & -> & Hfc & Hoc & Hsc).
    rewrite Hfb in Hsc. by rewrite Hfc, Hsc, Hoc, Hob.
Qed.

End FakeDeafen.

(** The current user "me" is in a voice channel and stays deafened. *)
Definition deafEnv : FakeDeafen.Env :=
  FakeDeafen.mkEnv (Returns (Some "v1")) (Returns (Some "me"))
    (fun _ => Returns true) (Returns tt) (Returns tt).

Lemma toggles_bounded_by_switches_witness :
  (FakeDeafen.toggles
     (FakeDeafen.run
        [(deafEnv, FakeDeafen.Start); (deafEnv, FakeDeafen.Enable);
         (deafEnv, FakeDeafen.Disable); (deafEnv, FakeDeafen.Fire 0);
         (deafEnv, FakeDeafen.Fire 0); (deafEnv, FakeDeafen.Fire 0)]
        FakeDeafen.initial) <= 7)%nat.
Proof.
  apply (FakeDeafen.toggles_bounded_by_switches
           [(deafEnv, FakeDeafen.Start); (deafEnv, FakeDeafen.Enable);
            (deafEnv, FakeDeafen.Disable); (deafEnv, FakeDeafen.Fire 0);
            (deafEnv, FakeDeafen.Fire 0); (deafEnv, FakeDeafen.Fire 0)]
           FakeDeafen.initial).
Defined.

Lemma sender_follows_faking_flag_witness :
  FakeDeafen.consistent
    (FakeDeafen.run
       [(deafEnv, FakeDeafen.Enable); (deafEnv, FakeDeafen.Fire 0);
        (deafEnv, FakeDeafen.Disable); (deafEnv, FakeDeafen.Stop);
        (deafEnv, FakeDeafen.Start)]
       (FakeDeafen.run [(deafEnv, FakeDeafen.Start)] FakeDeafen.initial)).
Proof.
  apply (FakeDeafen.sender_follows_faking_flag _ _ deafEnv deafEnv deafEnv).
  - split; reflexivity.
  - cbn. repeat split; done.
Defined.
